(** * aiokafka record codecs: legacy (magic 0/1) batches and the batch iterator

    A shallow embedding of [aiokafka/record/abc.py],
    [aiokafka/record/legacy_records.py] and
    [aiokafka/record/memory_records.py], and the properties of the
    record-batch specification that concern them.

    Conventions.
    - A Python [bytes]/[memoryview] value is a [list byte]; Python integers
      are [Z]; [None]-able values are [option].
    - A Python call that may raise returns a [result]; exceptions are values
      of [exn] (class and message).
    - [io.BytesIO] is a record of contents and stream position.
    - The [while] loops are embedded with a fuel argument; running out of fuel
      is the outcome [OutOfFuel], which is proved never to happen with the
      fuel the embedding supplies. *)

From Stdlib Require Import ZArith List Lia Bool String.
From Stdlib Require Strings.Byte.
From Stdlib Require Import DecimalString.
Import ListNotations.
Import Init.Byte.

Local Open Scope Z_scope.

(* ===================================================================== *)
(** ** The Python runtime pieces the sources rely on                     *)
(* ===================================================================== *)

Module Py.

(** Exception classes that can be raised by the modelled code. *)
Inductive exc_class : Type :=
| Exception
| AssertionError
| ValueError
| IndexError
| TypeError
| AttributeError
| UnboundLocalError
| struct_error
| CorruptRecordException
| CrcCheckFailed.

(** The direct base class, as declared in [abc.py] (and by Python for the
    built-in ones; [Exception] is the root we stop at). *)
Definition exc_base (c : exc_class) : option exc_class :=
  match c with
  | Exception => None
  | CrcCheckFailed => Some CorruptRecordException
  | _ => Some Exception
  end.

Definition exc_class_eqb (a b : exc_class) : bool :=
  match a, b with
  | Exception, Exception | AssertionError, AssertionError
  | ValueError, ValueError | IndexError, IndexError
  | TypeError, TypeError | AttributeError, AttributeError
  | UnboundLocalError, UnboundLocalError | struct_error, struct_error
  | CorruptRecordException, CorruptRecordException
  | CrcCheckFailed, CrcCheckFailed => true
  | _, _ => false
  end.

(** [issubclass c d]: walk the base-class chain of [c] looking for [d]. *)
Fixpoint issubclass_fuel (fuel : nat) (c d : exc_class) : bool :=
  exc_class_eqb c d ||
  match fuel with
  | O => false
  | S k => match exc_base c with
           | Some b => issubclass_fuel k b d
           | None => false
           end
  end.

Definition issubclass : exc_class -> exc_class -> bool := issubclass_fuel 3.

(** An exception instance: its class and [args[0]]. *)
Record exn : Type := mkExn { exn_class : exc_class; exn_msg : string }.

(** Outcome of a call: a value, a raised exception, or (for the embedded
    loops only) fuel exhausted before the loop finished. *)
Inductive result (A : Type) : Type :=
| Ok (a : A)
| Raise (e : exn)
| OutOfFuel.
Arguments Ok {A} a.
Arguments Raise {A} e.
Arguments OutOfFuel {A}.

Definition bind {A B} (r : result A) (k : A -> result B) : result B :=
  match r with
  | Ok a => k a
  | Raise e => Raise e
  | OutOfFuel => OutOfFuel
  end.

Definition raise {A} (c : exc_class) (msg : string) : result A :=
  Raise (mkExn c msg).

(** [l[i]] on a list: a negative index counts from the end; out of range is
    an [IndexError]. *)
Definition getitem {A : Type} (l : list A) (i : Z) : result A :=
  let n := Z.of_nat (List.length l) in
  let j := if i <? 0 then n + i else i in
  if (0 <=? j) && (j <? n) then
    match nth_error l (Z.to_nat j) with
    | Some x => Ok x
    | None => raise IndexError "list index out of range"
    end
  else raise IndexError "list index out of range".

(** [str(n)] for an integer. *)
Definition str (n : Z) : string := NilZero.string_of_int (Z.to_int n).

(** *** bytes *)

Definition bytes : Type := list byte.

Definition byte_to_Z (b : byte) : Z := Z.of_N (Byte.to_N b).

Definition byte_of_Z (z : Z) : byte :=
  match Byte.of_N (Z.to_N (z mod 256)) with
  | Some b => b
  | None => x00
  end.

Definition len (b : bytes) : Z := Z.of_nat (List.length b).

(** [b[lo:hi]] for [0 <= lo]; like Python it clips at the end of [b]. *)
Definition slice (b : bytes) (lo hi : Z) : bytes :=
  firstn (Z.to_nat (hi - lo)) (skipn (Z.to_nat lo) b).

(** Big-endian value of a byte string, unsigned. *)
Definition be_unsigned (b : bytes) : Z :=
  fold_left (fun acc x => acc * 256 + byte_to_Z x) b 0.

(** Two's complement reading of a [bits]-bit unsigned value. *)
Definition to_signed (bits : Z) (u : Z) : Z :=
  if u <? 2 ^ (bits - 1) then u else u - 2 ^ bits.

(** The [n] low-order bytes of [v], most significant first. *)
Fixpoint be_bytes (n : nat) (v : Z) : bytes :=
  match n with
  | O => []
  | S k => byte_of_Z (Z.shiftr v (8 * Z.of_nat k)) :: be_bytes k v
  end.

(** *** struct *)

(** [struct.calcsize] of the big-endian formats used: q = 8, i = 4, b = 1. *)
Inductive fmt_char : Type := fmt_q | fmt_i | fmt_b.

Definition fmt_size (c : fmt_char) : Z :=
  match c with fmt_q => 8 | fmt_i => 4 | fmt_b => 1 end.

Definition calcsize (f : list fmt_char) : Z :=
  fold_right (fun c acc => fmt_size c + acc) 0 f.

(** [struct.unpack_from(">" + c, buffer, offset)] for one signed field:
    [struct.error] unless the field lies inside the buffer. *)
Definition unpack_from (c : fmt_char) (buffer : bytes) (offset : Z) : result Z :=
  if (0 <=? offset) && (offset + fmt_size c <=? len buffer) then
    Ok (to_signed (8 * fmt_size c)
          (be_unsigned (slice buffer offset (offset + fmt_size c))))
  else raise struct_error "unpack_from requires a buffer of enough bytes".

(** [struct.pack(">" + c, v)]: [struct.error] when [v] is out of range. *)
Definition pack (c : fmt_char) (v : Z) : result bytes :=
  if (- 2 ^ (8 * fmt_size c - 1) <=? v) && (v <? 2 ^ (8 * fmt_size c - 1)) then
    Ok (be_bytes (Z.to_nat (fmt_size c)) v)
  else raise struct_error "argument out of range".

(** *** io.BytesIO *)

Record BytesIO : Type := mkBytesIO { getvalue : bytes; tell : Z }.

Definition BytesIO_new (initial : bytes) : BytesIO := mkBytesIO initial 0.

(** [write] at the stream position: overwrites, extends when it runs past
    the end (zero-filling a gap left by a seek beyond the end). *)
Definition write (f : BytesIO) (b : bytes) : BytesIO :=
  let pos := Z.to_nat (tell f) in
  let old := getvalue f in
  let pad := repeat x00 (pos - List.length old) in
  mkBytesIO (firstn pos old ++ pad ++ b ++ skipn (pos + List.length b) old)
            (tell f + len b).

Definition seek (f : BytesIO) (pos : Z) : BytesIO :=
  mkBytesIO (getvalue f) pos.

(** [truncate()] at the current position (never extends). *)
Definition truncate (f : BytesIO) : BytesIO :=
  mkBytesIO (firstn (Z.to_nat (tell f)) (getvalue f)) (tell f).

(** [read(n)]: at most [n] bytes from the position; everything up to the
    end when [n] is negative. *)
Definition read (f : BytesIO) (n : Z) : bytes * BytesIO :=
  let got := if n <? 0 then skipn (Z.to_nat (tell f)) (getvalue f)
             else slice (getvalue f) (tell f) (tell f + n) in
  (got, mkBytesIO (getvalue f) (tell f + len got)).

(** [view[lo:hi] = src] on a memoryview: the sizes must agree. *)
Definition setslice (view : bytes) (lo hi : Z) (src : bytes) : result bytes :=
  if (0 <=? lo) && (lo <=? hi) && (hi <=? len view) && (len src =? hi - lo)
  then Ok (firstn (Z.to_nat lo) view ++ src ++ skipn (Z.to_nat hi) view)
  else raise ValueError
         "memoryview assignment: lvalue and rvalue have different structures".

End Py.

Import Py.

Declare Scope py_scope.
Notation "x <- c ;; k" := (bind c (fun x => k))
  (at level 61, c at next level, right associativity) : py_scope.
Notation "' p <- c ;; k" := (bind c (fun x => match x with p => k end))
  (at level 61, p pattern, c at next level, right associativity) : py_scope.
Local Open Scope py_scope.

(* ===================================================================== *)
(** ** abc.py                                                            *)
(* ===================================================================== *)

Module Abc.

(** The parameters [ABCRecordBatchReader.__init__] declares after [self]. *)
Definition ABCRecordBatchReader_init_parameters : list string :=
  ["buffer"; "validate_crc"]%string.

(** [CorruptRecordException(message)]. *)
Definition CorruptRecordException_init (message : string) : exn :=
  mkExn CorruptRecordException message.

(** [CrcCheckFailed(record_crc, calc_crc)]: formats both values into the
    message handed to the base class. *)
Definition CrcCheckFailed_init (record_crc calc_crc : Z) : exn :=
  mkExn CrcCheckFailed
    ("Record crc " ++ str record_crc ++ " does not match calculated "
       ++ str calc_crc).

End Abc.

(* ===================================================================== *)
(** ** memory_records.py                                                 *)
(* ===================================================================== *)

Module MemoryRecords.

Definition LENGTH_OFFSET : Z := Eval cbv in calcsize [fmt_q].
Definition LOG_OVERHEAD : Z := Eval cbv in calcsize [fmt_q; fmt_i].
Definition MAGIC_OFFSET : Z := Eval cbv in calcsize [fmt_q; fmt_i; fmt_i].
(** Minimum space requirements for Record V0: CRC, Magic, Attributes,
    Key size, Value size. *)
Definition RECORD_OVERHEAD_V0 : Z :=
  Eval cbv in calcsize [fmt_i; fmt_b; fmt_b; fmt_i; fmt_i].

(** The two batch classes [next_batch] can construct.  Their bodies are not
    part of the modelled sources; a batch object is represented by the
    constructor call that made it.  [CorruptRecordException] is imported
    from [aiokafka.errors]; it is represented by the class of that name. *)
Inductive Batch : Type :=
| DefaultRecordBatch (buffer : bytes)
| LegacyRecordBatch (buffer : bytes) (magic : Z).

Record t : Type := mk {
  _buffer : bytes;
  _slices : list bytes;
  _remaining : Z;
  _next_slice : Z
}.

(** The [while next_slice != buffer_len] loop of [_split_slices]; one unit of
    fuel per iteration. *)
Fixpoint split_loop (fuel : nat) (bytes_data : bytes)
    (next_slice remaining : Z) (slices : list bytes)
    : result (list bytes * Z) :=
  let buffer_len := len bytes_data in
  if next_slice =? buffer_len then Ok (slices, remaining)
  else
    match fuel with
    | O => OutOfFuel
    | S fuel' =>
      let remaining := buffer_len - next_slice in
      if negb (remaining =? 0) && (remaining <? LOG_OVERHEAD) then
        (* Will be re-checked in Fetcher for remaining bytes *)
        Ok (slices, remaining)
      else
        length <- unpack_from fmt_i bytes_data (next_slice + LENGTH_OFFSET) ;;
        if length <? RECORD_OVERHEAD_V0 then
          Raise (Abc.CorruptRecordException_init
            ("Record size is less than the minimum record overhead ("
               ++ str RECORD_OVERHEAD_V0 ++ ")"))
        else
          let slice_end := next_slice + length + LOG_OVERHEAD in
          if slice_end >? buffer_len then
            (* Will be re-checked in Fetcher for remaining bytes *)
            Ok (slices, remaining)
          else
            let buffer := slice bytes_data next_slice slice_end in
            split_loop fuel' bytes_data slice_end remaining
                       (slices ++ [buffer])
    end.

Definition _split_slices (bytes_data : bytes) : result (list bytes * Z) :=
  split_loop (List.length bytes_data) bytes_data 0 0 [].

Definition __init__ (bytes_data : bytes) : result t :=
  '(slices, remaining) <- _split_slices bytes_data ;;
  Ok (mk bytes_data slices remaining 0).

Definition size_in_bytes (self : t) : Z := len (_buffer self).

Definition valid_bytes (self : t) : Z := len (_buffer self) - _remaining self.

Definition has_next (self : t) : bool :=
  Z.of_nat (List.length (_slices self)) >? _next_slice self.

(** [next_batch] returns the new state with the batch, [None] for Python's
    [None]. *)
Definition next_batch (self : t) : result (t * option Batch) :=
  if negb (has_next self) then Ok (self, None)
  else
    buffer <- getitem (_slices self) (_next_slice self) ;;
    let self' := mk (_buffer self) (_slices self) (_remaining self)
                    (_next_slice self + 1) in
    magic <- unpack_from fmt_b buffer MAGIC_OFFSET ;;
    if magic >=? 2 then Ok (self', Some (DefaultRecordBatch buffer))
    else Ok (self', Some (LegacyRecordBatch buffer magic)).

End MemoryRecords.

(* ===================================================================== *)
(** ** The kafka-python protocol layer used by legacy_records.py         *)
(* ===================================================================== *)

Module Kafka.

(** Modelled from the spec: [kafka.protocol.types] ([Int8], [Int32], [Int64],
    [Bytes]) is imported by [legacy_records.py] but is not among the sources.
    All multi-byte integers are big-endian two's complement (section 6.1);
    a value that does not fit, or a read that runs out of bytes, is a
    [ValueError]. *)
Definition _pack (c : fmt_char) (v : Z) : result bytes :=
  match pack c v with
  | Raise _ =>
      raise ValueError "Error encountered when attempting to convert value"
  | r => r
  end.

Definition _unpack (c : fmt_char) (data : bytes) : result Z :=
  if len data =? fmt_size c then
    Ok (to_signed (8 * fmt_size c) (be_unsigned data))
  else raise ValueError "Error encountered when attempting to convert value".

Definition Int8_encode : Z -> result bytes := _pack fmt_b.
Definition Int32_encode : Z -> result bytes := _pack fmt_i.
Definition Int64_encode : Z -> result bytes := _pack fmt_q.

Definition decode_int (c : fmt_char) (data : BytesIO) : result (Z * BytesIO) :=
  let '(got, data) := read data (fmt_size c) in
  v <- _unpack c got ;;
  Ok (v, data).

Definition Int8_decode : BytesIO -> result (Z * BytesIO) := decode_int fmt_b.
Definition Int32_decode : BytesIO -> result (Z * BytesIO) := decode_int fmt_i.
Definition Int64_decode : BytesIO -> result (Z * BytesIO) := decode_int fmt_q.

(** Modelled from the spec: [Bytes] of [kafka.protocol.types], a signed
    [Int32] length followed by the bytes, length [-1] for null. *)
Definition Bytes_encode (value : option bytes) : result bytes :=
  match value with
  | None => Int32_encode (-1)
  | Some v => l <- Int32_encode (len v) ;; Ok (l ++ v)
  end.

Definition Bytes_decode (data : BytesIO) : result (option bytes * BytesIO) :=
  '(length, data) <- Int32_decode data ;;
  if length <? 0 then Ok (None, data)
  else
    let '(value, data) := read data length in
    if negb (len value =? length) then
      raise ValueError "Buffer underrun decoding Bytes"
    else Ok (Some value, data).

(** Modelled from the spec: [crc32] of [kafka.util], the CRC-32 of zlib
    (reflected polynomial 0xEDB88320) reported as a signed 32-bit value, the
    form in which the CRC field is put on the wire. *)
Definition crc32_shift (c : Z) : Z :=
  if Z.testbit c 0 then Z.lxor (Z.shiftr c 1) 0xEDB88320 else Z.shiftr c 1.

Definition crc32_update (c : Z) (b : byte) : Z :=
  Nat.iter 8 crc32_shift (Z.lxor c (byte_to_Z b)).

Definition binascii_crc32 (data : bytes) : Z :=
  Z.lxor (fold_left crc32_update data 0xFFFFFFFF) 0xFFFFFFFF.

Definition crc32 (data : bytes) : Z :=
  let crc := binascii_crc32 data in
  if crc >=? 2 ^ 31 then crc - 2 ^ 32 else crc.

(** The codecs of [kafka.codec] and the clock are supplied by the
    environment and stay opaque.  A decoder is handed the value of the
    message, which may be [None]. *)
Record Env : Type := mkEnv {
  gzip_encode : bytes -> bytes;
  snappy_encode : bytes -> bytes;
  lz4_encode : bytes -> bytes;
  lz4_encode_old_kafka : bytes -> bytes;
  gzip_decode : option bytes -> result bytes;
  snappy_decode : option bytes -> result bytes;
  lz4_decode : option bytes -> result bytes;
  lz4_decode_old_kafka : option bytes -> result bytes;
  (** [int(time.time() * 1000)]: one reading of the clock, which stands for
      every reading taken while the environment is in use; it only enters
      messages built at magic 1 without a timestamp. *)
  time_ms : Z
}.

Definition CODEC_MASK : Z := 0x07.
Definition CODEC_GZIP : Z := 0x01.
Definition CODEC_SNAPPY : Z := 0x02.
Definition CODEC_LZ4 : Z := 0x03.
Definition TIMESTAMP_TYPE_MASK : Z := 0x08.
(** crc(4), magic(1), attributes(1), timestamp(8), key+value size(4*2) *)
Definition Message_HEADER_SIZE : Z := 22.
(** offset + message_size *)
Definition MessageSet_HEADER_SIZE : Z := 12.

(** Modelled from the spec: [Message] of [kafka.protocol.message], the
    frame of section 4.3 after the message-set framing:
    CRC:i32 | Magic:i8 | Attributes:i8 | [Timestamp:i64 if magic 1] |
    KeyLen:i32 | Key | ValueLen:i32 | Value. *)
Record Message : Type := mkMessage {
  crc : Z;
  magic : Z;
  attributes : Z;
  timestamp : option Z;
  key : option bytes;
  value : option bytes;
  _validated_crc : option Z
}.

(** [Message(value, key, magic, attributes, crc, timestamp)]: a timestamp is
    refused at magic 0 and defaults to the clock above it. *)
Definition Message_init (E : Env) (value key : option bytes)
    (magic attributes crc : Z) (timestamp : option Z) : result Message :=
  if negb ((magic >? 0) || match timestamp with None => true | _ => false end)
  then raise AssertionError "timestamp not supported in v0"
  else
    let timestamp :=
      match timestamp with
      | None => if magic >? 0 then Some (time_ms E) else None
      | Some t => Some t
      end in
    Ok (mkMessage crc magic attributes timestamp key value None).

Definition timestamp_type (m : Message) : option Z :=
  if magic m =? 0 then None
  else if negb (Z.land (attributes m) TIMESTAMP_TYPE_MASK =? 0) then Some 1
  else Some 0.

(** The fields after the CRC, serialised for the message's version. *)
Definition encode_fields (m : Message) : result bytes :=
  if magic m =? 1 then
    mg <- Int8_encode (magic m) ;;
    at_ <- Int8_encode (attributes m) ;;
    ts <- match timestamp m with
          | Some t => Int64_encode t
          | None => raise ValueError "Error encountered when attempting to convert value"
          end ;;
    k <- Bytes_encode (key m) ;;
    v <- Bytes_encode (value m) ;;
    Ok (mg ++ at_ ++ ts ++ k ++ v)
  else if magic m =? 0 then
    mg <- Int8_encode (magic m) ;;
    at_ <- Int8_encode (attributes m) ;;
    k <- Bytes_encode (key m) ;;
    v <- Bytes_encode (value m) ;;
    Ok (mg ++ at_ ++ k ++ v)
  else raise ValueError "Unrecognized message version".

(** [Message.encode()]: serialise, compute the CRC over everything after the
    CRC field and put it in front.  (The object's own [crc] attribute is
    updated as well; every caller here discards the object.) *)
Definition Message_encode (m : Message) : result bytes :=
  _ <- Int32_encode (crc m) ;;
  body <- encode_fields m ;;
  c <- Int32_encode (crc32 body) ;;
  Ok (c ++ body).

Definition is_compressed (m : Message) : bool :=
  negb (Z.land (attributes m) CODEC_MASK =? 0).

Definition validate_crc (m : Message) : result bool :=
  match _validated_crc m with
  | Some c => Ok (crc m =? c)
  | None => body <- encode_fields m ;; Ok (crc m =? crc32 body)
  end.

(** [Message.decode(data)] for [data] a bytes object: the CRC of the bytes
    after the CRC field is remembered for [validate_crc].  The fields after
    the attributes are those of [SCHEMAS[magic]], a list of the two schemas
    indexed the Python way: 1 and -1 select the schema with the timestamp
    field, 0 and -2 the one without, anything else is out of range; the
    timestamp read is kept at magic 1 only. *)
Definition Message_decode (E : Env) (data : bytes) : result Message :=
  let validated := crc32 (skipn 4 data) in
  let s := BytesIO_new data in
  '(crc, s) <- Int32_decode s ;;
  '(magic, s) <- Int8_decode s ;;
  '(attributes, s) <- Int8_decode s ;;
  '(timestamp, s) <-
     (if (magic =? 1) || (magic =? -1) then
        '(t, s) <- Int64_decode s ;;
        Ok (if magic =? 1 then Some t else None, s)
      else if (magic =? 0) || (magic =? -2) then Ok (None, s)
      else raise IndexError "list index out of range") ;;
  '(key, s) <- Bytes_decode s ;;
  '(value, s) <- Bytes_decode s ;;
  m <- Message_init E value key magic attributes crc timestamp ;;
  Ok (mkMessage (Kafka.crc m) (Kafka.magic m) (Kafka.attributes m)
        (Kafka.timestamp m) (Kafka.key m) (Kafka.value m) (Some validated)).

(** An element of a decoded message set: [(offset, size, message)], or the
    [(None, None, PartialMessage())] marker of a truncated tail. *)
Inductive item : Type :=
| Item (offset size : Z) (msg : Message)
| Partial.

(** The body of the [try] in [MessageSet.decode]. *)
Definition decode_item (E : Env) (raw : BytesIO) (bytes_to_read : Z)
    : result (item * BytesIO * Z) :=
  '(offset, raw) <- Int64_decode raw ;;
  '(msg_bytes, raw) <- Bytes_decode raw ;;
  match msg_bytes with
  | None => raise TypeError "object of type 'NoneType' has no len()"
  | Some msg_bytes =>
      let bytes_to_read := bytes_to_read - (8 + 4 + len msg_bytes) in
      msg <- Message_decode E msg_bytes ;;
      Ok (Item offset (len msg_bytes) msg, raw, bytes_to_read)
  end.

(** The [while bytes_to_read] loop; a [ValueError] in the body appends the
    partial-message marker and stops. *)
Fixpoint decode_loop (E : Env) (fuel : nat) (raw : BytesIO)
    (bytes_to_read : Z) (items : list item) : result (list item) :=
  if bytes_to_read =? 0 then Ok items
  else
    match fuel with
    | O => OutOfFuel
    | S fuel' =>
      match decode_item E raw bytes_to_read with
      | Ok (it, raw, bytes_to_read) =>
          decode_loop E fuel' raw bytes_to_read (items ++ [it])
      | Raise e =>
          if issubclass (exn_class e) ValueError then Ok (items ++ [Partial])
          else Raise e
      | OutOfFuel => OutOfFuel
      end
    end.

(** Modelled from the spec: [MessageSet.decode(data, bytes_to_read=None)] of
    [kafka.protocol.message]: the set is a run of
    Offset:i64 | MessageSize:i32 | Message frames, prefixed with its total
    length when [bytes_to_read] is not given. *)
Definition MessageSet_decode (E : Env) (data : BytesIO)
    (bytes_to_read : option Z) : result (list item) :=
  '(bytes_to_read, data) <-
     match bytes_to_read with
     | None => Int32_decode data
     | Some n => Ok (n, data)
     end ;;
  let raw := BytesIO_new (fst (read data bytes_to_read)) in
  decode_loop E (S (List.length (getvalue raw))) raw bytes_to_read [].

(** [Message.decompress()]: the value is decoded with the codec named by the
    attributes and parsed as a message set. *)
Definition decompress (E : Env) (m : Message) : result (list item) :=
  let codec := Z.land (attributes m) CODEC_MASK in
  if negb ((codec =? CODEC_GZIP) || (codec =? CODEC_SNAPPY)
           || (codec =? CODEC_LZ4))
  then raise AssertionError ""
  else
    raw_bytes <-
      (if codec =? CODEC_GZIP then gzip_decode E (value m)
       else if codec =? CODEC_SNAPPY then snappy_decode E (value m)
       else if magic m =? 0 then lz4_decode_old_kafka E (value m)
       else lz4_decode E (value m)) ;;
    MessageSet_decode E (BytesIO_new raw_bytes) (Some (len raw_bytes)).

End Kafka.

(* ===================================================================== *)
(** ** legacy_records.py                                                 *)
(* ===================================================================== *)

Module LegacyRecordBatchWriter.
Import Kafka.

Record t : Type := mk {
  _magic : Z;
  _compression_type : Z;
  _batch_size : Z;
  _buffer : BytesIO;
  _first_message : bool
}.

(** A record header, [(key, value)]; legacy batches take none. *)
Definition header : Type := (string * option bytes)%type.

Definition __init__ (magic compression_type batch_size : Z) : result t :=
  size <- Int32_encode 0 ;;  (* first 4 bytes for batch size *)
  Ok (mk magic compression_type batch_size
         (write (BytesIO_new []) size) true).

Definition olen (b : option bytes) : Z :=
  match b with Some x => len x | None => 0 end.

(** return True if batch does not have free capacity for append message *)
Definition _is_full (self : t) (key value : option bytes) : bool :=
  if _first_message self then
    (* batch must contain at least one message *)
    false
  else
    let needed_bytes := MessageSet_HEADER_SIZE + Message_HEADER_SIZE in
    let needed_bytes := needed_bytes + olen key in
    let needed_bytes := needed_bytes + olen value in
    tell (_buffer self) + needed_bytes >? _batch_size self.

(** Append message to batch. Return True is message appended, False if
    no more room.  (When the call raises, no writer is returned; what the
    object is left as is given by [append_self] below.) *)
Definition append (E : Env) (self : t) (offset : Z) (timestamp : option Z)
    (key value : option bytes) (headers : option (list header))
    : result (t * bool) :=
  match headers with
  | Some (_ :: _) => raise AssertionError "Headers not supported in v0/v1"
  | _ =>
    if _is_full self key value then Ok (self, false)
    else
      msg_inst <-
        (if _magic self =? 0 then
           Message_init E value key (_magic self) 0 0 None
         else
           Message_init E value key (_magic self) 0 0 timestamp) ;;
      encoded <- Message_encode msg_inst ;;
      o <- Int64_encode offset ;;
      l <- Int32_encode (len encoded) ;;
      let msg := o ++ l in
      let buffer := write (write (_buffer self) msg) encoded in
      Ok (mk (_magic self) (_compression_type self) (_batch_size self)
             buffer false, true)
  end.

(** The same call together with the object it leaves behind, also when it
    raises: the assertion on the headers fails before anything is assigned;
    [_first_message] is cleared before the message is built and encoded, so
    an exception raised there leaves the flag cleared and the buffer, which
    is written last, as it was. *)
Definition append_self (E : Env) (self : t) (offset : Z)
    (timestamp : option Z) (key value : option bytes)
    (headers : option (list header)) : t * result bool :=
  match headers with
  | Some (_ :: _) =>
      (self, raise AssertionError "Headers not supported in v0/v1")
  | _ =>
    if _is_full self key value then (self, Ok false)
    else
      let self := mk (_magic self) (_compression_type self) (_batch_size self)
                     (_buffer self) false in
      match
        (msg_inst <-
           (if _magic self =? 0 then
              Message_init E value key (_magic self) 0 0 None
            else
              Message_init E value key (_magic self) 0 0 timestamp) ;;
         encoded <- Message_encode msg_inst ;;
         o <- Int64_encode offset ;;
         l <- Int32_encode (len encoded) ;;
         Ok (o ++ l, encoded))
      with
      | Ok (msg, encoded) =>
          (mk (_magic self) (_compression_type self) (_batch_size self)
              (write (write (_buffer self) msg) encoded) false, Ok true)
      | Raise e => (self, Raise e)
      | OutOfFuel => (self, OutOfFuel)
      end
  end.

(** The codec call of [_maybe_compress]; a compression type other than the
    three known ones leaves [compressed] unbound. *)
Definition compress (E : Env) (self : t) (data : bytes) : result bytes :=
  if _compression_type self =? CODEC_GZIP then Ok (gzip_encode E data)
  else if _compression_type self =? CODEC_SNAPPY then Ok (snappy_encode E data)
  else if _compression_type self =? CODEC_LZ4 then
    if _magic self =? 0 then Ok (lz4_encode_old_kafka E data)
    else Ok (lz4_encode E data)
  else raise UnboundLocalError
         "local variable 'compressed' referenced before assignment".

Definition _maybe_compress (E : Env) (self : t) : result (t * bool) :=
  if negb (_compression_type self =? 0) then
    let data := skipn 4 (getvalue (_buffer self)) in (* Skip length Int32 bytes *)
    compressed <- compress E self data ;;
    msg <- Message_init E (Some compressed) None (_magic self)
             (_compression_type self) 0 None ;;
    encoded <- Message_encode msg ;;
    (* if compressed message is longer than original
       we should send it as is (not compressed) *)
    let header_size := 12 in  (* 4(all size) + 8(offset) + 4(compressed size) *)
    if len encoded + header_size <? len data then
      (* write compressed message set (with header) to buffer *)
      o <- Int64_encode 0 ;;  (* offset 0 *)
      data <- setslice data 0 8 o ;;
      l <- Int32_encode (len encoded) ;;
      data <- setslice data 8 12 l ;;
      data <- setslice data 12 (12 + len encoded) encoded ;;
      let buffer := mkBytesIO (firstn 4 (getvalue (_buffer self)) ++ data)
                              (tell (_buffer self)) in
      let buffer := truncate (seek buffer (16 + len encoded)) in
      Ok (mk (_magic self) (_compression_type self) (_batch_size self)
             buffer (_first_message self), true)
    else Ok (self, false)
  else Ok (self, false).

(** Compress batch to be ready for send *)
Definition close (E : Env) (self : t) : result (t * BytesIO) :=
  '(self, _) <- _maybe_compress E self ;;
  (* update batch size (first 4 bytes of buffer) *)
  let buffer_len := tell (_buffer self) - 4 in
  let buffer := seek (_buffer self) 0 in
  size <- Int32_encode buffer_len ;;
  let buffer := write buffer size in
  let buffer := seek buffer 0 in
  Ok (mk (_magic self) (_compression_type self) (_batch_size self)
         buffer (_first_message self), buffer).

End LegacyRecordBatchWriter.

Module LegacyRecord.

Record t : Type := mk {
  offset : Z;
  (** Epoch milliseconds *)
  timestamp : option Z;
  (** CREATE_TIME(0) or APPEND_TIME(1) *)
  timestamp_type : option Z;
  (** Bytes key or None *)
  key : option bytes;
  (** Bytes value or None *)
  value : option bytes;
  checksum : Z
}.

Definition headers (self : t) : list (string * option bytes) := [].

End LegacyRecord.

Module LegacyRecordBatchReader.
Import Kafka.

Record t : Type := mk { _message : item }.

(** The reader is built from the buffer alone. *)
Definition __init__ (E : Env) (buffer : BytesIO) : result t :=
  messages <- MessageSet_decode E buffer None ;;
  match messages with
  | [] => raise AssertionError "1"
  | m :: _ => Ok (mk m)
  end.

(** The parameters [__init__] declares after [self]. *)
Definition __init___parameters : list string := ["buffer"]%string.

(** The call [LegacyRecordBatchReader(buffer, *args, **kwargs)]: [__init__]
    has the one parameter [buffer], so any further positional or keyword
    argument is refused before the body runs. *)
Definition call (E : Env) (buffer : BytesIO) (args : list bool)
    (kwargs : list (string * bool)) : result t :=
  match args, kwargs with
  | [], [] => __init__ E buffer
  | _ :: _, _ =>
      raise TypeError
        ("__init__() takes 2 positional arguments but "
           ++ str (2 + Z.of_nat (List.length args)) ++ " were given")
  | [], (name, _) :: _ =>
      raise TypeError
        ("__init__() got an unexpected keyword argument '" ++ name ++ "'")
  end.

Definition validate_crc (self : t) : result bool :=
  match _message self with
  | Item _ _ msg => Kafka.validate_crc msg
  | Partial =>
      raise AttributeError "'PartialMessage' object has no attribute 'validate_crc'"
  end.

(** What a generator did: the records it yielded, in order, and how it
    ended ([Ok tt] when it returned normally). *)
Definition iteration : Type := (list LegacyRecord.t * result unit)%type.

Definition no_attribute (name : string) : exn :=
  mkExn AttributeError
        ("'PartialMessage' object has no attribute '" ++ name ++ "'").

(** [offset - last_offset] and [inner_offset += absolute_base_offset] on
    the [None] offset of the partial-message marker. *)
Definition none_operand : exn :=
  mkExn TypeError "unsupported operand type(s) for -: 'int' and 'NoneType'".

Definition none_augmented : exn :=
  mkExn TypeError "unsupported operand type(s) for +=: 'NoneType' and 'int'".

(** The body of the [for] loop over the inner message set, for one element:
    the record to yield, or the exception raised before yielding. *)
Definition inner_record (msg : Message) (absolute_base_offset : Z)
    (it : item) : result LegacyRecord.t :=
  inner_timestamp <-
    (if magic msg >? 0 then
       (* When magic value is greater than 0, the timestamp of a compressed
          message depends on the typestamp type of the wrapper message: *)
       match timestamp_type msg with
       | Some 0 => (* CREATE_TIME (0) *)
           match it with
           | Item _ _ inner_msg => Ok (timestamp inner_msg)
           | Partial => Raise (no_attribute "timestamp")
           end
       | _ => (* LOG_APPEND_TIME (1) *) Ok (timestamp msg)
       end
     else Ok (Some 0)) ;;
  inner_offset <-
    (if absolute_base_offset >=? 0 then
       match it with
       | Item inner_offset _ _ => Ok (inner_offset + absolute_base_offset)
       | Partial => Raise none_augmented
       end
     else
       match it with
       | Item inner_offset _ _ => Ok inner_offset
       | Partial => Raise (no_attribute "key")
       end) ;;
  match it with
  | Item _ _ inner_msg =>
      Ok (LegacyRecord.mk inner_offset inner_timestamp (timestamp_type msg)
            (key inner_msg) (value inner_msg) (crc inner_msg))
  | Partial => Raise (no_attribute "key")
  end.

(** The [for] loop: records are yielded until an element raises. *)
Fixpoint inner_loop (msg : Message) (absolute_base_offset : Z)
    (inner_mset : list item) : iteration :=
  match inner_mset with
  | [] => ([], Ok tt)
  | it :: rest =>
      match inner_record msg absolute_base_offset it with
      | Ok r =>
          let '(rs, e) := inner_loop msg absolute_base_offset rest in
          (r :: rs, e)
      | Raise e => ([], Raise e)
      | OutOfFuel => ([], OutOfFuel)
      end
  end.

(** [inner_mset[-1]] and the base offset computed from it. *)
Definition base_offset (msg : Message) (offset : Z) (inner_mset : list item)
    : result Z :=
  if magic msg >? 0 then
    it <- getitem inner_mset (-1) ;;
    match it with
    | Item last_offset _ _ => Ok (offset - last_offset)
    | Partial => Raise none_operand
    end
  else Ok (-1).

Definition __iter__ (E : Env) (self : t) : iteration :=
  match _message self with
  | Partial => ([], Raise (no_attribute "is_compressed"))
  | Item offset size msg =>
    if is_compressed msg then
      (* If relative offset is used, we need to decompress the entire
         message first to compute the absolute offset. *)
      match (inner_mset <- decompress E msg ;;
             absolute_base_offset <- base_offset msg offset inner_mset ;;
             Ok (inner_mset, absolute_base_offset)) with
      | Ok (inner_mset, absolute_base_offset) =>
          inner_loop msg absolute_base_offset inner_mset
      | Raise e => ([], Raise e)
      | OutOfFuel => ([], OutOfFuel)
      end
    else
      ([LegacyRecord.mk offset (timestamp msg) (timestamp_type msg)
          (key msg) (value msg) (crc msg)], Ok tt)
  end.

End LegacyRecordBatchReader.

(* ===================================================================== *)
(** ** Vocabulary of the specification                                   *)
(* ===================================================================== *)

Module Spec.
Import MemoryRecords.

(** The [Length:i32] field of the batch that starts at [pos]: the big-endian
    signed 32-bit integer at offset 8 from [pos]. *)
Definition declared_length (b : bytes) (pos : Z) : Z :=
  to_signed 32 (be_unsigned (slice b (pos + 8) (pos + 12))).

(** The Magic byte of a batch slice: the signed byte at offset 16. *)
Definition magic_byte (s : bytes) : Z :=
  to_signed 8 (be_unsigned (slice s 16 17)).

(** A byte string that is exactly one batch according to its own length
    field. *)
Definition whole_batch (s : bytes) : Prop :=
  14 <= declared_length s 0 /\ len s = 12 + declared_length s 0.

(** A non-empty proper prefix of a batch: too short to hold the 12-byte
    header, or shorter than the header says. *)
Definition incomplete_batch (t : bytes) : Prop :=
  t <> [] /\
  (len t < 12 \/ (14 <= declared_length t 0 /\ len t < 12 + declared_length t 0)).

(** A tail that carries a full 12-byte header whose length field is below
    the minimum record overhead. *)
Definition corrupt_head (t : bytes) : Prop :=
  12 <= len t /\ declared_length t 0 < 14.

Definition corrupt : exn :=
  Abc.CorruptRecordException_init
    "Record size is less than the minimum record overhead (14)".

(** The value the splitting loop leaves in [remaining] once it has taken the
    batches [bs] and stands in front of the tail [t]. *)
Definition remaining_after (bs : list bytes) (t : bytes) (rem : Z) : Z :=
  match bs with
  | [] => rem
  | _ => len (last bs []) + len t
  end.

(** The batch object [next_batch] builds over a slice. *)
Definition batch_of (s : bytes) : Batch :=
  if magic_byte s >=? 2 then DefaultRecordBatch s
  else LegacyRecordBatch s (magic_byte s).

(** The iterator with its cursor moved to [k]. *)
Definition at_cursor (mr : MemoryRecords.t) (k : Z) : MemoryRecords.t :=
  MemoryRecords.mk (_buffer mr) (_slices mr) (_remaining mr) k.

(** Calling [next_batch] until it returns [None], collecting the batches. *)
Fixpoint drain (fuel : nat) (mr : MemoryRecords.t) : result (list Batch) :=
  match fuel with
  | O => OutOfFuel
  | S fuel' =>
      '(mr', ob) <- next_batch mr ;;
      match ob with
      | None => Ok []
      | Some x => rest <- drain fuel' mr' ;; Ok (x :: rest)
      end
  end.

(** States of the iterator over [b]: the freshly built one and those that
    [next_batch] leads to. *)
Inductive reachable (b : bytes) : MemoryRecords.t -> Prop :=
| reachable_init mr : __init__ b = Ok mr -> reachable b mr
| reachable_next mr mr' batch :
    reachable b mr -> next_batch mr = Ok (mr', batch) -> reachable b mr'.

End Spec.

(** Vocabulary for the legacy writer and reader. *)
Module LegacySpec.
Import Kafka.

(** The bytes of a stream that have not been read yet. *)
Definition unread (s : BytesIO) : bytes :=
  skipn (Z.to_nat (tell s)) (getvalue s).

(** The arguments of one [append] call (headers left out). *)
Record record : Type := mkRecord {
  r_offset : Z;
  r_timestamp : option Z;
  r_key : option bytes;
  r_value : option bytes
}.


(** The message [append] builds for a record. *)
Definition message_of (E : Env) (magic : Z) (r : record) : result Message :=
  if magic =? 0 then Message_init E (r_value r) (r_key r) magic 0 0 None
  else Message_init E (r_value r) (r_key r) magic 0 0 (r_timestamp r).

(** The bytes [append] writes for a record: Offset:i64 | MessageSize:i32 |
    the encoded message. *)
Definition entry_of (E : Env) (magic : Z) (r : record) : result bytes :=
  msg <- message_of E magic r ;;
  encoded <- Message_encode msg ;;
  o <- Int64_encode (r_offset r) ;;
  l <- Int32_encode (len encoded) ;;
  Ok (o ++ l ++ encoded).

(** Appending a sequence of records with empty headers; the flags are what
    each [append] returned. *)
Fixpoint append_all (E : Env) (w : LegacyRecordBatchWriter.t)
    (rs : list record) : result (LegacyRecordBatchWriter.t * list bool) :=
  match rs with
  | [] => Ok (w, [])
  | r :: rs' =>
      '(w, ok) <- LegacyRecordBatchWriter.append E w (r_offset r)
                    (r_timestamp r) (r_key r) (r_value r) None ;;
      '(w, oks) <- append_all E w rs' ;;
      Ok (w, ok :: oks)
  end.

(** A writer some sequence of accepted or refused appends has led to. *)
Inductive writer_state (E : Env) : LegacyRecordBatchWriter.t -> Prop :=
| writer_new magic compression_type batch_size w :
    LegacyRecordBatchWriter.__init__ magic compression_type batch_size = Ok w ->
    writer_state E w
| writer_append w offset timestamp key value headers w' ok :
    writer_state E w ->
    LegacyRecordBatchWriter.append E w offset timestamp key value headers
      = Ok (w', ok) ->
    writer_state E w'
| writer_raised w offset timestamp key value headers w' e :
    writer_state E w ->
    LegacyRecordBatchWriter.append_self E w offset timestamp key value headers
      = (w', Raise e) ->
    writer_state E w'.

(** The worst-case size [_is_full] charges for a record. *)
Definition worst_case_size (key value : option bytes) : Z :=
  MessageSet_HEADER_SIZE + Message_HEADER_SIZE
  + LegacyRecordBatchWriter.olen key + LegacyRecordBatchWriter.olen value.

Definition int64 (v : Z) : Prop := - 2 ^ 63 <= v < 2 ^ 63.

(** A record every field of which fits the wire format at this magic. *)
Definition encodable (E : Env) (magic : Z) (r : record) : Prop :=
  (magic = 0 \/ magic = 1) /\
  int64 (r_offset r) /\
  (magic = 1 ->
   int64 (match r_timestamp r with Some t => t | None => time_ms E end)) /\
  LegacyRecordBatchWriter.olen (r_key r)
    + LegacyRecordBatchWriter.olen (r_value r) < 2 ^ 31 - 22.

(** The timestamp a message carries for a record: none at magic 0, the
    given one above it, the clock reading when none was given. *)
Definition stored_timestamp (E : Env) (magic : Z) (r : record) : option Z :=
  if magic =? 0 then None
  else match r_timestamp r with
       | Some t => Some t
       | None => Some (time_ms E)
       end.



(** What the reader yields for a record read back as a plain message. *)
Definition read_back_plain (E : Env) (magic : Z) (r : record)
    : Z * option Z * option bytes * option bytes :=
  (r_offset r, stored_timestamp E magic r, r_key r, r_value r).


(** The message [Message.decode] returns for the encoding of [m] whose
    fields serialise to [body]. *)
Definition decoded (m : Message) (body : bytes) : Message :=
  mkMessage (crc32 body) (magic m) (attributes m)
            (if magic m =? 1 then timestamp m else None)
            (key m) (value m) (Some (crc32 body)).

(** [bs] is the frame Offset:i64 | MessageSize:i32 | Message of the decoded
    element [(offset, size, msg)]. *)
Definition is_entry (E : Env) (it : Z * Z * Message) (bs : bytes) : Prop :=
  let '(offset, size, msg) := it in
  exists o l encoded,
    bs = o ++ l ++ encoded /\ size = len encoded /\
    Int64_encode offset = Ok o /\ Int32_encode (len encoded) = Ok l /\
    Message_decode E encoded = Ok msg.

(** The message the reader decodes for a record written at [magic], given
    the serialised fields [body] its CRC was computed over. *)
Definition stored_message (E : Env) (magic : Z) (r : record) (body : bytes)
    : Message :=
  mkMessage (crc32 body) magic 0 (stored_timestamp E magic r)
            (r_key r) (r_value r) (Some (crc32 body)).

(** What every state of the writer before [close] satisfies: the stream
    position is at the end and the buffer starts with the four bytes
    reserved for the size. *)
Definition writer_inv (w : LegacyRecordBatchWriter.t) : Prop :=
  tell (LegacyRecordBatchWriter._buffer w)
    = len (getvalue (LegacyRecordBatchWriter._buffer w)) /\
  4 <= len (getvalue (LegacyRecordBatchWriter._buffer w)).

(** The records region: everything after the 4-byte length prefix. *)
Definition region (w : LegacyRecordBatchWriter.t) : bytes :=
  skipn 4 (getvalue (LegacyRecordBatchWriter._buffer w)).

(** The writer with its buffer replaced. *)
Definition with_buffer (w : LegacyRecordBatchWriter.t) (b : BytesIO)
    (first : bool) : LegacyRecordBatchWriter.t :=
  LegacyRecordBatchWriter.mk
    (LegacyRecordBatchWriter._magic w)
    (LegacyRecordBatchWriter._compression_type w)
    (LegacyRecordBatchWriter._batch_size w) b first.

(** The wrapper [_maybe_compress] builds: the compressed region, the
    wrapper message around it and its encoding. *)
Definition wrapper_of (E : Env) (w : LegacyRecordBatchWriter.t)
    : result (bytes * Message * bytes) :=
  compressed <- LegacyRecordBatchWriter.compress E w (region w) ;;
  msg <- Message_init E (Some compressed) None
           (LegacyRecordBatchWriter._magic w)
           (LegacyRecordBatchWriter._compression_type w) 0 None ;;
  encoded <- Message_encode msg ;;
  Ok (compressed, msg, encoded).

(** The lines of [close] after the call to [_maybe_compress]: the size is
    written over the first four bytes and the stream is rewound. *)
Definition write_size (w : LegacyRecordBatchWriter.t)
    : result (LegacyRecordBatchWriter.t * BytesIO) :=
  let buffer_len := tell (LegacyRecordBatchWriter._buffer w) - 4 in
  let buffer := seek (LegacyRecordBatchWriter._buffer w) 0 in
  size <- Int32_encode buffer_len ;;
  let buffer := seek (write buffer size) 0 in
  Ok (with_buffer w buffer (LegacyRecordBatchWriter._first_message w), buffer).

(** The record the reader yields for the inner element
    [(inner_offset, size, inner_msg)] of the wrapper [msg], given the base
    offset computed for the wrapper. *)
Definition inner_record_of (msg : Message) (absolute_base_offset : Z)
    (it : Z * Z * Message) : LegacyRecord.t :=
  let '(inner_offset, _, inner_msg) := it in
  LegacyRecord.mk
    (if absolute_base_offset >=? 0 then inner_offset + absolute_base_offset
     else inner_offset)
    (if magic msg >? 0 then
       match timestamp_type msg with
       | Some 0 => timestamp inner_msg
       | _ => timestamp msg
       end
     else Some 0)
    (timestamp_type msg) (key inner_msg) (value inner_msg) (crc inner_msg).

(** The base offset the reader computes for a wrapper at [offset] around
    the inner elements [its]. *)
Definition base_of (msg : Message) (offset : Z) (its : list (Z * Z * Message))
    : Z :=
  if magic msg >? 0 then offset - fst (fst (last its (0, 0, msg))) else -1.

(** [close] kept the compressed wrapper: a compression type is configured
    and the encoded wrapper plus its framing is smaller than the region. *)
Definition wrapped (E : Env) (w : LegacyRecordBatchWriter.t) : Prop :=
  LegacyRecordBatchWriter._compression_type w <> 0 /\
  exists compressed wrapper encoded,
    wrapper_of E w = Ok (compressed, wrapper, encoded) /\
    len encoded + 12 < len (region w).

Definition to_item (it : Z * Z * Message) : item :=
  let '(offset, size, msg) := it in Item offset size msg.

End LegacySpec.

(** Concrete buffers used to exercise the definitions. *)
Module Samples.

(** A minimal legacy batch: offset 0, length 14, CRC 0, the given magic,
    attributes 0, null key and null value. *)
Definition tiny_batch (magic : byte) : bytes :=
  [x00; x00; x00; x00; x00; x00; x00; x00;   x00; x00; x00; x0e;
   x00; x00; x00; x00;   magic; x00;
   xff; xff; xff; xff;   xff; xff; xff; xff].

(** The first 20 bytes of a batch that declares 59 bytes of payload. *)
Definition cut_batch : bytes :=
  [x00; x00; x00; x00; x00; x00; x00; x00;   x00; x00; x00; x3b;
   x00; x00; x00; x01;   x02; x03; x18; xa2].

(** A 12-byte header that declares 13 bytes, one below the minimum. *)
Definition short_header : bytes :=
  [x00; x00; x00; x00; x00; x00; x00; x00;   x00; x00; x00; x0d].

Definition three_batches : bytes :=
  tiny_batch x02 ++ tiny_batch x00 ++ tiny_batch x01.

(** A run-length codec standing in for the opaque codecs of the
    environment: the output is a tag byte followed by (count, byte) pairs. *)
Fixpoint rle_encode (data : bytes) : bytes :=
  match data with
  | [] => []
  | x :: rest =>
      match rle_encode rest with
      | c :: y :: tl =>
          if Byte.eqb x y && (byte_to_Z c <? 255)
          then byte_of_Z (byte_to_Z c + 1) :: y :: tl
          else x01 :: x :: c :: y :: tl
      | _ => [x01; x]
      end
  end.

Fixpoint rle_decode (data : bytes) : result bytes :=
  match data with
  | [] => Ok []
  | c :: y :: tl =>
      rest <- rle_decode tl ;;
      Ok (repeat y (Z.to_nat (byte_to_Z c)) ++ rest)
  | _ => raise ValueError "odd run-length data"
  end.

Definition tagged_encode (tag : byte) (data : bytes) : bytes :=
  tag :: rle_encode data.

Definition tagged_decode (tag : byte) (data : bytes) : result bytes :=
  match data with
  | t :: rest =>
      if Byte.eqb t tag then rle_decode rest
      else raise ValueError "wrong codec"
  | [] => raise ValueError "empty input"
  end.

(** On [None] the toy decoders find no input to read and return no bytes. *)
Definition tagged_decode_value (tag : byte) (value : option bytes)
    : result bytes :=
  match value with
  | Some data => tagged_decode tag data
  | None => Ok []
  end.

Definition toy_env : Kafka.Env :=
  Kafka.mkEnv (tagged_encode x01) (tagged_encode x02) (tagged_encode x03)
              (tagged_encode x04)
              (tagged_decode_value x01) (tagged_decode_value x02)
              (tagged_decode_value x03) (tagged_decode_value x04)
              1503229838908.

(** Two records with highly repetitive payloads, and two short ones. *)
Definition long_records : list LegacySpec.record :=
  [LegacySpec.mkRecord 0 (Some 9999999) (Some (repeat x74 40)) (Some (repeat x53 40));
   LegacySpec.mkRecord 1 (Some 9999999) (Some (repeat x74 40)) (Some (repeat x53 40))].

Definition short_records : list LegacySpec.record :=
  [LegacySpec.mkRecord 0 (Some 9999999) (Some [x74; x65; x73; x74])
                       (Some [x53; x75; x70; x65; x72]);
   LegacySpec.mkRecord 1 (Some 9999999) (Some [x74; x65; x73; x74])
                       (Some [x53; x75; x70; x65; x72])].

(** Writing the records into a fresh writer and closing it. *)
Definition written (E : Kafka.Env) (magic compression_type batch_size : Z)
    (rs : list LegacySpec.record) : result BytesIO :=
  w <- LegacyRecordBatchWriter.__init__ magic compression_type batch_size ;;
  '(w, _) <- LegacySpec.append_all E w rs ;;
  '(_, buffer) <- LegacyRecordBatchWriter.close E w ;;
  Ok buffer.

(** The value of a call known to succeed ([d] otherwise). *)
Definition get {A : Type} (d : A) (r : result A) : A :=
  match r with Ok a => a | _ => d end.

(** The writer after appending the records to a fresh one. *)
Definition writer_after (E : Kafka.Env) (magic compression_type batch_size : Z)
    (rs : list LegacySpec.record) : LegacyRecordBatchWriter.t :=
  get (LegacyRecordBatchWriter.mk 0 0 0 (BytesIO_new []) true)
      (w <- LegacyRecordBatchWriter.__init__ magic compression_type batch_size ;;
       '(w, _) <- LegacySpec.append_all E w rs ;;
       Ok w).

Definition closed_buffer (E : Kafka.Env) (magic compression_type batch_size : Z)
    (rs : list LegacySpec.record) : BytesIO :=
  get (BytesIO_new []) (written E magic compression_type batch_size rs).

Definition reader_of (E : Kafka.Env) (buffer : BytesIO)
    : LegacyRecordBatchReader.t :=
  get (LegacyRecordBatchReader.mk Kafka.Partial)
      (LegacyRecordBatchReader.__init__ E buffer).

Definition no_message : Kafka.Message :=
  Kafka.mkMessage 0 0 0 None None None None.

(** The outer message a reader holds, and its frame offset and size. *)
Definition outer_message (r : LegacyRecordBatchReader.t) : Kafka.Message :=
  match LegacyRecordBatchReader._message r with
  | Kafka.Item _ _ m => m
  | Kafka.Partial => no_message
  end.

Definition outer_offset (r : LegacyRecordBatchReader.t) : Z :=
  match LegacyRecordBatchReader._message r with
  | Kafka.Item o _ _ => o
  | Kafka.Partial => 0
  end.

Definition outer_size (r : LegacyRecordBatchReader.t) : Z :=
  match LegacyRecordBatchReader._message r with
  | Kafka.Item _ s _ => s
  | Kafka.Partial => 0
  end.

(** The whole messages of a decoded message set. *)
Definition items_of (l : list Kafka.item) : list (Z * Z * Kafka.Message) :=
  flat_map (fun it => match it with
                      | Kafka.Item o s m => [(o, s, m)]
                      | Kafka.Partial => []
                      end) l.

(** The inner messages of the wrapper a reader holds. *)
Definition inner_items (E : Kafka.Env) (r : LegacyRecordBatchReader.t)
    : list (Z * Z * Kafka.Message) :=
  items_of (get [] (Kafka.decompress E (outer_message r))).

(** The reader over the closed buffer of a gzip-configured magic-1 writer
    that took the two long records. *)
Definition wrapped_reader : LegacyRecordBatchReader.t :=
  reader_of toy_env (closed_buffer toy_env 1 Kafka.CODEC_GZIP 100000 long_records).

Definition first_short : LegacySpec.record :=
  LegacySpec.mkRecord 0 (Some 9999999) (Some [x74; x65; x73; x74])
                      (Some [x53; x75; x70; x65; x72]).

Definition second_short : LegacySpec.record :=
  LegacySpec.mkRecord 1 (Some 9999999) (Some [x74; x65; x73; x74])
                      (Some [x53; x75; x70; x65; x72]).

(** A message set of one magic-0 message whose CRC field (0) is not the
    CRC of its bytes. *)
Definition bad_crc_buffer : BytesIO :=
  BytesIO_new ([x00; x00; x00; x1a] ++ tiny_batch x00).

(** The message bytes inside [bad_crc_buffer]. *)
Definition bad_crc_message : bytes := skipn 12 (tiny_batch x00).


End Samples.

(** Vocabulary and sample data for the further properties of the writer,
    the reader and the batch iterator. *)
Module More.
Import Kafka.

(** The number of bytes [append] writes for a record: 12 bytes of message-set
    framing, 14 bytes of message header, 8 more for the timestamp at
    magic 1, and the key and the value. *)
Definition frame_size (magic : Z) (key value : option bytes) : Z :=
  12 + 14 + (if magic =? 1 then 8 else 0)
  + LegacyRecordBatchWriter.olen key + LegacyRecordBatchWriter.olen value.

(** The fields of a decoded element of a message set. *)
Definition item_fields (it : Z * Z * Message)
    : Z * option Z * option bytes * option bytes :=
  let '(offset, _, msg) := it in (offset, timestamp msg, key msg, value msg).

(** A message set with no message in it. *)
Definition empty_set_buffer : BytesIO := BytesIO_new [x00; x00; x00; x00].

(** A message set that declares 5 bytes and holds 3. *)
Definition cut_set_buffer : BytesIO :=
  BytesIO_new [x00; x00; x00; x05; x01; x02; x03].

(** The closed buffer of [Samples.wrapped_reader] as a broker would return
    it: the wrapper's offset field holds the last absolute offset, here 5. *)
Definition broker_buffer : BytesIO :=
  let closed := getvalue (Samples.closed_buffer Samples.toy_env 1 CODEC_GZIP
                            100000 Samples.long_records) in
  BytesIO_new (firstn 4 closed ++ be_bytes 8 5 ++ skipn 12 closed).

Definition broker_reader : LegacyRecordBatchReader.t :=
  Samples.reader_of Samples.toy_env broker_buffer.

(** The writer after a first [append] whose offset does not fit Int64. *)
Definition raised_writer : LegacyRecordBatchWriter.t :=
  fst (LegacyRecordBatchWriter.append_self Samples.toy_env
         (Samples.writer_after Samples.toy_env 1 0 100000 [])
         (2 ^ 63) None None None None).

(** A magic-1 wrapper whose value decompresses to no bytes at all. *)
Definition hollow_wrapper : Message :=
  mkMessage 0 1 CODEC_GZIP (Some 0) None
            (Some (Samples.tagged_encode x01 [])) None.

(** A magic-0 wrapper whose value decompresses to the frames of the two
    short records followed by three stray bytes. *)
Definition cut_wrapper : Message :=
  mkMessage 0 0 CODEC_GZIP None None
    (Some (Samples.tagged_encode x01
             (LegacySpec.region
                (Samples.writer_after Samples.toy_env 0 0 100000
                   Samples.short_records)
              ++ [x01; x02; x03])))
    None.

(** The same at magic 1. *)
Definition cut_wrapper_v1 : Message :=
  mkMessage 0 1 CODEC_GZIP (Some 0) None
    (Some (Samples.tagged_encode x01
             (LegacySpec.region
                (Samples.writer_after Samples.toy_env 1 0 100000
                   Samples.short_records)
              ++ [x01; x02; x03])))
    None.

End More.

(* ===================================================================== *)
(** ** Bytes and integers                                                *)
(* ===================================================================== *)

Section BytesFacts.

Lemma len_nonneg (b : bytes) : 0 <= len b.
Proof. unfold len; lia. Qed.

Lemma len_app (a b : bytes) : len (a ++ b) = len a + len b.
Proof. unfold len; rewrite length_app; lia. Qed.

Lemma len_nil : len [] = 0.
Proof. reflexivity. Qed.

Lemma len_cons (x : byte) (b : bytes) : len (x :: b) = 1 + len b.
Proof. unfold len; simpl List.length; lia. Qed.

Lemma len_zero_nil (b : bytes) : len b = 0 -> b = [].
Proof. destruct b as [|x r]; [reflexivity | rewrite len_cons; pose proof (len_nonneg r); lia]. Qed.

Lemma len_slice (b : bytes) (lo hi : Z) :
  0 <= lo -> lo <= hi -> hi <= len b -> len (slice b lo hi) = hi - lo.
Proof.
  unfold len, slice; intros.
  rewrite length_firstn, length_skipn; lia.
Qed.

Lemma slice_app_at (a s t : bytes) (lo hi : Z) :
  lo = len a -> hi = len a + len s -> slice (a ++ s ++ t) lo hi = s.
Proof.
  unfold slice, len; intros -> ->.
  rewrite Nat2Z.id, skipn_app, skipn_all, Nat.sub_diag; simpl.
  replace (Z.to_nat _) with (List.length s + 0)%nat by lia.
  rewrite firstn_app_2; simpl. apply app_nil_r.
Qed.

Lemma slice_shift (a r : bytes) (lo hi : Z) :
  0 <= lo -> slice (a ++ r) (len a + lo) (len a + hi) = slice r lo hi.
Proof.
  unfold slice, len; intros.
  rewrite skipn_app.
  rewrite skipn_all2 by lia. simpl.
  f_equal; [lia | f_equal; lia].
Qed.

Lemma slice_prefix (r t : bytes) (lo hi : Z) :
  0 <= lo -> hi <= len r -> slice (r ++ t) lo hi = slice r lo hi.
Proof.
  unfold slice, len; intros.
  rewrite skipn_app, firstn_app.
  rewrite length_skipn.
  replace (Z.to_nat (hi - lo) - (List.length r - Z.to_nat lo))%nat with 0%nat by lia.
  simpl. apply app_nil_r.
Qed.

Lemma getitem_nth {A : Type} (l : list A) (k : nat) (x : A) :
  nth_error l k = Some x -> getitem l (Z.of_nat k) = Ok x.
Proof.
  intros H. unfold getitem.
  assert (k < List.length l)%nat by (apply nth_error_Some; congruence).
  destruct (Z.ltb_spec (Z.of_nat k) 0); [lia|].
  destruct (Z.leb_spec 0 (Z.of_nat k)); [|lia].
  destruct (Z.ltb_spec (Z.of_nat k) (Z.of_nat (List.length l))); [|lia].
  cbn [andb]. rewrite Nat2Z.id, H. reflexivity.
Qed.

Lemma getitem_last {A : Type} (l : list A) (d : A) :
  l <> [] -> getitem l (-1) = Ok (last l d).
Proof.
  intros Hne. destruct (exists_last Hne) as [l' [x ->]].
  rewrite last_last. unfold getitem. rewrite length_app. cbn [List.length].
  destruct (Z.ltb_spec (-1) 0); [|lia].
  destruct (Z.leb_spec 0 (Z.of_nat (List.length l' + 1) + -1)); [|lia].
  destruct (Z.ltb_spec (Z.of_nat (List.length l' + 1) + -1)
                       (Z.of_nat (List.length l' + 1))); [|lia].
  cbn [andb].
  replace (Z.to_nat (Z.of_nat (List.length l' + 1) + -1)) with (List.length l')
    by lia.
  rewrite nth_error_app2, Nat.sub_diag by lia. reflexivity.
Qed.

End BytesFacts.

(* ===================================================================== *)
(** ** The batch iterator                                                *)
(* ===================================================================== *)

Section SplitSlices.
Import MemoryRecords Spec.

Lemma declared_length_at (a t : bytes) :
  12 <= len t -> declared_length (a ++ t) (len a) = declared_length t 0.
Proof.
  intros Ht. unfold declared_length.
  rewrite (slice_shift a t 8 12) by lia. reflexivity.
Qed.

Lemma declared_length_prefix (s t : bytes) :
  12 <= len s -> declared_length (s ++ t) 0 = declared_length s 0.
Proof.
  intros Hs. unfold declared_length. simpl.
  rewrite slice_prefix by lia. reflexivity.
Qed.

Lemma unpack_length (b : bytes) (pos : Z) :
  0 <= pos -> 12 <= len b - pos ->
  unpack_from fmt_i b (pos + LENGTH_OFFSET) = Ok (declared_length b pos).
Proof.
  intros Hp Hl. unfold unpack_from, LENGTH_OFFSET, declared_length. simpl fmt_size.
  replace (pos + 8 + 4) with (pos + 12) by lia.
  replace ((0 <=? pos + 8) && (pos + 12 <=? len b)) with true; [reflexivity|].
  symmetry; apply andb_true_iff; split; apply Z.leb_le; lia.
Qed.

Lemma whole_batch_len (s : bytes) : whole_batch s -> 26 <= len s.
Proof. intros [H1 H2]; lia. Qed.

(** One iteration of the loop over a whole batch in front of the cursor. *)
Lemma split_loop_whole (fuel : nat) (a s r : bytes) (rem : Z) (sl : list bytes) :
  whole_batch s ->
  split_loop (S fuel) (a ++ s ++ r) (len a) rem sl =
  split_loop fuel ((a ++ s) ++ r) (len (a ++ s)) (len s + len r) (sl ++ [s]).
Proof.
  intros Hs. pose proof (whole_batch_len s Hs) as H26. destruct Hs as [H14 Hlen].
  pose proof (len_nonneg a); pose proof (len_nonneg r).
  cbn [split_loop].
  rewrite !len_app.
  destruct (Z.eqb_spec (len a) (len a + (len s + len r))) as [E|_]; [lia|].
  replace (len a + (len s + len r) - len a) with (len s + len r) by lia.
  destruct (Z.eqb_spec (len s + len r) 0) as [E|_]; [lia|].
  destruct (Z.ltb_spec (len s + len r) LOG_OVERHEAD) as [E|_];
    [unfold LOG_OVERHEAD in E; lia|].
  cbn [negb andb].
  rewrite unpack_length by (rewrite ?len_app; lia).
  rewrite declared_length_at by (rewrite len_app; lia).
  rewrite declared_length_prefix by lia.
  cbn [bind].
  destruct (Z.ltb_spec (declared_length s 0) RECORD_OVERHEAD_V0) as [E|_];
    [unfold RECORD_OVERHEAD_V0 in E; lia|].
  unfold LOG_OVERHEAD.
  destruct (Z.gtb_spec (len a + declared_length s 0 + 12)
                       (len a + (len s + len r))) as [E|_]; [lia|].
  rewrite (slice_app_at a s r) by lia.
  rewrite <- app_assoc.
  replace (len a + declared_length s 0 + 12) with (len a + len s) by lia.
  reflexivity.
Qed.

(** The loop takes every whole batch in front of the cursor and then stands
    before the tail with the remaining fuel. *)
Lemma split_loop_batches (bs : list bytes) :
  forall (fuel : nat) (a t : bytes) (rem : Z) (sl : list bytes),
  Forall whole_batch bs ->
  len (List.concat bs ++ t) <= Z.of_nat fuel ->
  exists fuel' : nat,
    len t <= Z.of_nat fuel' /\
    split_loop fuel (a ++ List.concat bs ++ t) (len a) rem sl =
    split_loop fuel' ((a ++ List.concat bs) ++ t) (len (a ++ List.concat bs))
               (remaining_after bs t rem) (sl ++ bs).
Proof.
  induction bs as [|s bs IH]; intros fuel a t rem sl Hall Hfuel.
  - exists fuel. simpl in *. rewrite !app_nil_r. split; [exact Hfuel|reflexivity].
  - inversion Hall as [|? ? Hs Hbs]; subst.
    pose proof (whole_batch_len s Hs) as H26.
    simpl List.concat in *. rewrite <- app_assoc in *.
    rewrite len_app in Hfuel.
    destruct fuel as [|fuel].
    { pose proof (len_nonneg (List.concat bs ++ t)). simpl in Hfuel. lia. }
    rewrite split_loop_whole by assumption.
    destruct (IH fuel (a ++ s) t (len s + len (List.concat bs ++ t)) (sl ++ [s]) Hbs)
      as [fuel' [Hf' Heq]]; [lia|].
    exists fuel'. split; [exact Hf'|].
    rewrite <- !app_assoc in *. simpl app in *.
    rewrite Heq. f_equal.
    destruct bs as [|s' bs']; simpl remaining_after.
    + simpl. reflexivity.
    + reflexivity.
Qed.

Lemma split_loop_tail_nil (fuel : nat) (a : bytes) (rem : Z) (sl : list bytes) :
  split_loop fuel (a ++ []) (len a) rem sl = Ok (sl, rem).
Proof.
  rewrite app_nil_r. destruct fuel; cbn [split_loop]; rewrite Z.eqb_refl; reflexivity.
Qed.

Lemma split_loop_tail_incomplete (fuel : nat) (a t : bytes) (rem : Z)
    (sl : list bytes) :
  incomplete_batch t -> len t <= Z.of_nat fuel ->
  split_loop fuel (a ++ t) (len a) rem sl = Ok (sl, len t).
Proof.
  intros [Hne Ht] Hfuel.
  assert (0 < len t) as Hpos.
  { destruct (Z.eq_dec (len t) 0) as [E|E];
      [apply len_zero_nil in E; congruence | pose proof (len_nonneg t); lia]. }
  destruct fuel as [|fuel]; [simpl in Hfuel; lia|].
  pose proof (len_nonneg a).
  cbn [split_loop]. rewrite len_app.
  destruct (Z.eqb_spec (len a) (len a + len t)) as [E|_]; [lia|].
  replace (len a + len t - len a) with (len t) by lia.
  destruct (Z.eqb_spec (len t) 0) as [E|_]; [lia|].
  cbn [negb andb].
  destruct (Z.ltb_spec (len t) LOG_OVERHEAD) as [E|E]; [reflexivity|].
  unfold LOG_OVERHEAD in E.
  destruct Ht as [Ht|[H14 Hlt]]; [lia|].
  rewrite unpack_length by (rewrite ?len_app; lia).
  rewrite declared_length_at by lia.
  cbn [bind].
  destruct (Z.ltb_spec (declared_length t 0) RECORD_OVERHEAD_V0) as [E'|_];
    [unfold RECORD_OVERHEAD_V0 in E'; lia|].
  unfold LOG_OVERHEAD.
  destruct (Z.gtb_spec (len a + declared_length t 0 + 12) (len a + len t))
    as [_|E']; [reflexivity|lia].
Qed.

Lemma split_loop_tail_corrupt (fuel : nat) (a t : bytes) (rem : Z)
    (sl : list bytes) :
  corrupt_head t -> len t <= Z.of_nat fuel ->
  split_loop fuel (a ++ t) (len a) rem sl = Raise corrupt.
Proof.
  intros [H12 Hlt] Hfuel.
  destruct fuel as [|fuel]; [simpl in Hfuel; lia|].
  pose proof (len_nonneg a).
  cbn [split_loop]. rewrite len_app.
  destruct (Z.eqb_spec (len a) (len a + len t)) as [E|_]; [lia|].
  replace (len a + len t - len a) with (len t) by lia.
  destruct (Z.eqb_spec (len t) 0) as [E|_]; [lia|].
  destruct (Z.ltb_spec (len t) LOG_OVERHEAD) as [E|_];
    [unfold LOG_OVERHEAD in E; lia|].
  cbn [negb andb].
  rewrite unpack_length by (rewrite ?len_app; lia).
  rewrite declared_length_at by lia.
  cbn [bind].
  destruct (Z.ltb_spec (declared_length t 0) RECORD_OVERHEAD_V0) as [_|E'];
    [reflexivity|unfold RECORD_OVERHEAD_V0 in E'; lia].
Qed.

(** What [_split_slices] returns on a run of whole batches followed by each
    kind of tail. *)
Lemma split_slices_whole (bs : list bytes) :
  Forall whole_batch bs ->
  _split_slices (List.concat bs) = Ok (bs, remaining_after bs [] 0).
Proof.
  intros Hbs. unfold _split_slices.
  enough (forall b, b = List.concat bs ++ [] ->
            split_loop (List.length b) b 0 0 [] = Ok (bs, remaining_after bs [] 0))
    as H by (apply H; symmetry; apply app_nil_r).
  intros b ->.
  destruct (split_loop_batches bs (List.length (List.concat bs ++ [])) [] [] 0 [] Hbs)
    as [fuel' [_ Heq]].
  { unfold len. lia. }
  simpl app in Heq. change (len []) with 0 in Heq.
  rewrite Heq. apply split_loop_tail_nil.
Qed.

Lemma split_slices_incomplete (bs : list bytes) (t : bytes) :
  Forall whole_batch bs -> incomplete_batch t ->
  _split_slices (List.concat bs ++ t) = Ok (bs, len t).
Proof.
  intros Hbs Ht. unfold _split_slices.
  destruct (split_loop_batches bs (List.length (List.concat bs ++ t)) [] t 0 [] Hbs)
    as [fuel' [Hf Heq]].
  { unfold len. lia. }
  simpl app in Heq. change (len []) with 0 in Heq.
  rewrite Heq. apply split_loop_tail_incomplete; assumption.
Qed.

Lemma split_slices_corrupt (bs : list bytes) (t : bytes) :
  Forall whole_batch bs -> corrupt_head t ->
  _split_slices (List.concat bs ++ t) = Raise corrupt.
Proof.
  intros Hbs Ht. unfold _split_slices.
  destruct (split_loop_batches bs (List.length (List.concat bs ++ t)) [] t 0 [] Hbs)
    as [fuel' [Hf Heq]].
  { unfold len. lia. }
  simpl app in Heq. change (len []) with 0 in Heq.
  rewrite Heq. apply split_loop_tail_corrupt; assumption.
Qed.

(** Every buffer is a run of whole batches followed by an empty, an
    incomplete or a corrupt tail. *)
Lemma decompose_buffer (n : nat) :
  forall b : bytes, (List.length b <= n)%nat ->
  exists (bs : list bytes) (t : bytes),
    b = List.concat bs ++ t /\ Forall whole_batch bs /\
    (t = [] \/ incomplete_batch t \/ corrupt_head t).
Proof.
  induction n as [|n IH]; intros b Hn.
  - destruct b; [|simpl in Hn; lia].
    exists [], []. repeat split; auto.
  - destruct b as [|x b'] eqn:Eb; [exists [], []; repeat split; auto|].
    rewrite <- Eb in *. assert (b <> []) as Hne by (subst; discriminate).
    clear Eb x b'.
    destruct (Z_lt_le_dec (len b) 12) as [Hshort|H12].
    { exists [], b. repeat split; auto. right; left. split; auto. }
    destruct (Z_lt_le_dec (declared_length b 0) 14) as [Hc|H14].
    { exists [], b. repeat split; auto. right; right. split; auto. }
    destruct (Z_lt_le_dec (len b) (12 + declared_length b 0)) as [Htr|Hfit].
    { exists [], b. repeat split; auto. right; left. split; auto. }
    set (k := Z.to_nat (12 + declared_length b 0)).
    assert (List.length (firstn k b) = k) as Hk.
    { rewrite length_firstn. unfold len in Hfit. lia. }
    destruct (IH (skipn k b)) as [bs [t [Hb [Hbs Ht]]]].
    { rewrite length_skipn. lia. }
    exists (firstn k b :: bs), t. repeat split; auto.
    + simpl. rewrite <- app_assoc, <- Hb. symmetry. apply firstn_skipn.
    + constructor; [|exact Hbs].
      assert (len (firstn k b) = 12 + declared_length b 0) as Hl.
      { unfold len. rewrite Hk. lia. }
      assert (declared_length (firstn k b) 0 = declared_length b 0) as Hd.
      { rewrite <- (firstn_skipn k b) at 2.
        rewrite declared_length_prefix by lia. reflexivity. }
      split; rewrite Hd; lia.
Qed.

End SplitSlices.

Section Iterator.
Import MemoryRecords Spec.

Lemma init_whole (bs : list bytes) :
  Forall whole_batch bs ->
  __init__ (List.concat bs) =
  Ok (mk (List.concat bs) bs (remaining_after bs [] 0) 0).
Proof. intros H. unfold __init__. rewrite split_slices_whole by exact H. reflexivity. Qed.

Lemma init_incomplete (bs : list bytes) (t : bytes) :
  Forall whole_batch bs -> incomplete_batch t ->
  __init__ (List.concat bs ++ t) = Ok (mk (List.concat bs ++ t) bs (len t) 0).
Proof.
  intros H Ht. unfold __init__. rewrite split_slices_incomplete by assumption.
  reflexivity.
Qed.

Lemma init_corrupt (bs : list bytes) (t : bytes) :
  Forall whole_batch bs -> corrupt_head t ->
  __init__ (List.concat bs ++ t) = Raise corrupt.
Proof.
  intros H Ht. unfold __init__. rewrite split_slices_corrupt by assumption.
  reflexivity.
Qed.

(** Construction never runs out of fuel and raises nothing but the
    corrupt-record exception; when it succeeds the slices are the whole
    batches in front of an empty or incomplete tail. *)
Lemma init_cases (b : bytes) :
  (exists (bs : list bytes) (t : bytes),
     b = List.concat bs ++ t /\ Forall whole_batch bs /\
     (t = [] \/ incomplete_batch t) /\
     exists rem, __init__ b = Ok (mk b bs rem 0) /\
       (incomplete_batch t -> rem = len t) /\
       (t = [] -> rem = remaining_after bs [] 0)) \/
  (exists (bs : list bytes) (t : bytes),
     b = List.concat bs ++ t /\ Forall whole_batch bs /\ corrupt_head t /\
     __init__ b = Raise corrupt).
Proof.
  destruct (decompose_buffer (List.length b) b (le_n _))
    as [bs [t [Hb [Hbs [Ht|[Ht|Ht]]]]]].
  - left. exists bs, t. subst t. rewrite app_nil_r in Hb. subst b.
    split; [symmetry; apply app_nil_r|]. split; [exact Hbs|].
    split; [left; reflexivity|].
    eexists. split; [apply init_whole; exact Hbs|].
    split; [intros [Hne _]; congruence|reflexivity].
  - left. exists bs, t. subst b.
    split; [reflexivity|]. split; [exact Hbs|]. split; [right; exact Ht|].
    eexists. split; [apply init_incomplete; assumption|].
    split; [reflexivity|]. intros ->. destruct Ht as [Hne _]; congruence.
  - right. exists bs, t. subst b.
    split; [reflexivity|]. split; [exact Hbs|]. split; [exact Ht|].
    apply init_corrupt; assumption.
Qed.

Lemma unpack_magic (s : bytes) :
  17 <= len s -> unpack_from fmt_b s MAGIC_OFFSET = Ok (magic_byte s).
Proof.
  intros H. unfold unpack_from, MAGIC_OFFSET, magic_byte. simpl fmt_size.
  destruct (Z.leb_spec (16 + 1) (len s)); [reflexivity|lia].
Qed.

(** [next_batch] with the cursor on the [k]-th slice. *)
Lemma next_batch_at (mr : MemoryRecords.t) (k : nat) (s : bytes) :
  nth_error (_slices mr) k = Some s -> 17 <= len s ->
  next_batch (at_cursor mr (Z.of_nat k)) =
  Ok (at_cursor mr (Z.of_nat k + 1), Some (batch_of s)).
Proof.
  intros Hk Hs. unfold next_batch, has_next, at_cursor. cbn [_slices _next_slice _buffer _remaining].
  assert (k < List.length (_slices mr))%nat as Hlt
    by (apply nth_error_Some; congruence).
  destruct (Z.gtb_spec (Z.of_nat (List.length (_slices mr))) (Z.of_nat k)); [|lia].
  cbn [negb]. rewrite (getitem_nth _ _ _ Hk). cbn [bind].
  rewrite unpack_magic by exact Hs.
  cbn [bind]. unfold batch_of. destruct (magic_byte s >=? 2); reflexivity.
Qed.

(** [next_batch] with the cursor at (or past) the end. *)
Lemma next_batch_end (mr : MemoryRecords.t) :
  Z.of_nat (List.length (_slices mr)) <= _next_slice mr ->
  next_batch mr = Ok (mr, None).
Proof.
  intros H. unfold next_batch, has_next.
  destruct (Z.gtb_spec (Z.of_nat (List.length (_slices mr))) (_next_slice mr));
    [lia|reflexivity].
Qed.

Lemma drain_S (fuel : nat) (mr : MemoryRecords.t) :
  drain (S fuel) mr =
  ('(mr', ob) <- next_batch mr ;;
   match ob with
   | None => Ok []
   | Some x => rest <- drain fuel mr' ;; Ok (x :: rest)
   end).
Proof. reflexivity. Qed.

Lemma drain_from (mr : MemoryRecords.t) :
  Forall whole_batch (_slices mr) ->
  forall (n k : nat),
  (k + n = List.length (_slices mr))%nat ->
  drain (S n) (at_cursor mr (Z.of_nat k)) =
  Ok (map batch_of (skipn k (_slices mr))).
Proof.
  intros Hall. induction n as [|n IH]; intros k Hk.
  - rewrite drain_S, next_batch_end by (cbn; lia). cbn [bind].
    rewrite skipn_all2 by lia. reflexivity.
  - destruct (nth_error (_slices mr) k) as [s|] eqn:Hs;
      [|apply nth_error_None in Hs; lia].
    assert (whole_batch s) as Hw.
    { rewrite Forall_forall in Hall. apply Hall. eapply nth_error_In; eauto. }
    apply whole_batch_len in Hw.
    rewrite drain_S, (next_batch_at mr k s Hs) by lia. cbn [bind].
    replace (Z.of_nat k + 1) with (Z.of_nat (S k)) by lia.
    rewrite (IH (S k)) by lia. cbn [bind].
    pose proof (nth_error_split (_slices mr) k Hs) as [l1 [l2 [Hsplit Hl1]]].
    rewrite Hsplit. subst k.
    rewrite (skipn_app (List.length l1)), (skipn_app (S (List.length l1))).
    rewrite skipn_all, (skipn_all2 (n := S (List.length l1))) by lia.
    replace (List.length l1 - List.length l1)%nat with 0%nat by lia.
    replace (S (List.length l1) - List.length l1)%nat with 1%nat by lia.
    reflexivity.
Qed.

End Iterator.

Section IteratorClaims.
Import MemoryRecords Spec Samples.

Lemma at_cursor_same (mr : MemoryRecords.t) : at_cursor mr (_next_slice mr) = mr.
Proof. destruct mr; reflexivity. Qed.

(** The part of the truncation property the loop gets right: in front of an
    incomplete tail every whole batch is taken and [remaining] is the length
    of the tail. *)
Lemma remaining_of_truncated (bs : list bytes) (t : bytes) :
  Forall whole_batch bs -> incomplete_batch t ->
  exists mr, __init__ (List.concat bs ++ t) = Ok mr /\
             _slices mr = bs /\ _remaining mr = len t /\
             valid_bytes mr = len (List.concat bs).
Proof.
  intros Hbs Ht. eexists. split; [apply init_incomplete; assumption|].
  unfold valid_bytes; cbn. rewrite len_app. repeat split; lia.
Qed.

(** On a buffer of whole batches only, [remaining] keeps the value assigned
    at the top of the last iteration: the length of the last batch. *)
Lemma remaining_of_whole (bs : list bytes) :
  Forall whole_batch bs -> bs <> [] ->
  exists mr, __init__ (List.concat bs) = Ok mr /\
             _slices mr = bs /\ _remaining mr = len (last bs []) /\
             26 <= _remaining mr.
Proof.
  intros Hbs Hne. eexists. split; [apply init_whole; exact Hbs|].
  cbn. destruct bs as [|s bs']; [congruence|].
  cbn [remaining_after]. rewrite len_nil, Z.add_0_r.
  repeat split.
  apply whole_batch_len.
  rewrite Forall_forall in Hbs. apply Hbs.
  destruct (exists_last Hne) as [l [x ->]]. rewrite last_last.
  apply in_or_app; right; left; reflexivity.
Qed.

(** C2: evaluated on a buffer that is exactly one whole 26-byte batch, the
    constructor takes the batch as a slice and still leaves
    [remaining = 26], so [valid_bytes()] is 0 although all 26 bytes were
    consumed; the claim requires [remaining = 0] and [valid_bytes() = 26]. *)
Theorem C2_remaining_after_whole_batch :
  __init__ (tiny_batch x00) =
    Ok (mk (tiny_batch x00) [tiny_batch x00] 26 0) /\
  valid_bytes (mk (tiny_batch x00) [tiny_batch x00] 26 0) = 0 /\
  size_in_bytes (mk (tiny_batch x00) [tiny_batch x00] 26 0) = 26 /\
  len (List.concat [tiny_batch x00]) = 26.
Proof. repeat split; vm_compute; reflexivity. Qed.

(** C3: when construction succeeds, the slices are cut from the input from
    cursor 0 onwards without gaps: the slice at each cursor is
    [cursor, cursor + 12 + length) with [length] the big-endian Int32 at
    offset 8 from the cursor, and what is left over is empty or an incomplete
    batch; [next_batch] on the k-th slice reads the signed Magic byte at
    offset 16 and builds a [DefaultRecordBatch] when it is at least 2 and a
    [LegacyRecordBatch] otherwise; calling [next_batch] until [None] produces
    the batches of the slices in buffer order. *)
Theorem C3_slices_and_dispatch (b : bytes) (mr : MemoryRecords.t) :
  __init__ b = Ok mr ->
  (exists t, b = List.concat (_slices mr) ++ t /\ (t = [] \/ incomplete_batch t)) /\
  (forall (k : nat) (s : bytes),
     nth_error (_slices mr) k = Some s ->
     let cursor := len (List.concat (firstn k (_slices mr))) in
     s = slice b cursor (cursor + 12 + declared_length b cursor) /\
     next_batch (at_cursor mr (Z.of_nat k)) =
       Ok (at_cursor mr (Z.of_nat k + 1),
           Some (if magic_byte s >=? 2 then DefaultRecordBatch s
                 else LegacyRecordBatch s (magic_byte s)))) /\
  drain (S (List.length (_slices mr))) mr = Ok (map batch_of (_slices mr)).
Proof.
  intros Hinit.
  destruct (init_cases b) as [(bs & t & Hb & Hbs & Ht & rem & Hi & _)
                             |(bs & t & _ & _ & _ & Hi)];
    [|congruence].
  rewrite Hi in Hinit. injection Hinit as <-. cbn [_slices].
  split; [exists t; split; assumption|]. split.
  - intros k s Hk. cbv zeta.
    assert (whole_batch s) as Hw.
    { rewrite Forall_forall in Hbs. apply Hbs. eapply nth_error_In; eauto. }
    pose proof (whole_batch_len s Hw) as H26. destruct Hw as [H14 Hlen].
    split.
    + destruct (nth_error_split bs k Hk) as [l1 [l2 [Hsplit Hl1]]].
      assert (firstn k bs = l1) as Hf.
      { rewrite Hsplit, <- Hl1, firstn_app, firstn_all, Nat.sub_diag.
        simpl. apply app_nil_r. }
      rewrite Hf.
      assert (b = List.concat l1 ++ s ++ (List.concat l2 ++ t)) as Hb'.
      { rewrite Hb, Hsplit, concat_app. simpl. rewrite <- !app_assoc. reflexivity. }
      assert (declared_length b (len (List.concat l1)) = declared_length s 0) as Hd.
      { rewrite Hb', declared_length_at by (rewrite len_app;
          pose proof (len_nonneg (List.concat l2 ++ t)); lia).
        apply declared_length_prefix. lia. }
      rewrite Hd. rewrite Hb' at 1. symmetry. apply slice_app_at; lia.
    + apply (next_batch_at (mk b bs rem 0) k s Hk). lia.
  - rewrite <- (at_cursor_same (mk b bs rem 0)) at 1.
    apply (drain_from (mk b bs rem 0) Hbs (List.length bs) 0). reflexivity.
Qed.

Lemma C3_slices_and_dispatch_witness :
  __init__ three_batches =
    Ok (mk three_batches [tiny_batch x02; tiny_batch x00; tiny_batch x01] 26 0) /\
  drain 4 (mk three_batches [tiny_batch x02; tiny_batch x00; tiny_batch x01] 26 0) =
    Ok [DefaultRecordBatch (tiny_batch x02); LegacyRecordBatch (tiny_batch x00) 0;
        LegacyRecordBatch (tiny_batch x01) 1].
Proof.
  assert (__init__ three_batches =
    Ok (mk three_batches [tiny_batch x02; tiny_batch x00; tiny_batch x01] 26 0))
    as H by (vm_compute; reflexivity).
  split; [exact H|].
  exact (proj2 (proj2 (C3_slices_and_dispatch _ _ H))).
Defined.

(** C4: construction raises exactly when, after a run of whole batches, a
    tail of at least 12 bytes declares a length below 14, and what it raises
    is then the corrupt-record exception; a tail that is an incomplete batch
    (shorter than 12 bytes, or shorter than its declared length) is not an
    error: the batches before it become the slices and its length is
    [remaining]; construction always finishes. *)
Theorem C4_corrupt_record_iff (b : bytes) :
  (forall e, __init__ b = Raise e <->
     e = corrupt /\
     exists (bs : list bytes) (t : bytes),
       b = List.concat bs ++ t /\ Forall whole_batch bs /\
       12 <= len t /\ declared_length t 0 < RECORD_OVERHEAD_V0) /\
  (forall (bs : list bytes) (t : bytes),
     b = List.concat bs ++ t -> Forall whole_batch bs -> incomplete_batch t ->
     __init__ b = Ok (mk b bs (len t) 0)) /\
  exn_class corrupt = CorruptRecordException /\
  __init__ b <> OutOfFuel.
Proof.
  split; [|split; [|split]].
  - intros e. split.
    + intros He.
      destruct (init_cases b) as [(bs & t & _ & _ & _ & rem & Hi & _)
                                 |(bs & t & Hb & Hbs & Ht & Hi)];
        [congruence|].
      rewrite Hi in He. injection He as <-. split; [reflexivity|].
      exists bs, t. destruct Ht. auto.
    + intros [-> (bs & t & -> & Hbs & H12 & Hd)].
      apply init_corrupt; [exact Hbs|split; assumption].
  - intros bs t -> Hbs Ht. apply init_incomplete; assumption.
  - reflexivity.
  - destruct (init_cases b) as [(bs & t & _ & _ & _ & rem & Hi & _)
                               |(bs & t & _ & _ & _ & Hi)]; congruence.
Qed.

(** What holds of every state of the iterator over [b]. *)
Lemma reachable_inv (b : bytes) (mr : MemoryRecords.t) :
  reachable b mr ->
  _buffer mr = b /\ Forall whole_batch (_slices mr) /\
  0 <= _next_slice mr <= Z.of_nat (List.length (_slices mr)) /\
  (b = [] -> _slices mr = [] /\ _remaining mr = 0).
Proof.
  induction 1 as [mr Hinit | mr mr' batch Hr IH Hstep].
  - destruct (init_cases b) as [(bs & t & Hb & Hbs & Ht & rem & Hi & Hrem1 & Hrem2)
                               |(bs & t & _ & _ & _ & Hi)];
      [|congruence].
    rewrite Hi in Hinit. injection Hinit as <-. cbn.
    split; [reflexivity|]. split; [exact Hbs|]. split; [lia|].
    intros ->. symmetry in Hb. apply app_eq_nil in Hb as [Hc ->].
    assert (bs = []) as ->.
    { destruct bs as [|s bs']; [reflexivity|].
      inversion Hbs as [|? ? Hs _]; subst. apply whole_batch_len in Hs.
      simpl in Hc. apply app_eq_nil in Hc as [-> _]. rewrite len_nil in Hs. lia. }
    split; [reflexivity|]. apply Hrem2. reflexivity.
  - destruct IH as (Hbuf & Hall & Hcur & Hempty).
    destruct (Z_lt_le_dec (_next_slice mr) (Z.of_nat (List.length (_slices mr))))
      as [Hlt|Hge].
    + destruct (nth_error (_slices mr) (Z.to_nat (_next_slice mr))) as [s|] eqn:Hs;
        [|apply nth_error_None in Hs; lia].
      assert (whole_batch s) as Hw.
      { rewrite Forall_forall in Hall. apply Hall. eapply nth_error_In; eauto. }
      apply whole_batch_len in Hw.
      pose proof (next_batch_at mr _ s Hs ltac:(lia)) as Hn.
      rewrite Z2Nat.id, at_cursor_same in Hn by lia.
      rewrite Hn in Hstep. injection Hstep as <- <-. cbn.
      split; [exact Hbuf|]. split; [exact Hall|]. split; [lia|exact Hempty].
    + rewrite next_batch_end in Hstep by exact Hge.
      injection Hstep as <- <-. tauto.
Qed.

(** C10: in every state the iterator reaches, the cursor lies between 0 and
    the number of slices; [has_next()] is true exactly when it is below that
    number; a [next_batch()] that returns a batch moves the cursor by exactly
    one and changes nothing else, and does so whenever [has_next()] is true;
    with every slice consumed [next_batch()] returns [None] and leaves the
    state as it is; over the empty buffer there are no slices,
    [size_in_bytes()] and [valid_bytes()] are 0 and [next_batch()] returns
    [None]. *)
Theorem C10_cursor_invariant (b : bytes) (mr : MemoryRecords.t) :
  reachable b mr ->
  0 <= _next_slice mr <= Z.of_nat (List.length (_slices mr)) /\
  (has_next mr = true <-> _next_slice mr < Z.of_nat (List.length (_slices mr))) /\
  (forall mr' batch, next_batch mr = Ok (mr', Some batch) ->
     mr' = at_cursor mr (_next_slice mr + 1)) /\
  (has_next mr = true -> exists batch,
     next_batch mr = Ok (at_cursor mr (_next_slice mr + 1), Some batch)) /\
  (_next_slice mr = Z.of_nat (List.length (_slices mr)) ->
     next_batch mr = Ok (mr, None)) /\
  (b = [] -> _slices mr = [] /\ size_in_bytes mr = 0 /\ valid_bytes mr = 0 /\
             has_next mr = false /\ next_batch mr = Ok (mr, None)).
Proof.
  intros Hr. destruct (reachable_inv b mr Hr) as (Hbuf & Hall & Hcur & Hempty).
  assert (has_next mr = true <->
          _next_slice mr < Z.of_nat (List.length (_slices mr))) as Hhas.
  { unfold has_next. rewrite Z.gtb_ltb. apply Z.ltb_lt. }
  assert (has_next mr = true -> exists batch,
            next_batch mr = Ok (at_cursor mr (_next_slice mr + 1), Some batch))
    as Hnext.
  { intros Hh. apply Hhas in Hh.
    destruct (nth_error (_slices mr) (Z.to_nat (_next_slice mr))) as [s|] eqn:Hs;
      [|apply nth_error_None in Hs; lia].
    assert (whole_batch s) as Hw.
    { rewrite Forall_forall in Hall. apply Hall. eapply nth_error_In; eauto. }
    apply whole_batch_len in Hw.
    pose proof (next_batch_at mr _ s Hs ltac:(lia)) as Hn.
    rewrite Z2Nat.id, at_cursor_same in Hn by lia.
    exists (batch_of s). exact Hn. }
  split; [exact Hcur|]. split; [exact Hhas|]. split; [|split; [exact Hnext|split]].
  - intros mr' batch Hstep.
    destruct (has_next mr) eqn:Hh.
    + destruct (Hnext eq_refl) as [batch' Hn]. congruence.
    + unfold next_batch in Hstep. rewrite Hh in Hstep. discriminate.
  - intros Hend. apply next_batch_end. lia.
  - intros ->. destruct (Hempty eq_refl) as [Hs Hrem].
    unfold size_in_bytes, valid_bytes. rewrite Hbuf, Hrem, Hs in *.
    assert (has_next mr = false) as Hh.
    { unfold has_next. rewrite Hs. cbn in *.
      destruct (Z.gtb_spec 0 (_next_slice mr)); [lia|reflexivity]. }
    repeat split; try reflexivity; try exact Hh.
    apply next_batch_end. rewrite Hs. cbn in *. lia.
Qed.

Lemma C10_cursor_invariant_witness :
  reachable three_batches
    (mk three_batches [tiny_batch x02; tiny_batch x00; tiny_batch x01] 26 1) /\
  0 <= 1 <= Z.of_nat 3.
Proof.
  assert (reachable three_batches
    (mk three_batches [tiny_batch x02; tiny_batch x00; tiny_batch x01] 26 1)) as H.
  { eapply reachable_next; [apply reachable_init|]; vm_compute; reflexivity. }
  split; [exact H|].
  exact (proj1 (C10_cursor_invariant _ _ H)).
Defined.

End IteratorClaims.

(* ===================================================================== *)
(** ** Wire integers                                                     *)
(* ===================================================================== *)

Section WireIntegers.
Import Kafka.

Lemma byte_to_Z_range (b : byte) : 0 <= byte_to_Z b < 256.
Proof.
  unfold byte_to_Z. pose proof (Byte.to_N_bounded b). lia.
Qed.

Lemma byte_of_Z_to_Z (z : Z) : byte_to_Z (byte_of_Z z) = z mod 256.
Proof.
  unfold byte_to_Z, byte_of_Z.
  pose proof (Z.mod_pos_bound z 256 ltac:(lia)) as Hm.
  destruct (Byte.of_N (Z.to_N (z mod 256))) as [b|] eqn:E.
  - apply Byte.to_of_N in E. rewrite E. lia.
  - apply Byte.of_N_None_iff in E. lia.
Qed.

Lemma length_be_bytes (n : nat) (v : Z) : List.length (be_bytes n v) = n.
Proof. induction n; simpl; congruence. Qed.

Lemma len_be_bytes (n : nat) (v : Z) : len (be_bytes n v) = Z.of_nat n.
Proof. unfold len. rewrite length_be_bytes. reflexivity. Qed.

Lemma be_unsigned_acc (n : nat) (v : Z) :
  forall acc,
  fold_left (fun a x => a * 256 + byte_to_Z x) (be_bytes n v) acc =
  acc * 2 ^ (8 * Z.of_nat n) + v mod 2 ^ (8 * Z.of_nat n).
Proof.
  induction n as [|n IH]; intros acc.
  - simpl. rewrite Z.mod_1_r. lia.
  - cbn [be_bytes fold_left]. rewrite IH, byte_of_Z_to_Z.
    rewrite Z.shiftr_div_pow2 by lia.
    replace (8 * Z.of_nat (S n)) with (8 * Z.of_nat n + 8) by lia.
    rewrite Z.pow_add_r by lia.
    set (p := 2 ^ (8 * Z.of_nat n)).
    assert (0 < p) as Hp by (apply Z.pow_pos_nonneg; lia).
    change (2 ^ 8) with 256.
    rewrite (Z.rem_mul_r v p 256) by lia.
    lia.
Qed.

Lemma be_unsigned_be_bytes (n : nat) (v : Z) :
  be_unsigned (be_bytes n v) = v mod 2 ^ (8 * Z.of_nat n).
Proof. unfold be_unsigned. rewrite be_unsigned_acc. lia. Qed.

Lemma to_signed_mod (bits v : Z) :
  0 < bits -> - 2 ^ (bits - 1) <= v < 2 ^ (bits - 1) ->
  to_signed bits (v mod 2 ^ bits) = v.
Proof.
  intros Hb Hv. unfold to_signed.
  replace (2 ^ bits) with (2 * 2 ^ (bits - 1))
    by (rewrite <- Z.pow_succ_r by lia; f_equal; lia).
  set (h := 2 ^ (bits - 1)) in *.
  assert (0 < h) as Hh by (apply Z.pow_pos_nonneg; lia).
  destruct (Z_le_gt_dec 0 v) as [Hs|Hs].
  - rewrite Z.mod_small by lia.
    destruct (Z.ltb_spec v h); lia.
  - replace (v mod (2 * h)) with (v + 2 * h)
      by (apply (Z.mod_unique v (2 * h) (-1)); lia).
    destruct (Z.ltb_spec (v + 2 * h) h); lia.
Qed.

(** Reading back a packed field gives the value. *)
Lemma unpack_pack (c : fmt_char) (v : Z) (enc : bytes) :
  _pack c v = Ok enc ->
  len enc = fmt_size c /\ _unpack c enc = Ok v /\
  - 2 ^ (8 * fmt_size c - 1) <= v < 2 ^ (8 * fmt_size c - 1).
Proof.
  unfold _pack, pack.
  destruct (Z.leb_spec (- 2 ^ (8 * fmt_size c - 1)) v) as [Hlo|];
    [|discriminate].
  destruct (Z.ltb_spec v (2 ^ (8 * fmt_size c - 1))) as [Hhi|];
    [|discriminate].
  cbn [andb]. intros [= <-].
  assert (Z.of_nat (Z.to_nat (fmt_size c)) = fmt_size c) as Hn
    by (destruct c; reflexivity).
  assert (0 < fmt_size c) as Hpos by (destruct c; reflexivity).
  assert (len (be_bytes (Z.to_nat (fmt_size c)) v) = fmt_size c) as Hl
    by (rewrite len_be_bytes; exact Hn).
  split; [exact Hl|]. split; [|split; assumption].
  unfold _unpack. rewrite Hl, Z.eqb_refl, be_unsigned_be_bytes, Hn.
  f_equal. apply to_signed_mod; [lia|split; assumption].
Qed.

Lemma pack_ok (c : fmt_char) (v : Z) :
  - 2 ^ (8 * fmt_size c - 1) <= v < 2 ^ (8 * fmt_size c - 1) ->
  _pack c v = Ok (be_bytes (Z.to_nat (fmt_size c)) v).
Proof.
  intros [Hlo Hhi]. unfold _pack, pack.
  destruct (Z.leb_spec (- 2 ^ (8 * fmt_size c - 1)) v); [|lia].
  destruct (Z.ltb_spec v (2 ^ (8 * fmt_size c - 1))); [|lia].
  reflexivity.
Qed.

Lemma lxor_bound (n a b : Z) :
  0 < n -> 0 <= a < 2 ^ n -> 0 <= b < 2 ^ n -> 0 <= Z.lxor a b < 2 ^ n.
Proof.
  intros Hn Ha Hb.
  assert (0 <= Z.lxor a b) as H0 by (apply Z.lxor_nonneg; lia).
  split; [exact H0|].
  destruct (Z.eq_dec (Z.lxor a b) 0) as [->|Hne]; [lia|].
  apply Z.log2_lt_pow2; [lia|].
  pose proof (Z.log2_lxor a b ltac:(lia) ltac:(lia)) as Hl.
  assert (forall x, 0 <= x < 2 ^ n -> Z.log2 x < n) as Hlog.
  { intros x Hx. destruct (Z.eq_dec x 0) as [->|]; [simpl; lia|].
    apply Z.log2_lt_pow2; lia. }
  pose proof (Hlog a Ha). pose proof (Hlog b Hb). lia.
Qed.

Lemma crc32_shift_range (c : Z) :
  0 <= c < 2 ^ 32 -> 0 <= crc32_shift c < 2 ^ 32.
Proof.
  intros Hc. unfold crc32_shift.
  assert (0 <= Z.shiftr c 1 < 2 ^ 31) as Hs.
  { rewrite Z.shiftr_div_pow2 by lia. change (2 ^ 1) with 2.
    split; [apply Z.div_pos; lia|].
    apply Z.div_lt_upper_bound; [lia|]. change (2 * 2 ^ 31) with (2 ^ 32). lia. }
  destruct (Z.testbit c 0).
  - apply lxor_bound; [lia| |cbv; split; congruence].
    change (2 ^ 32) with (2 * 2 ^ 31). lia.
  - change (2 ^ 32) with (2 * 2 ^ 31). lia.
Qed.

Lemma crc32_update_range (c : Z) (b : byte) :
  0 <= c < 2 ^ 32 -> 0 <= crc32_update c b < 2 ^ 32.
Proof.
  intros Hc. unfold crc32_update.
  assert (0 <= Z.lxor c (byte_to_Z b) < 2 ^ 32) as H.
  { apply lxor_bound; [lia|exact Hc|].
    pose proof (byte_to_Z_range b). change (2 ^ 32) with 4294967296. lia. }
  cbn [Nat.iter]. repeat apply crc32_shift_range. exact H.
Qed.

Lemma crc32_range (data : bytes) : - 2 ^ 31 <= crc32 data < 2 ^ 31.
Proof.
  assert (forall d c, 0 <= c < 2 ^ 32 ->
            0 <= fold_left crc32_update d c < 2 ^ 32) as Hfold.
  { induction d as [|x d IH]; intros c Hc; [exact Hc|].
    cbn [fold_left]. apply IH, crc32_update_range, Hc. }
  assert (0 <= binascii_crc32 data < 2 ^ 32) as H.
  { unfold binascii_crc32. apply lxor_bound; [lia| |cbv; split; congruence].
    apply Hfold. cbv; split; congruence. }
  unfold crc32. change (2 ^ 32) with (2 * 2 ^ 31) in *.
  destruct (Z.geb_spec (binascii_crc32 data) (2 ^ 31)); lia.
Qed.

End WireIntegers.

(* ===================================================================== *)
(** ** Reading the wire format back                                      *)
(* ===================================================================== *)

(** Taking a successful sequence of calls apart. *)
Ltac inv_bind H :=
  match type of H with
  | bind ?c _ = Ok _ =>
      let E := fresh "E" in
      destruct c eqn:E; cbn [bind] in H; try discriminate H
  end.

Section Streams.
Import Kafka LegacySpec.

Lemma unread_new (d : bytes) : unread (BytesIO_new d) = d.
Proof. reflexivity. Qed.

Lemma read_unread (s : BytesIO) (x r : bytes) :
  0 <= tell s -> unread s = x ++ r ->
  read s (len x) = (x, mkBytesIO (getvalue s) (tell s + len x)) /\
  unread (mkBytesIO (getvalue s) (tell s + len x)) = r.
Proof.
  unfold unread, read, slice. intros Ht Hu. cbn [tell getvalue].
  pose proof (len_nonneg x) as Hx.
  destruct (Z.ltb_spec (len x) 0) as [|_]; [lia|].
  replace (Z.to_nat (tell s + len x - tell s)) with (List.length x)
    by (unfold len; lia).
  rewrite Hu, firstn_app, firstn_all, Nat.sub_diag. cbn [firstn].
  rewrite app_nil_r. split; [reflexivity|].
  replace (Z.to_nat (tell s + len x)) with (List.length x + Z.to_nat (tell s))%nat
    by (unfold len; lia).
  rewrite <- skipn_skipn, Hu, skipn_app, skipn_all, Nat.sub_diag.
  reflexivity.
Qed.

Lemma decode_int_ok (c : fmt_char) (v : Z) (enc : bytes) (s : BytesIO) (r : bytes) :
  _pack c v = Ok enc -> 0 <= tell s -> unread s = enc ++ r ->
  exists s', decode_int c s = Ok (v, s') /\ 0 <= tell s' /\ unread s' = r.
Proof.
  intros Hp Ht Hu. destruct (unpack_pack c v enc Hp) as (Hl & Hun & _).
  destruct (read_unread s enc r Ht Hu) as [Hr Hu'].
  exists (mkBytesIO (getvalue s) (tell s + len enc)).
  unfold decode_int. rewrite <- Hl, Hr, Hun. cbn [bind].
  split; [reflexivity|]. split; [cbn; pose proof (len_nonneg enc); lia|].
  exact Hu'.
Qed.

Lemma Bytes_decode_ok (ov : option bytes) (enc : bytes) (s : BytesIO) (r : bytes) :
  Bytes_encode ov = Ok enc -> 0 <= tell s -> unread s = enc ++ r ->
  exists s', Bytes_decode s = Ok (ov, s') /\ 0 <= tell s' /\ unread s' = r.
Proof.
  intros He Ht Hu. unfold Bytes_encode in He. unfold Bytes_decode, Int32_decode.
  destruct ov as [v|].
  - unfold Int32_encode in He.
    destruct (_pack fmt_i (len v)) as [l| |] eqn:Hl; try discriminate.
    cbn [bind] in He. injection He as <-. rewrite <- app_assoc in Hu.
    destruct (decode_int_ok fmt_i (len v) l s (v ++ r) Hl Ht Hu)
      as (s1 & Hd & Ht1 & Hu1).
    rewrite Hd. cbn [bind].
    pose proof (len_nonneg v).
    destruct (Z.ltb_spec (len v) 0) as [|_]; [lia|].
    destruct (read_unread s1 v r Ht1 Hu1) as [Hr Hu2].
    rewrite Hr, Z.eqb_refl. cbn [negb].
    eexists. split; [reflexivity|]. split; [cbn; lia|exact Hu2].
  - destruct (decode_int_ok fmt_i (-1) enc s r He Ht Hu) as (s1 & Hd & Ht1 & Hu1).
    rewrite Hd. cbn [bind]. cbn. eexists. split; [reflexivity|]. split; assumption.
Qed.

Lemma encode_fields_inv (m : Message) (body : bytes) :
  encode_fields m = Ok body ->
  (magic m = 0 \/ magic m = 1) /\
  exists mg at_ ts k v,
    Int8_encode (magic m) = Ok mg /\ Int8_encode (attributes m) = Ok at_ /\
    (magic m = 1 -> exists t, timestamp m = Some t /\ Int64_encode t = Ok ts) /\
    (magic m = 0 -> ts = []) /\
    Bytes_encode (key m) = Ok k /\ Bytes_encode (value m) = Ok v /\
    body = mg ++ at_ ++ ts ++ k ++ v.
Proof.
  unfold encode_fields. intros H.
  destruct (Z.eqb_spec (magic m) 1) as [H1|H1].
  - split; [right; exact H1|].
    inv_bind H. inv_bind H. inv_bind H. inv_bind H. inv_bind H.
    injection H as <-.
    destruct (timestamp m) as [t|] eqn:Ets; [|discriminate].
    do 5 eexists. repeat (split; [eassumption || reflexivity|]).
    split; [intros _; exists t; split; [reflexivity|eassumption]|].
    split; [intros H0; lia|].
    repeat (split; [eassumption || reflexivity|]). reflexivity.
  - destruct (Z.eqb_spec (magic m) 0) as [H0|H0]; [|discriminate].
    split; [left; exact H0|].
    inv_bind H. inv_bind H. inv_bind H. inv_bind H.
    injection H as <-.
    exists a, a0, [], a1, a2.
    repeat (split; [eassumption || reflexivity|]).
    split; [intros; lia|].
    split; [reflexivity|].
    repeat (split; [eassumption || reflexivity|]). reflexivity.
Qed.

Lemma Message_encode_inv (m : Message) (enc : bytes) :
  Message_encode m = Ok enc ->
  exists c body,
    encode_fields m = Ok body /\ Int32_encode (crc32 body) = Ok c /\
    enc = c ++ body /\ len enc = 4 + len body.
Proof.
  unfold Message_encode. intros H.
  inv_bind H. inv_bind H. inv_bind H. injection H as <-.
  exists a1, a0. repeat split; try assumption.
  rewrite len_app. destruct (unpack_pack _ _ _ E1) as (Hl & _). rewrite Hl.
  reflexivity.
Qed.

(** Decoding the encoding of a message gives the message back, with the
    computed CRC in the CRC field. *)
Lemma Message_decode_encode (E : Env) (m : Message) (enc body : bytes) :
  Message_encode m = Ok enc -> encode_fields m = Ok body ->
  Message_decode E enc = Ok (decoded m body).
Proof.
  intros He Hb.
  destruct (Message_encode_inv m enc He) as (c & body' & Hb' & Hc & -> & _).
  rewrite Hb in Hb'. injection Hb' as <-.
  destruct (encode_fields_inv m body Hb)
    as (Hmagic & mg & at_ & ts & k & v & Hmg & Hat & Hts1 & Hts0 & Hk & Hv & ->).
  destruct (unpack_pack _ _ _ Hc) as (Hlc & _).
  unfold Message_decode, Int32_decode, Int8_decode, Int64_decode.
  replace (skipn 4 (c ++ mg ++ at_ ++ ts ++ k ++ v)) with (mg ++ at_ ++ ts ++ k ++ v).
  2:{ rewrite skipn_app. replace (4 - List.length c)%nat with 0%nat by (unfold len in Hlc; cbn in Hlc; lia).
      rewrite skipn_all2 by (unfold len in Hlc; cbn in Hlc; lia). reflexivity. }
  destruct (decode_int_ok fmt_i _ c (BytesIO_new (c ++ mg ++ at_ ++ ts ++ k ++ v))
              (mg ++ at_ ++ ts ++ k ++ v) Hc ltac:(cbn; lia) eq_refl)
    as (s1 & Hd1 & Ht1 & Hu1).
  rewrite Hd1. cbn [bind].
  destruct (decode_int_ok fmt_b _ mg s1 _ Hmg Ht1 Hu1) as (s2 & Hd2 & Ht2 & Hu2).
  rewrite Hd2. cbn [bind].
  destruct (decode_int_ok fmt_b _ at_ s2 _ Hat Ht2 Hu2) as (s3 & Hd3 & Ht3 & Hu3).
  rewrite Hd3. cbn [bind].
  unfold decoded.
  destruct Hmagic as [H0|H1].
  - rewrite (Hts0 H0) in *. cbn [app] in Hu3.
    rewrite H0. cbn [Z.eqb orb bind].
    destruct (Bytes_decode_ok _ k s3 _ Hk Ht3 Hu3) as (s4 & Hd4 & Ht4 & Hu4).
    rewrite Hd4. cbn [bind].
    destruct (Bytes_decode_ok _ v s4 [] Hv Ht4 ltac:(rewrite app_nil_r; exact Hu4))
      as (s5 & Hd5 & _ & _).
    rewrite Hd5. cbn [bind]. reflexivity.
  - destruct (Hts1 H1) as (t & Hts & Hte).
    rewrite H1. cbn [Z.eqb Pos.eqb orb bind].
    destruct (decode_int_ok fmt_q _ ts s3 _ Hte Ht3 Hu3) as (s4 & Hd4 & Ht4 & Hu4).
    rewrite Hd4. cbn [bind].
    destruct (Bytes_decode_ok _ k s4 _ Hk Ht4 Hu4) as (s5 & Hd5 & Ht5 & Hu5).
    rewrite Hd5. cbn [bind].
    destruct (Bytes_decode_ok _ v s5 [] Hv Ht5 ltac:(rewrite app_nil_r; exact Hu5))
      as (s6 & Hd6 & _ & _).
    rewrite Hd6. cbn [bind]. rewrite Hts. reflexivity.
Qed.

Lemma is_entry_len (E : Env) (it : Z * Z * Message) (bs : bytes) :
  is_entry E it bs -> 12 <= len bs /\ len bs = 12 + snd (fst it).
Proof.
  destruct it as [[offset size] msg]. intros (o & l & encoded & -> & -> & Ho & Hl & _).
  destruct (unpack_pack _ _ _ Ho) as (Hlo & _).
  destruct (unpack_pack _ _ _ Hl) as (Hll & _).
  rewrite !len_app, Hlo, Hll. cbn [fmt_size fst snd].
  pose proof (len_nonneg encoded). lia.
Qed.

Lemma decode_item_entry (E : Env) (it : Z * Z * Message) (bs r : bytes)
    (raw : BytesIO) (bytes_to_read : Z) :
  is_entry E it bs -> 0 <= tell raw -> unread raw = bs ++ r ->
  exists raw',
    decode_item E raw bytes_to_read =
      Ok (to_item it, raw', bytes_to_read - len bs) /\
    0 <= tell raw' /\ unread raw' = r.
Proof.
  intros Hent Ht Hu. pose proof (is_entry_len E it bs Hent) as [_ Hlen].
  destruct it as [[offset size] msg].
  destruct Hent as (o & l & encoded & -> & -> & Ho & Hl & Hm).
  cbn [fst snd] in Hlen.
  unfold decode_item, Int64_decode.
  rewrite <- !app_assoc in Hu.
  destruct (decode_int_ok fmt_q _ o raw _ Ho Ht Hu) as (s1 & Hd1 & Ht1 & Hu1).
  rewrite Hd1. cbn [bind].
  assert (Bytes_encode (Some encoded) = Ok (l ++ encoded)) as Hb
    by (unfold Bytes_encode; rewrite Hl; reflexivity).
  rewrite app_assoc in Hu1.
  destruct (Bytes_decode_ok _ _ s1 r Hb Ht1 Hu1) as (s2 & Hd2 & Ht2 & Hu2).
  rewrite Hd2. cbn [bind]. rewrite Hm. cbn [bind to_item].
  exists s2. split; [|split; assumption].
  repeat f_equal. lia.
Qed.

(** The decoding loop over a run of well-formed frames. *)
Lemma decode_loop_entries (E : Env) (its : list (Z * Z * Message)) :
  forall (bss : list bytes) (fuel : nat) (raw : BytesIO) (r : bytes)
         (acc : list item),
  Forall2 (is_entry E) its bss ->
  0 <= tell raw -> unread raw = List.concat bss ++ r ->
  (List.length its <= fuel)%nat ->
  decode_loop E fuel raw (len (List.concat bss)) acc =
  Ok (acc ++ map to_item its).
Proof.
  induction its as [|it its IH]; intros bss fuel raw r acc Hall Ht Hu Hfuel.
  - inversion Hall; subst. cbn. destruct fuel; cbn; rewrite app_nil_r; reflexivity.
  - inversion Hall as [|? bs ? bss' Hent Hrest]; subst.
    destruct fuel as [|fuel]; [cbn in Hfuel; lia|].
    pose proof (is_entry_len E it bs Hent) as [H12 _].
    cbn [List.concat] in *. rewrite len_app.
    pose proof (len_nonneg (List.concat bss')).
    cbn [decode_loop].
    destruct (Z.eqb_spec (len bs + len (List.concat bss')) 0) as [|_]; [lia|].
    rewrite <- app_assoc in Hu.
    destruct (decode_item_entry E it bs _ raw (len bs + len (List.concat bss'))
                Hent Ht Hu) as (raw' & Hd & Ht' & Hu').
    rewrite Hd.
    replace (len bs + len (List.concat bss') - len bs)
      with (len (List.concat bss')) by lia.
    rewrite (IH bss' fuel raw' r (acc ++ [to_item it]) Hrest Ht' Hu')
      by (cbn in Hfuel; lia).
    rewrite <- app_assoc. reflexivity.
Qed.

Lemma Forall2_length_le (E : Env) (its : list (Z * Z * Message)) (bss : list bytes) :
  Forall2 (is_entry E) its bss ->
  (List.length its <= List.length (List.concat bss))%nat.
Proof.
  induction 1 as [|it bs its bss Hent _ IH]; [cbn; lia|].
  apply is_entry_len in Hent as [H12 _].
  cbn. rewrite length_app. unfold len in H12. lia.
Qed.

(** [MessageSet.decode] of a length-prefixed run of frames read from a
    stream. *)
Lemma MessageSet_decode_stream (E : Env) (its : list (Z * Z * Message))
    (bss : list bytes) (size : bytes) (buffer : BytesIO) (r : bytes) :
  Forall2 (is_entry E) its bss ->
  Int32_encode (len (List.concat bss)) = Ok size ->
  0 <= tell buffer -> unread buffer = size ++ List.concat bss ++ r ->
  MessageSet_decode E buffer None = Ok (map to_item its).
Proof.
  intros Hall Hsize Ht Hu. unfold MessageSet_decode, Int32_decode.
  destruct (decode_int_ok fmt_i _ size buffer _ Hsize Ht Hu)
    as (s1 & Hd & Ht1 & Hu1).
  rewrite Hd. cbn [bind].
  destruct (read_unread s1 _ r Ht1 Hu1) as [Hr _].
  rewrite Hr. cbn [fst].
  rewrite (decode_loop_entries E its bss _ (BytesIO_new (List.concat bss)) [] [] Hall).
  - reflexivity.
  - cbn; lia.
  - rewrite unread_new, app_nil_r. reflexivity.
  - cbn [getvalue BytesIO_new]. pose proof (Forall2_length_le E its bss Hall). lia.
Qed.


(** *** The decoding loop always finishes *)

Lemma read_tell (s : BytesIO) (n : Z) :
  0 <= tell s <= len (getvalue s) ->
  getvalue (snd (read s n)) = getvalue s /\
  tell (snd (read s n)) = tell s + len (fst (read s n)) /\
  tell (snd (read s n)) <= len (getvalue s).
Proof.
  intros Ht. unfold read, slice. cbn [fst snd getvalue tell].
  split; [reflexivity|]. split; [reflexivity|].
  destruct (n <? 0); unfold len in *;
    rewrite ?length_firstn, length_skipn; lia.
Qed.

Lemma decode_int_tell (c : fmt_char) (s s' : BytesIO) (v : Z) :
  decode_int c s = Ok (v, s') -> 0 <= tell s <= len (getvalue s) ->
  getvalue s' = getvalue s /\ tell s' = tell s + fmt_size c /\
  tell s' <= len (getvalue s).
Proof.
  unfold decode_int. intros H Ht.
  destruct (read_tell s (fmt_size c) Ht) as (Hg & Htl & Hle).
  destruct (read s (fmt_size c)) as [got s1]. cbn [fst snd] in *.
  unfold _unpack in H. destruct (Z.eqb_spec (len got) (fmt_size c)) as [Hl|];
    [|discriminate].
  cbn [bind] in H. injection H as _ <-. rewrite <- Hl. auto.
Qed.

Lemma decode_int_finishes (c : fmt_char) (s : BytesIO) :
  decode_int c s <> OutOfFuel.
Proof.
  unfold decode_int, _unpack. destruct (read s (fmt_size c)) as [got s1].
  destruct (len got =? fmt_size c); discriminate.
Qed.

Lemma Bytes_decode_tell (s s' : BytesIO) (v : option bytes) :
  Bytes_decode s = Ok (v, s') -> 0 <= tell s <= len (getvalue s) ->
  getvalue s' = getvalue s /\ tell s + 4 <= tell s' <= len (getvalue s).
Proof.
  unfold Bytes_decode, Int32_decode. intros H Ht.
  destruct (decode_int fmt_i s) as [[length s1]| |] eqn:Hd;
    cbn [bind] in H; try discriminate.
  destruct (decode_int_tell _ _ _ _ Hd Ht) as (Hg1 & Ht1 & Hle1).
  cbn [fmt_size] in Ht1.
  destruct (length <? 0); [injection H as _ <-; split; [exact Hg1|lia]|].
  assert (0 <= tell s1 <= len (getvalue s1)) as Hs1 by (rewrite Hg1; lia).
  destruct (read_tell s1 length Hs1) as (Hg & Htl & Hle).
  destruct (read s1 length) as [value s2]. cbn [fst snd] in *.
  destruct (negb (len value =? length)); [discriminate|].
  injection H as _ <-. pose proof (len_nonneg value).
  split; [congruence|]. rewrite Hg1 in Hle. lia.
Qed.

Lemma Bytes_decode_finishes (s : BytesIO) : Bytes_decode s <> OutOfFuel.
Proof.
  unfold Bytes_decode, Int32_decode.
  pose proof (decode_int_finishes fmt_i s) as H.
  destruct (decode_int fmt_i s) as [[length s1]| |]; cbn [bind];
    [|discriminate|congruence].
  destruct (length <? 0); [discriminate|].
  destruct (read s1 length) as [value s2].
  destruct (negb (len value =? length)); discriminate.
Qed.

Lemma Message_decode_finishes (E : Env) (data : bytes) :
  Message_decode E data <> OutOfFuel.
Proof.
  unfold Message_decode, Int32_decode, Int8_decode, Int64_decode.
  repeat match goal with
  | |- context [decode_int ?c ?s] =>
      let H := fresh in
      pose proof (decode_int_finishes c s) as H;
      destruct (decode_int c s) as [[? ?]| |]; cbn [bind];
      [clear H|discriminate|congruence]
  | |- context [Bytes_decode ?s] =>
      let H := fresh in
      pose proof (Bytes_decode_finishes s) as H;
      destruct (Bytes_decode s) as [[? ?]| |]; cbn [bind];
      [clear H|discriminate|congruence]
  | |- context [if ?b then _ else _] => destruct b; cbn [bind]
  | |- context [Message_init ?a ?b ?c ?d ?e ?f ?g] =>
      unfold Message_init
  | |- _ => discriminate
  end.
Qed.

Lemma decode_item_tell (E : Env) (raw raw' : BytesIO) (n n' : Z) (it : item) :
  decode_item E raw n = Ok (it, raw', n') ->
  0 <= tell raw <= len (getvalue raw) ->
  getvalue raw' = getvalue raw /\
  tell raw + 12 <= tell raw' <= len (getvalue raw).
Proof.
  unfold decode_item, Int64_decode. intros H Ht.
  destruct (decode_int fmt_q raw) as [[offset s1]| |] eqn:Hd;
    cbn [bind] in H; try discriminate.
  destruct (decode_int_tell _ _ _ _ Hd Ht) as (Hg1 & Ht1 & Hle1).
  cbn [fmt_size] in Ht1.
  destruct (Bytes_decode s1) as [[mb s2]| |] eqn:Hb;
    cbn [bind] in H; try discriminate.
  destruct (Bytes_decode_tell _ _ _ Hb ltac:(rewrite Hg1; lia)) as (Hg2 & Ht2).
  destruct mb as [mb|]; [|discriminate].
  destruct (Message_decode E mb); cbn [bind] in H; try discriminate.
  injection H as _ <- _. split; [congruence|]. rewrite Hg1 in Ht2. lia.
Qed.

Lemma decode_item_finishes (E : Env) (raw : BytesIO) (n : Z) :
  decode_item E raw n <> OutOfFuel.
Proof.
  unfold decode_item, Int64_decode.
  pose proof (decode_int_finishes fmt_q raw) as H.
  destruct (decode_int fmt_q raw) as [[offset s1]| |]; cbn [bind];
    [clear H|discriminate|congruence].
  pose proof (Bytes_decode_finishes s1) as H.
  destruct (Bytes_decode s1) as [[[mb|] s2]| |]; cbn [bind];
    try discriminate; try congruence.
  pose proof (Message_decode_finishes E mb) as H'.
  destruct (Message_decode E mb); cbn [bind]; try discriminate; congruence.
Qed.

Lemma decode_loop_finishes (E : Env) (fuel : nat) :
  forall (raw : BytesIO) (n : Z) (items : list item),
  0 <= tell raw <= len (getvalue raw) ->
  len (getvalue raw) - tell raw < Z.of_nat fuel ->
  decode_loop E fuel raw n items <> OutOfFuel.
Proof.
  induction fuel as [|fuel IH]; intros raw n items Ht Hf; [cbn in Hf; lia|].
  cbn [decode_loop]. destruct (n =? 0); [discriminate|].
  pose proof (decode_item_finishes E raw n) as Hfin.
  destruct (decode_item E raw n) as [[[it raw'] n']|e|] eqn:Hd;
    [|destruct (issubclass (exn_class e) ValueError); discriminate|congruence].
  destruct (decode_item_tell E _ _ _ _ _ Hd Ht) as (Hg & Hlo & Hhi).
  apply IH; rewrite Hg; lia.
Qed.

(** Building a reader never runs out of fuel, whatever the buffer holds. *)
Lemma MessageSet_decode_finishes (E : Env) (data : BytesIO)
    (bytes_to_read : option Z) :
  MessageSet_decode E data bytes_to_read <> OutOfFuel.
Proof.
  unfold MessageSet_decode, Int32_decode.
  assert (forall n d, decode_loop E (S (List.length (getvalue (BytesIO_new d))))
                        (BytesIO_new d) n [] <> OutOfFuel) as Hloop.
  { intros n d. apply decode_loop_finishes; cbn [BytesIO_new getvalue tell].
    - pose proof (len_nonneg d). lia.
    - unfold len. lia. }
  destruct bytes_to_read as [n|]; cbn [bind]; [apply Hloop|].
  pose proof (decode_int_finishes fmt_i data) as H.
  destruct (decode_int fmt_i data) as [[n s1]| |]; cbn [bind];
    [apply Hloop|discriminate|congruence].
Qed.

End Streams.

(* ===================================================================== *)
(** ** The legacy writer                                                 *)
(* ===================================================================== *)

Section Writer.
Import Kafka LegacySpec LegacyRecordBatchWriter.

Lemma write_at_end (f : BytesIO) (b : bytes) :
  tell f = len (getvalue f) ->
  write f b = mkBytesIO (getvalue f ++ b) (tell f + len b).
Proof.
  intros Ht. unfold write. f_equal.
  rewrite Ht. unfold len. rewrite Nat2Z.id, firstn_all, Nat.sub_diag.
  rewrite skipn_all2 by lia. cbn [repeat app]. rewrite app_nil_r. reflexivity.
Qed.

Lemma write_at_start (d b : bytes) (p : Z) :
  len b <= len d ->
  write (seek (mkBytesIO d p) 0) b =
  mkBytesIO (b ++ skipn (List.length b) d) (len b).
Proof.
  intros Hl. unfold write, seek. cbn [tell getvalue Z.to_nat firstn Nat.sub repeat app Nat.add].
  reflexivity.
Qed.

Lemma init_inv (magic compression_type batch_size : Z) (w : t) :
  __init__ magic compression_type batch_size = Ok w ->
  writer_inv w /\ _magic w = magic /\ _compression_type w = compression_type /\
  _batch_size w = batch_size /\ _first_message w = true /\ region w = [].
Proof.
  unfold __init__. intros H. vm_compute in H. injection H as <-.
  unfold writer_inv, region. cbn.
  repeat split; try reflexivity; intro; discriminate.
Qed.

(** [append] with empty headers on a writer that is not full is the write
    of the record's frame at the end of the buffer. *)
Lemma append_not_full (E : Env) (w : t) (r : record)
    (headers : option (list header)) :
  writer_inv w -> headers = None \/ headers = Some [] ->
  _is_full w (r_key r) (r_value r) = false ->
  append E w (r_offset r) (r_timestamp r) (r_key r) (r_value r) headers =
  (bs <- entry_of E (_magic w) r ;;
   Ok (with_buffer w (mkBytesIO (getvalue (_buffer w) ++ bs)
                                (tell (_buffer w) + len bs)) false, true)).
Proof.
  intros [Ht _] Hh Hfull. unfold append, entry_of, message_of. rewrite Hfull.
  assert (forall X Y, match headers with
                      | Some (_ :: _) => X
                      | _ => Y
                      end = Y :> result (t * bool)) as Hm
    by (intros; destruct Hh as [-> | ->]; reflexivity).
  rewrite Hm.
  destruct (if _magic w =? 0 then _ else _) as [msg| |]; cbn [bind]; try reflexivity.
  destruct (Message_encode msg) as [encoded| |]; cbn [bind]; try reflexivity.
  destruct (Int64_encode (r_offset r)) as [o| |]; cbn [bind]; try reflexivity.
  destruct (Int32_encode (len encoded)) as [l| |]; cbn [bind]; try reflexivity.
  rewrite (write_at_end _ (o ++ l)) by exact Ht.
  rewrite write_at_end by (cbn; rewrite !len_app in *; lia).
  cbn [getvalue tell]. unfold with_buffer.
  rewrite <- !app_assoc, !len_app.
  replace (tell (_buffer w) + (len o + len l) + len encoded)
    with (tell (_buffer w) + (len o + (len l + len encoded))) by lia.
  reflexivity.
Qed.

Lemma append_full (E : Env) (w : t) (offset : Z) (timestamp : option Z)
    (key value : option bytes) (headers : option (list header)) :
  headers = None \/ headers = Some [] ->
  _is_full w key value = true ->
  append E w offset timestamp key value headers = Ok (w, false).
Proof.
  intros Hh Hfull. unfold append. rewrite Hfull.
  destruct Hh as [-> | ->]; reflexivity.
Qed.

Lemma append_headers (E : Env) (w : t) (offset : Z) (timestamp : option Z)
    (key value : option bytes) (h : header) (hs : list header) :
  append E w offset timestamp key value (Some (h :: hs)) =
  raise AssertionError "Headers not supported in v0/v1".
Proof. reflexivity. Qed.

Lemma is_full_spec (w : t) (key value : option bytes) :
  _is_full w key value = true <->
  _first_message w = false /\
  tell (_buffer w) + worst_case_size key value > _batch_size w.
Proof.
  unfold _is_full, worst_case_size.
  destruct (_first_message w).
  - split; [discriminate|intros [? _]; discriminate].
  - rewrite Z.gtb_ltb, Z.ltb_lt. split; [intros; split; [reflexivity|lia]|intros [_ ?]; lia].
Qed.

(** Every step of the writer keeps the invariant and the parameters. *)
Lemma append_inv (E : Env) (w w' : t) (offset : Z) (timestamp : option Z)
    (key value : option bytes) (headers : option (list header)) (ok : bool) :
  writer_inv w ->
  append E w offset timestamp key value headers = Ok (w', ok) ->
  writer_inv w' /\ _magic w' = _magic w /\
  _compression_type w' = _compression_type w /\ _batch_size w' = _batch_size w.
Proof.
  intros Hinv H.
  destruct headers as [[|h hs]|]; [| discriminate H |].
  all: destruct (_is_full w key value) eqn:Hfull;
    [ rewrite append_full in H by auto; injection H as <- <-; auto
    | rewrite (append_not_full E w (mkRecord offset timestamp key value)) in H
        by auto;
      inv_bind H; injection H as <- <-; destruct Hinv as [Ht H4];
      unfold writer_inv; cbn; rewrite len_app; pose proof (len_nonneg a);
      repeat split; lia ].
Qed.

(** [append_self] agrees with [append] on what the call returns. *)
Lemma append_self_result (E : Env) (w : t) (offset : Z) (timestamp : option Z)
    (key value : option bytes) (headers : option (list header)) :
  append E w offset timestamp key value headers =
  match append_self E w offset timestamp key value headers with
  | (w', Ok ok) => Ok (w', ok)
  | (_, Raise e) => Raise e
  | (_, OutOfFuel) => OutOfFuel
  end.
Proof.
  unfold append, append_self.
  destruct headers as [[|h hs]|]; try reflexivity.
  all: destruct (_is_full w key value); [reflexivity|];
    cbn [_magic _compression_type _batch_size _buffer];
    destruct (if _magic w =? 0 then _ else _) as [msg| |]; cbn [bind];
      try reflexivity;
    destruct (Message_encode msg) as [encoded| |]; cbn [bind]; try reflexivity;
    destruct (Int64_encode offset) as [o| |]; cbn [bind]; try reflexivity;
    destruct (Int32_encode (len encoded)) as [l| |]; reflexivity.
Qed.

(** A call of [append] that raised left the buffer and the parameters as
    they were; past the assertion on the headers it cleared the flag. *)
Lemma append_self_raised (E : Env) (w w' : t) (offset : Z)
    (timestamp : option Z) (key value : option bytes)
    (headers : option (list header)) (e : exn) :
  append_self E w offset timestamp key value headers = (w', Raise e) ->
  _buffer w' = _buffer w /\ _magic w' = _magic w /\
  _compression_type w' = _compression_type w /\
  _batch_size w' = _batch_size w /\
  (w' = w \/ _first_message w' = false).
Proof.
  unfold append_self. intros H.
  destruct headers as [[|h hs]|];
    [| injection H as <- _; repeat split; left; reflexivity |].
  all: destruct (_is_full w key value); [discriminate H|];
    match type of H with
    | match ?c with _ => _ end = _ =>
        destruct c as [[msg encoded]| |]; [discriminate H| |discriminate H]
    end;
    injection H as <- _; cbn; repeat split; right; reflexivity.
Qed.

Lemma writer_state_inv (E : Env) (w : t) : writer_state E w -> writer_inv w.
Proof.
  induction 1 as [? ? ? w Hi | w ? ? ? ? ? w' ok _ IH Ha
                 | w ? ? ? ? ? w' e _ IH Ha].
  - apply init_inv in Hi. tauto.
  - eapply append_inv in Ha; [tauto|exact IH].
  - apply append_self_raised in Ha as (Hb & _).
    unfold writer_inv in *. rewrite Hb. exact IH.
Qed.

Lemma Int8_encode_ok (v : Z) :
  - 2 ^ 7 <= v < 2 ^ 7 -> Int8_encode v = Ok (be_bytes 1 v).
Proof. intros H. apply (pack_ok fmt_b). exact H. Qed.

Lemma Int32_encode_ok (v : Z) :
  - 2 ^ 31 <= v < 2 ^ 31 -> Int32_encode v = Ok (be_bytes 4 v).
Proof. intros H. apply (pack_ok fmt_i). exact H. Qed.

Lemma Int64_encode_ok (v : Z) :
  - 2 ^ 63 <= v < 2 ^ 63 -> Int64_encode v = Ok (be_bytes 8 v).
Proof. intros H. apply (pack_ok fmt_q). exact H. Qed.

Lemma Bytes_encode_ok (ov : option bytes) :
  olen ov < 2 ^ 31 ->
  exists enc, Bytes_encode ov = Ok enc /\ len enc = 4 + olen ov.
Proof.
  intros H. destruct ov as [v|]; cbn [olen Bytes_encode] in *.
  - pose proof (len_nonneg v).
    rewrite Int32_encode_ok by lia. cbn [bind].
    eexists. split; [reflexivity|]. rewrite len_app, len_be_bytes. lia.
  - rewrite Int32_encode_ok by lia. eexists. split; [reflexivity|].
    rewrite len_be_bytes. lia.
Qed.

Lemma olen_nonneg (ov : option bytes) : 0 <= olen ov.
Proof. destruct ov; cbn; [apply len_nonneg|lia]. Qed.

(** A record that fits the wire format has a frame. *)
Lemma encodable_entry (E : Env) (magic : Z) (r : record) :
  encodable E magic r -> exists bs, entry_of E magic r = Ok bs.
Proof.
  intros (Hmagic & Hoff & Hts & Hsize).
  pose proof (olen_nonneg (r_key r)). pose proof (olen_nonneg (r_value r)).
  destruct (Bytes_encode_ok (r_key r) ltac:(lia)) as (k & Hk & Hlk).
  destruct (Bytes_encode_ok (r_value r) ltac:(lia)) as (v & Hv & Hlv).
  unfold entry_of, message_of, Message_encode, encode_fields.
  destruct Hmagic as [-> | ->].
  - cbn [Z.eqb Message_init Z.gtb Z.compare orb negb bind magic attributes
         crc key value timestamp].
    rewrite (Int32_encode_ok 0), (Int8_encode_ok 0) by lia. cbn [bind].
    rewrite Hk, Hv. cbn [bind].
    rewrite Int32_encode_ok by apply crc32_range. cbn [bind].
    rewrite Int64_encode_ok by exact Hoff. cbn [bind].
    rewrite Int32_encode_ok; [cbn [bind]; eexists; reflexivity|].
    rewrite !len_app, !len_be_bytes, Hlk, Hlv. lia.
  - specialize (Hts eq_refl).
    assert (Message_init E (r_value r) (r_key r) 1 0 0 (r_timestamp r) =
            Ok (mkMessage 0 1 0
                  (Some match r_timestamp r with Some t => t | None => time_ms E end)
                  (r_key r) (r_value r) None)) as Hinit
      by (unfold Message_init; destruct (r_timestamp r); reflexivity).
    cbn [Z.eqb Pos.eqb]. rewrite Hinit.
    cbn [bind magic attributes crc key value timestamp Z.eqb Pos.eqb].
    rewrite (Int32_encode_ok 0), (Int8_encode_ok 0), (Int8_encode_ok 1) by lia.
    cbn [bind].
    rewrite Int64_encode_ok by exact Hts. cbn [bind].
    rewrite Hk, Hv. cbn [bind].
    rewrite Int32_encode_ok by apply crc32_range. cbn [bind].
    rewrite Int64_encode_ok by exact Hoff. cbn [bind].
    rewrite Int32_encode_ok; [cbn [bind]; eexists; reflexivity|].
    rewrite !len_app, !len_be_bytes, Hlk, Hlv. lia.
Qed.

(** C5: on a writer reached by appends alone and with empty headers,
    [append] returns false and leaves the writer as it was exactly when this
    is not the first record and the buffer size plus the worst-case record
    size (12 + 22 + the lengths of the non-null key and value) exceeds
    [batch_size]; in particular the first record is never refused; in every
    other case a record that fits the wire format is written at the end of
    the buffer and [append] returns true. *)
Theorem C5_append_policy (E : Env) (w : t) (r : record)
    (headers : option (list header)) :
  writer_state E w -> headers = None \/ headers = Some [] ->
  let size := len (getvalue (_buffer w)) in
  let full := _first_message w = false /\
              size + (12 + 22 + olen (r_key r) + olen (r_value r))
                > _batch_size w in
  let call := append E w (r_offset r) (r_timestamp r) (r_key r) (r_value r)
                     headers in
  (full -> call = Ok (w, false)) /\
  (forall w', call = Ok (w', false) -> full /\ w' = w) /\
  (_first_message w = true -> ~ full) /\
  (~ full -> encodable E (_magic w) r ->
   exists bs,
     entry_of E (_magic w) r = Ok bs /\
     call = Ok (with_buffer w (mkBytesIO (getvalue (_buffer w) ++ bs)
                                         (size + len bs)) false, true)).
Proof.
  intros Hw Hh size full call.
  pose proof (writer_state_inv E w Hw) as Hinv. destruct (Hinv) as [Ht _].
  assert (_is_full w (r_key r) (r_value r) = true <-> full) as Hfull.
  { rewrite is_full_spec. unfold full, size, worst_case_size,
      MessageSet_HEADER_SIZE, Message_HEADER_SIZE. rewrite Ht. tauto. }
  split; [|split; [|split]].
  - intros Hf. apply append_full; [exact Hh|apply Hfull, Hf].
  - intros w' Hc. destruct (_is_full w (r_key r) (r_value r)) eqn:Hisf.
    + split; [apply Hfull; reflexivity|].
      subst call. rewrite append_full in Hc by auto. congruence.
    + subst call. rewrite append_not_full in Hc by auto.
      inv_bind Hc.
  - intros Hfirst [Hne _]. congruence.
  - intros Hnf Henc.
    destruct (encodable_entry E _ r Henc) as [bs Hbs].
    exists bs. split; [exact Hbs|].
    subst call. rewrite append_not_full; auto.
    + rewrite Hbs. cbn [bind]. subst size. rewrite Ht. reflexivity.
    + destruct (_is_full w (r_key r) (r_value r)) eqn:Hisf; [|reflexivity].
      exfalso. apply Hnf, Hfull. reflexivity.
Qed.

Lemma setslice_mid (a x r src : bytes) :
  len src = len x ->
  setslice (a ++ x ++ r) (len a) (len a + len x) src = Ok (a ++ src ++ r).
Proof.
  intros Hl. unfold setslice.
  pose proof (len_nonneg a); pose proof (len_nonneg x); pose proof (len_nonneg r).
  rewrite !len_app.
  destruct (Z.leb_spec 0 (len a)); [|lia].
  destruct (Z.leb_spec (len a) (len a + len x)); [|lia].
  destruct (Z.leb_spec (len a + len x) (len a + (len x + len r))); [|lia].
  destruct (Z.eqb_spec (len src) (len a + len x - len a)); [|lia].
  cbn [andb]. f_equal. f_equal.
  - unfold len. rewrite Nat2Z.id, firstn_app, firstn_all, Nat.sub_diag.
    cbn. apply app_nil_r.
  - f_equal. replace (Z.to_nat (len a + len x))
      with (List.length a + List.length x)%nat by (unfold len; lia).
    rewrite app_assoc, skipn_app, skipn_all2 by (rewrite length_app; lia).
    rewrite length_app.
    replace (_ - _)%nat with 0%nat by lia. reflexivity.
Qed.

Lemma split_at (d : bytes) (n : Z) :
  0 <= n <= len d -> exists x r, d = x ++ r /\ len x = n.
Proof.
  intros H. exists (firstn (Z.to_nat n) d), (skipn (Z.to_nat n) d).
  split; [symmetry; apply firstn_skipn|].
  unfold len in *. rewrite length_firstn. lia.
Qed.

(** [_maybe_compress] with a compression type configured: the wrapper is
    built and, when it is smaller, written over the records region. *)
Lemma maybe_compress_spec (E : Env) (w : t) :
  writer_inv w -> _compression_type w <> 0 ->
  _maybe_compress E w =
  ('(compressed, msg, encoded) <- wrapper_of E w ;;
   if len encoded + 12 <? len (region w) then
     l <- Int32_encode (len encoded) ;;
     Ok (with_buffer w
           (mkBytesIO (firstn 4 (getvalue (_buffer w))
                         ++ be_bytes 8 0 ++ l ++ encoded)
                      (16 + len encoded))
           (_first_message w), true)
   else Ok (w, false)).
Proof.
  intros [Ht H4] Hct. unfold _maybe_compress, wrapper_of, region.
  destruct (Z.eqb_spec (_compression_type w) 0) as [|_]; [contradiction|].
  cbn [negb].
  set (data := skipn 4 (getvalue (_buffer w))).
  destruct (compress E w data) as [compressed| |]; cbn [bind]; try reflexivity.
  destruct (Message_init E (Some compressed) None (_magic w)
              (_compression_type w) 0 None) as [msg| |];
    cbn [bind]; try reflexivity.
  destruct (Message_encode msg) as [encoded| |] eqn:Henc;
    cbn [bind]; try reflexivity.
  destruct (Z.ltb_spec (len encoded + 12) (len data)) as [Hlt|]; [|reflexivity].
  pose proof (len_nonneg encoded) as Hn.
  rewrite (Int64_encode_ok 0) by lia. cbn [bind].
  destruct (split_at data 8 ltac:(lia)) as (p8 & d8 & Hd8 & Hl8).
  assert (len d8 = len data - 8) as Hld8
    by (rewrite Hd8, len_app; lia).
  destruct (split_at d8 4 ltac:(lia)) as (p4 & d4 & Hd4 & Hl4).
  assert (len d4 = len data - 12) as Hld4
    by (rewrite Hd4, len_app in Hld8; lia).
  destruct (split_at d4 (len encoded) ltac:(lia)) as (pn & rest & Hdn & Hln).
  rewrite Hd8, Hd4, Hdn.
  pose proof (setslice_mid [] p8 (p4 ++ pn ++ rest) (be_bytes 8 0)) as S1.
  rewrite len_be_bytes, Hl8 in S1. cbn [app] in S1.
  change (len []) with 0 in S1. change (0 + 8) with 8 in S1.
  rewrite (S1 eq_refl). cbn [bind]. clear S1.
  destruct (Int32_encode (len encoded)) as [l| |] eqn:Hl; cbn [bind]; try reflexivity.
  destruct (unpack_pack _ _ _ Hl) as (Hll & _). cbn [fmt_size] in Hll.
  pose proof (setslice_mid (be_bytes 8 0) p4 (pn ++ rest) l) as S2.
  rewrite len_be_bytes, Hl4 in S2.
  change (Z.of_nat 8) with 8 in S2. change (8 + 4) with 12 in S2.
  rewrite (S2 Hll). cbn [bind]. clear S2.
  pose proof (setslice_mid (be_bytes 8 0 ++ l) pn rest encoded) as S3.
  rewrite len_app, len_be_bytes, Hll, Hln in S3.
  change (Z.of_nat 8 + 4) with 12 in S3.
  rewrite <- !app_assoc in S3.
  rewrite (S3 eq_refl). cbn [bind]. clear S3.
  unfold with_buffer, truncate, seek. cbn [tell getvalue].
  do 3 f_equal. f_equal.
  assert (len (firstn 4 (getvalue (_buffer w))) = 4) as Hf4.
  { unfold len in *. rewrite length_firstn. lia. }
  replace (Z.to_nat (16 + len encoded))
    with (List.length (firstn 4 (getvalue (_buffer w)) ++ be_bytes 8 0 ++ l ++ encoded) + 0)%nat.
  2:{ unfold len in *. rewrite !length_app, length_be_bytes. lia. }
  rewrite !app_assoc, firstn_app_2. cbn [firstn]. rewrite app_nil_r.
  rewrite <- !app_assoc. reflexivity.
Qed.

Lemma maybe_compress_none (E : Env) (w : t) :
  _compression_type w = 0 -> _maybe_compress E w = Ok (w, false).
Proof. intros H. unfold _maybe_compress. rewrite H. reflexivity. Qed.

Lemma Message_init_fields (E : Env) (value key : option bytes)
    (magic attributes crc : Z) (timestamp : option Z) (m : Message) :
  Message_init E value key magic attributes crc timestamp = Ok m ->
  Kafka.value m = value /\ Kafka.key m = key /\ Kafka.magic m = magic /\
  Kafka.attributes m = attributes /\ Kafka.crc m = crc.
Proof.
  unfold Message_init. destruct (negb _); [discriminate|].
  intros [= <-]. repeat split.
Qed.

Lemma close_unfold (E : Env) (w : t) :
  close E w = (p <- _maybe_compress E w ;; write_size (fst p)).
Proof.
  unfold close. destruct (_maybe_compress E w) as [[w1 flag]| |]; reflexivity.
Qed.

(** The last step of [close] on a writer whose position is at the end. *)
Lemma close_finish (w1 : t) :
  writer_inv w1 ->
  write_size w1 =
  (size <- Int32_encode (len (region w1)) ;;
   Ok (with_buffer w1 (mkBytesIO (size ++ region w1) 0) (_first_message w1),
       mkBytesIO (size ++ region w1) 0)).
Proof.
  intros [Ht H4]. unfold write_size. cbv zeta.
  assert (len (region w1) = tell (_buffer w1) - 4) as Hr.
  { unfold region, len in *. rewrite length_skipn. lia. }
  rewrite Hr.
  destruct (Int32_encode (tell (_buffer w1) - 4)) as [size| |] eqn:Hs;
    cbn [bind]; try reflexivity.
  destruct (unpack_pack _ _ _ Hs) as (Hl & _). cbn [fmt_size] in Hl.
  destruct (_buffer w1) as [d p] eqn:Hb. cbn [getvalue tell] in *.
  rewrite write_at_start by lia.
  unfold with_buffer, seek, region. rewrite Hb. cbn [getvalue tell].
  replace (List.length size) with 4%nat by (unfold len in Hl; lia).
  reflexivity.
Qed.

(** What [close] returns, in terms of what [_maybe_compress] did. *)
Lemma close_spec (E : Env) (w w' : t) (buf : BytesIO) :
  writer_inv w -> close E w = Ok (w', buf) ->
  exists size payload,
    Int32_encode (len payload) = Ok size /\ buf = mkBytesIO (size ++ payload) 0 /\
    ((_compression_type w = 0 /\ payload = region w) \/
     (_compression_type w <> 0 /\
      exists compressed wrapper encoded,
        wrapper_of E w = Ok (compressed, wrapper, encoded) /\
        ((len encoded + 12 < len (region w) /\
          exists l, Int32_encode (len encoded) = Ok l /\
                    payload = be_bytes 8 0 ++ l ++ encoded) \/
         (len (region w) <= len encoded + 12 /\ payload = region w)))).
Proof.
  intros Hinv Hc. rewrite close_unfold in Hc.
  destruct (Z.eq_dec (_compression_type w) 0) as [H0|Hct].
  - rewrite maybe_compress_none in Hc by exact H0. cbn [bind fst] in Hc.
    rewrite (close_finish w Hinv) in Hc. inv_bind Hc. injection Hc as <- <-.
    exists a, (region w). split; [exact E0|]. split; [reflexivity|].
    left. split; [exact H0|reflexivity].
  - rewrite maybe_compress_spec in Hc by assumption.
    destruct (wrapper_of E w) as [[[compressed wrapper] encoded]| |] eqn:Hw;
      cbn [bind] in Hc; try discriminate.
    destruct (Z.ltb_spec (len encoded + 12) (len (region w))) as [Hlt|Hge];
      cbn [bind fst] in Hc.
    + destruct (Int32_encode (len encoded)) as [l| |] eqn:Hl;
        cbn [bind fst] in Hc; try discriminate.
      destruct (unpack_pack _ _ _ Hl) as (Hll & _). cbn [fmt_size] in Hll.
      destruct Hinv as [Ht H4].
      assert (len (firstn 4 (getvalue (_buffer w))) = 4) as Hf4.
      { unfold len in *. rewrite length_firstn. lia. }
      set (w1 := with_buffer w _ _) in Hc.
      assert (writer_inv w1) as Hinv1.
      { unfold writer_inv, w1. cbn [with_buffer _buffer getvalue tell].
        rewrite !len_app, Hf4, len_be_bytes, Hll.
        pose proof (len_nonneg encoded). lia. }
      assert (region w1 = be_bytes 8 0 ++ l ++ encoded) as Hreg.
      { unfold region, w1. cbn [with_buffer _buffer getvalue].
        rewrite skipn_app, skipn_all2 by (unfold len in Hf4; lia).
        replace (4 - _)%nat with 0%nat by (unfold len in Hf4; lia).
        reflexivity. }
      rewrite (close_finish w1 Hinv1) in Hc. inv_bind Hc. injection Hc as <- <-.
      rewrite Hreg in *.
      exists a, (be_bytes 8 0 ++ l ++ encoded).
      split; [exact E0|]. split; [reflexivity|].
      right. split; [exact Hct|]. exists compressed, wrapper, encoded.
      split; [reflexivity|]. left. split; [exact Hlt|]. exists l. auto.
    + rewrite (close_finish w Hinv) in Hc. inv_bind Hc. injection Hc as <- <-.
      exists a, (region w). split; [exact E0|]. split; [reflexivity|].
      right. split; [exact Hct|]. exists compressed, wrapper, encoded.
      split; [reflexivity|]. right. split; [lia|reflexivity].
Qed.

(** The wrapper written by [_maybe_compress] is a well-formed frame with
    offset 0; decoding it gives back the compressed bytes as value and the
    compression type as attributes. *)
Lemma wrapper_entry (E : Env) (w : t) (compressed : bytes) (wrapper : Message)
    (encoded l : bytes) :
  wrapper_of E w = Ok (compressed, wrapper, encoded) ->
  Int32_encode (len encoded) = Ok l ->
  exists m,
    is_entry E (0, len encoded, m) (be_bytes 8 0 ++ l ++ encoded) /\
    value m = Some compressed /\ attributes m = _compression_type w /\
    magic m = _magic w /\ (magic m = 0 \/ magic m = 1) /\
    value wrapper = Some compressed /\
    attributes wrapper = _compression_type w.
Proof.
  unfold wrapper_of. intros Hw Hl.
  inv_bind Hw. inv_bind Hw. inv_bind Hw. injection Hw as <- <- <-.
  destruct (Message_init_fields _ _ _ _ _ _ _ _ E1) as (Hv & Hk & Hm & Ha & Hc).
  destruct (Message_encode_inv _ _ E2) as (c & body & Hb & _).
  destruct (encode_fields_inv _ _ Hb) as (Hmagic & _).
  exists (decoded a0 body). unfold decoded. cbn [value attributes magic].
  split; [|rewrite <- Hm; auto 10].
  exists (be_bytes 8 0), l, a1.
  split; [reflexivity|]. split; [reflexivity|].
  split; [apply Int64_encode_ok; lia|]. split; [exact Hl|].
  apply Message_decode_encode; assumption.
Qed.

Lemma Bytes_encode_len (ov : option bytes) (enc : bytes) :
  Bytes_encode ov = Ok enc -> len enc = 4 + olen ov.
Proof.
  unfold Bytes_encode. destruct ov as [v|]; intros H.
  - inv_bind H. injection H as <-.
    destruct (unpack_pack _ _ _ E) as (Hl & _). cbn [fmt_size] in Hl.
    rewrite len_app, Hl. reflexivity.
  - destruct (unpack_pack _ _ _ H) as (Hl & _). exact Hl.
Qed.

(** The wrapper [_maybe_compress] builds holds the output of the configured
    codec on the records region, no key, the compression code as attributes
    and the writer's magic; its encoding is 14 bytes of fields (22 at
    magic 1) and the compressed bytes. *)
Lemma wrapper_of_codec (E : Env) (w : t) (compressed : bytes)
    (wrapper : Message) (encoded : bytes) :
  wrapper_of E w = Ok (compressed, wrapper, encoded) ->
  (_compression_type w = CODEC_GZIP /\ compressed = gzip_encode E (region w) \/
   _compression_type w = CODEC_SNAPPY /\
     compressed = snappy_encode E (region w) \/
   _compression_type w = CODEC_LZ4 /\
     compressed = if _magic w =? 0 then lz4_encode_old_kafka E (region w)
                  else lz4_encode E (region w)) /\
  key wrapper = None /\ magic wrapper = _magic w /\
  Message_encode wrapper = Ok encoded /\
  len encoded = 14 + (if _magic w =? 1 then 8 else 0) + len compressed.
Proof.
  unfold wrapper_of. intros Hw.
  inv_bind Hw. inv_bind Hw. inv_bind Hw. injection Hw as <- <- <-.
  rename a into compressed, a0 into wrapper, a1 into encoded.
  destruct (Message_init_fields _ _ _ _ _ _ _ _ E1) as (Hv & Hk & Hm & _ & _).
  split.
  { unfold compress in E0.
    destruct (Z.eqb_spec (_compression_type w) CODEC_GZIP) as [Hg|_];
      [left; split; [exact Hg|congruence]|].
    destruct (Z.eqb_spec (_compression_type w) CODEC_SNAPPY) as [Hs|_];
      [right; left; split; [exact Hs|congruence]|].
    destruct (Z.eqb_spec (_compression_type w) CODEC_LZ4) as [Hl|_];
      [|discriminate].
    right; right. split; [exact Hl|].
    destruct (_magic w =? 0); congruence. }
  split; [exact Hk|]. split; [exact Hm|]. split; [exact E2|].
  destruct (Message_encode_inv _ _ E2) as (c & body & Hb & _ & _ & Hlen).
  destruct (encode_fields_inv _ _ Hb)
    as (Hmagic & mg & at_ & ts & k & v & Hmg & Hat & Hts1 & Hts0 & Hkk & Hvv & ->).
  rewrite Hk in Hkk. rewrite Hv in Hvv.
  apply Bytes_encode_len in Hkk, Hvv. cbn [olen] in Hkk, Hvv.
  destruct (unpack_pack _ _ _ Hmg) as (Hlmg & _).
  destruct (unpack_pack _ _ _ Hat) as (Hlat & _).
  cbn [fmt_size] in *.
  assert (len ts = if _magic w =? 1 then 8 else 0) as Hlts.
  { rewrite Hm in *. destruct Hmagic as [H0|H1]; rewrite ?H0, ?H1 in *;
      cbn [Z.eqb Pos.eqb].
    - rewrite (Hts0 eq_refl). reflexivity.
    - destruct (Hts1 eq_refl) as (t0 & _ & Ht).
      destruct (unpack_pack _ _ _ Ht) as (Hl & _). exact Hl. }
  rewrite Hlen, !len_app. lia.
Qed.

(** [close] on a writer reached by appends, case by case. *)
Lemma close_result (E : Env) (w w' : t) (buf : BytesIO) :
  writer_state E w -> close E w = Ok (w', buf) ->
  tell buf = 0 /\
  (exists size,
     getvalue buf = size ++ skipn 4 (getvalue buf) /\ len size = 4 /\
     _unpack fmt_i size = Ok (len (skipn 4 (getvalue buf)))) /\
  (_compression_type w = 0 -> skipn 4 (getvalue buf) = region w) /\
  (_compression_type w <> 0 ->
   exists compressed wrapper encoded,
     wrapper_of E w = Ok (compressed, wrapper, encoded) /\
     value wrapper = Some compressed /\
     attributes wrapper = _compression_type w /\
     (len encoded + 12 < len (region w) ->
      exists o l m,
        Int64_encode 0 = Ok o /\ Int32_encode (len encoded) = Ok l /\
        skipn 4 (getvalue buf) = o ++ l ++ encoded /\
        MessageSet_decode E buf None = Ok [Item 0 (len encoded) m] /\
        value m = Some compressed /\ attributes m = _compression_type w) /\
     (len (region w) <= len encoded + 12 ->
      skipn 4 (getvalue buf) = region w)).
Proof.
  intros Hw Hc. pose proof (writer_state_inv E w Hw) as Hinv.
  destruct (close_spec E w w' buf Hinv Hc) as (size & payload & Hs & -> & Hcases).
  destruct (unpack_pack _ _ _ Hs) as (Hl & Hun & _). cbn [fmt_size] in Hl.
  assert (skipn 4 (size ++ payload) = payload) as Hskip.
  { rewrite skipn_app, skipn_all2 by (unfold len in Hl; lia).
    replace (4 - _)%nat with 0%nat by (unfold len in Hl; lia). reflexivity. }
  cbn [getvalue tell]. rewrite Hskip.
  split; [reflexivity|]. split; [exists size; auto|].
  destruct Hcases as [[H0 ->] | (Hct & compressed & wrapper & encoded & Hwr & Hor)].
  - split; [reflexivity|]. intros; contradiction.
  - split; [intros; contradiction|]. intros _.
    exists compressed, wrapper, encoded. split; [exact Hwr|].
    assert (value wrapper = Some compressed /\
            attributes wrapper = _compression_type w) as [Hv Ha].
    { unfold wrapper_of in Hwr. inv_bind Hwr. inv_bind Hwr. inv_bind Hwr.
      injection Hwr as <- <- <-.
      destruct (Message_init_fields _ _ _ _ _ _ _ _ E1) as (? & _ & _ & ? & _).
      auto. }
    split; [exact Hv|]. split; [exact Ha|].
    destruct Hor as [(Hlt & l & Hle & ->) | (Hge & ->)].
    + split; [|intros; lia]. intros _.
      destruct (wrapper_entry E w _ _ _ l Hwr Hle)
        as (m & Hent & Hmv & Hma & _).
      exists (be_bytes 8 0), l, m.
      split; [apply Int64_encode_ok; lia|]. split; [exact Hle|].
      split; [reflexivity|]. split; [|auto].
      apply (MessageSet_decode_stream E [(0, len encoded, m)]
               [be_bytes 8 0 ++ l ++ encoded] size _ []).
      * repeat constructor. exact Hent.
      * cbn [List.concat]. rewrite app_nil_r. exact Hs.
      * cbn; lia.
      * cbn [List.concat]. rewrite !app_nil_r. reflexivity.
    + split; [intros; lia|reflexivity].
Qed.

(** C6: [close] on a writer reached by appends rewinds the buffer and
    leaves in its first four bytes the big-endian count of the bytes after
    them.  Without a compression type the records region is kept.  With one,
    the type is gzip, snappy or lz4 and the wrapper message is built: its
    value is the output of that codec on the records region
    ([gzip_encode], [snappy_encode], and for lz4 [lz4_encode_old_kafka] at
    magic 0 and [lz4_encode] otherwise), it has no key, the compression code
    as attributes and the writer's magic, and its encoding is 14 bytes (22
    at magic 1) and the compressed bytes.  When that encoding plus 12 bytes
    of framing is strictly smaller than the region, the region is replaced
    by the single frame offset 0 | size | wrapper, which reads back as one
    message with that value and those attributes; otherwise the region is
    kept. *)
Theorem C6_close_policy (E : Env) (w w' : t) (buf : BytesIO) :
  writer_state E w -> close E w = Ok (w', buf) ->
  tell buf = 0 /\
  (exists size,
     getvalue buf = size ++ skipn 4 (getvalue buf) /\ len size = 4 /\
     _unpack fmt_i size = Ok (len (skipn 4 (getvalue buf)))) /\
  (_compression_type w = 0 -> skipn 4 (getvalue buf) = region w) /\
  (_compression_type w <> 0 ->
   exists compressed wrapper encoded,
     (_compression_type w = CODEC_GZIP /\
        compressed = gzip_encode E (region w) \/
      _compression_type w = CODEC_SNAPPY /\
        compressed = snappy_encode E (region w) \/
      _compression_type w = CODEC_LZ4 /\
        compressed = if _magic w =? 0 then lz4_encode_old_kafka E (region w)
                     else lz4_encode E (region w)) /\
     wrapper_of E w = Ok (compressed, wrapper, encoded) /\
     value wrapper = Some compressed /\ key wrapper = None /\
     attributes wrapper = _compression_type w /\ magic wrapper = _magic w /\
     Message_encode wrapper = Ok encoded /\
     len encoded = 14 + (if _magic w =? 1 then 8 else 0) + len compressed /\
     (len encoded + 12 < len (region w) ->
      exists o l m,
        Int64_encode 0 = Ok o /\ Int32_encode (len encoded) = Ok l /\
        skipn 4 (getvalue buf) = o ++ l ++ encoded /\
        MessageSet_decode E buf None = Ok [Item 0 (len encoded) m] /\
        value m = Some compressed /\ attributes m = _compression_type w) /\
     (len (region w) <= len encoded + 12 ->
      skipn 4 (getvalue buf) = region w)).
Proof.
  intros Hw Hc.
  destruct (close_result E w w' buf Hw Hc) as (Ht & Hsize & Hnone & Hsome).
  split; [exact Ht|]. split; [exact Hsize|]. split; [exact Hnone|].
  intros Hct.
  destruct (Hsome Hct)
    as (compressed & wrapper & encoded & Hwr & Hv & Ha & Hkept & Hnot).
  exists compressed, wrapper, encoded.
  assert (_compression_type w = CODEC_GZIP /\
            compressed = gzip_encode E (region w) \/
          _compression_type w = CODEC_SNAPPY /\
            compressed = snappy_encode E (region w) \/
          _compression_type w = CODEC_LZ4 /\
            compressed = if _magic w =? 0 then lz4_encode_old_kafka E (region w)
                         else lz4_encode E (region w)) as Hcodec.
  { pose proof Hwr as Hwr'. unfold wrapper_of, compress in Hwr'.
    destruct (Z.eqb_spec (_compression_type w) CODEC_GZIP) as [Hg|_].
    { left. split; [exact Hg|]. cbn [bind] in Hwr'.
      inv_bind Hwr'. inv_bind Hwr'. congruence. }
    destruct (Z.eqb_spec (_compression_type w) CODEC_SNAPPY) as [Hs|_].
    { right; left. split; [exact Hs|]. cbn [bind] in Hwr'.
      inv_bind Hwr'. inv_bind Hwr'. congruence. }
    destruct (Z.eqb_spec (_compression_type w) CODEC_LZ4) as [Hl|_];
      [|discriminate].
    right; right. split; [exact Hl|].
    destruct (_magic w =? 0); cbn [bind] in Hwr';
      inv_bind Hwr'; inv_bind Hwr'; congruence. }
  destruct (wrapper_of_codec E w _ _ _ Hwr) as (_ & Hk & Hm & He & Hlen).
  split; [exact Hcodec|]. split; [exact Hwr|]. split; [exact Hv|].
  split; [exact Hk|]. split; [exact Ha|]. split; [exact Hm|].
  split; [exact He|]. split; [exact Hlen|]. split; [exact Hkept|exact Hnot].
Qed.

(** C8: with LZ4 configured, the codec applied to the records region is
    [lz4_encode_old_kafka] at magic 0 and [lz4_encode] at any other magic:
    that is what the compression step returns for every input, what the
    wrapper built by [close] holds as value, and what reads back from the
    closed buffer when the wrapper was kept. *)
Theorem C8_lz4_codec_selection (E : Env) (w w' : t) (buf : BytesIO) :
  writer_state E w -> _compression_type w = CODEC_LZ4 ->
  close E w = Ok (w', buf) ->
  let codec := if _magic w =? 0 then lz4_encode_old_kafka E
               else lz4_encode E in
  (forall data, compress E w data = Ok (codec data)) /\
  exists wrapper encoded,
    wrapper_of E w = Ok (codec (region w), wrapper, encoded) /\
    value wrapper = Some (codec (region w)) /\
    (len encoded + 12 < len (region w) ->
     exists m, MessageSet_decode E buf None = Ok [Item 0 (len encoded) m] /\
               value m = Some (codec (region w)) /\
               attributes m = CODEC_LZ4).
Proof.
  intros Hw Hlz Hc codec.
  assert (forall data, compress E w data = Ok (codec data)) as Hcomp.
  { intros data. unfold compress, codec. rewrite Hlz. cbn.
    destruct (_magic w =? 0); reflexivity. }
  split; [exact Hcomp|].
  destruct (close_result E w w' buf Hw Hc) as (_ & _ & _ & Hwrap).
  destruct Hwrap as (compressed & wrapper & encoded & Hwr & Hv & Ha & Hlt & _).
  { rewrite Hlz. discriminate. }
  assert (compressed = codec (region w)) as ->.
  { unfold wrapper_of in Hwr. rewrite Hcomp in Hwr. cbn [bind] in Hwr.
    inv_bind Hwr. inv_bind Hwr. congruence. }
  exists wrapper, encoded. split; [exact Hwr|]. split; [exact Hv|].
  intros H. destruct (Hlt H) as (o & l & m & _ & _ & _ & Hd & Hmv & Hma).
  exists m. rewrite <- Hlz. auto.
Qed.

End Writer.

(* ===================================================================== *)
(** ** The legacy reader                                                 *)
(* ===================================================================== *)

Section Reader.
Import Kafka LegacySpec LegacyRecordBatchReader.

Lemma inner_record_item (msg : Message) (base : Z) (it : Z * Z * Message) :
  inner_record msg base (to_item it) = Ok (inner_record_of msg base it).
Proof.
  destruct it as [[io sz] im]. unfold inner_record, inner_record_of, to_item.
  destruct (magic msg >? 0).
  - destruct (timestamp_type msg) as [[|p|p]|]; cbn [bind];
      destruct (base >=? 0); reflexivity.
  - cbn [bind]. destruct (base >=? 0); reflexivity.
Qed.

Lemma inner_loop_items (msg : Message) (base : Z) (its : list (Z * Z * Message)) :
  inner_loop msg base (map to_item its) =
  (map (inner_record_of msg base) its, Ok tt).
Proof.
  induction its as [|it its IH]; [reflexivity|].
  cbn [map inner_loop]. rewrite inner_record_item, IH. reflexivity.
Qed.

Lemma base_offset_items (msg : Message) (offset : Z) (its : list (Z * Z * Message)) :
  (magic msg > 0 -> its <> []) ->
  base_offset msg offset (map to_item its) = Ok (base_of msg offset its).
Proof.
  intros Hne. unfold base_offset, base_of.
  destruct (Z.gtb_spec (magic msg) 0) as [Hm|]; [|reflexivity].
  rewrite (getitem_last _ (to_item (0, 0, msg)))
    by (intros H; apply map_eq_nil in H; apply Hne; [lia|exact H]).
  cbn [bind].
  replace (last (map to_item its) (to_item (0, 0, msg)))
    with (to_item (last its (0, 0, msg))).
  - destruct (last its (0, 0, msg)) as [[lo sz] lm]. reflexivity.
  - specialize (Hne ltac:(lia)). clear Hm.
    induction its as [|x l IH]; [congruence|].
    destruct l as [|y l']; [reflexivity|].
    cbn [map last] in *. apply IH. discriminate.
Qed.

(** Iterating a compressed wrapper whose value decompresses to whole
    messages. *)
Lemma iter_compressed (E : Env) (r : t) (offset size : Z) (msg : Message)
    (its : list (Z * Z * Message)) :
  _message r = Item offset size msg -> is_compressed msg = true ->
  decompress E msg = Ok (map to_item its) ->
  (magic msg > 0 -> its <> []) ->
  __iter__ E r =
  (map (inner_record_of msg (base_of msg offset its)) its, Ok tt).
Proof.
  intros Hm Hc Hd Hne. unfold __iter__. rewrite Hm, Hc, Hd. cbn [bind].
  rewrite base_offset_items by exact Hne. cbn [bind].
  apply inner_loop_items.
Qed.


(** C7: for a compressed wrapper whose value decompresses to whole inner
    messages, the reader yields one record per inner message, in order.
    At magic above 0 the base offset is the wrapper's offset minus the last
    inner offset; an inner record gets its inner offset plus the base when
    the base is not negative and its inner offset unchanged when it is
    negative; its timestamp is its own when the wrapper's timestamp type is
    CREATE_TIME (0) and the wrapper's when it is LOG_APPEND_TIME (1).  At
    magic 0 inner offsets are yielded unchanged (and the timestamp is
    reported as 0). *)
Theorem C7_compressed_reconstruction (E : Env) (r : t) (offset size : Z)
    (msg : Message) (its : list (Z * Z * Message)) :
  _message r = Item offset size msg -> is_compressed msg = true ->
  decompress E msg = Ok (map to_item its) ->
  (magic msg > 0 -> its <> []) ->
  let base := offset - fst (fst (last its (0, 0, msg))) in
  (magic msg > 0 ->
   __iter__ E r =
   (map (fun it : Z * Z * Message =>
           let '(inner_offset, _, inner_msg) := it in
           LegacyRecord.mk
             (if base >=? 0 then inner_offset + base else inner_offset)
             (match timestamp_type msg with
              | Some 0 => timestamp inner_msg
              | _ => timestamp msg
              end)
             (timestamp_type msg) (key inner_msg) (value inner_msg)
             (crc inner_msg)) its, Ok tt) /\
   (timestamp_type msg = Some 0 \/ timestamp_type msg = Some 1)) /\
  (magic msg <= 0 ->
   __iter__ E r =
   (map (fun it : Z * Z * Message =>
           let '(inner_offset, _, inner_msg) := it in
           LegacyRecord.mk inner_offset (Some 0) (timestamp_type msg)
             (key inner_msg) (value inner_msg) (crc inner_msg)) its, Ok tt)).
Proof.
  intros Hm Hc Hd Hne base.
  rewrite (iter_compressed E r offset size msg its Hm Hc Hd Hne).
  unfold base_of, inner_record_of.
  split; intros Hmagic.
  - destruct (Z.gtb_spec (magic msg) 0) as [_|]; [|lia].
    split; [reflexivity|].
    unfold timestamp_type. destruct (Z.eqb_spec (magic msg) 0); [lia|].
    destruct (negb _); auto.
  - destruct (Z.gtb_spec (magic msg) 0) as [|_]; [lia|].
    f_equal.
Qed.

End Reader.

(* ===================================================================== *)
(** ** Writing and reading back                                          *)
(* ===================================================================== *)

Section RoundTrip.
Import Kafka LegacySpec.
Import LegacyRecordBatchWriter.

(** The frame written for a record is well formed and decodes to the
    message stored for it. *)
Lemma entry_of_is_entry (E : Env) (magic : Z) (r : record) (bs : bytes) :
  entry_of E magic r = Ok bs ->
  (magic = 0 \/ magic = 1) /\
  exists body,
    is_entry E (r_offset r, len bs - 12, stored_message E magic r body) bs.
Proof.
  unfold entry_of. intros H.
  inv_bind H. inv_bind H. inv_bind H. inv_bind H. injection H as <-.
  rename a into msg, a0 into encoded, a1 into o, a2 into l.
  destruct (Message_encode_inv _ _ E1) as (c & body & Hb & _).
  destruct (encode_fields_inv _ _ Hb) as (Hmagic & _).
  assert (Kafka.magic msg = magic /\
          decoded msg body = stored_message E magic r body)
    as [Hmg Hdec].
  { unfold message_of, Message_init in E0. unfold decoded, stored_message, stored_timestamp.
    destruct (Z.eqb_spec magic 0) as [->|Hn0].
    - cbn in E0. injection E0 as <-. cbn. split; reflexivity.
    - destruct (negb _); [discriminate|]. injection E0 as <-. cbn in Hmagic |- *.
      split; [reflexivity|].
      destruct Hmagic as [?| ->]; [contradiction|]. cbn.
      destruct (r_timestamp r); reflexivity. }
  rewrite Hmg in Hmagic. split; [exact Hmagic|].
  exists body. exists o, l, encoded.
  destruct (unpack_pack _ _ _ E2) as (Hlo & _).
  destruct (unpack_pack _ _ _ E3) as (Hll & _). cbn [fmt_size] in *.
  split; [reflexivity|]. split; [rewrite !len_app; lia|].
  split; [exact E2|]. split; [exact E3|].
  rewrite <- Hdec. apply Message_decode_encode; assumption.
Qed.

(** A run of accepted appends adds the frames of the records, in order, to
    the end of the buffer. *)
Lemma append_all_accepted (E : Env) (rs : list record) :
  forall (w0 w : t) (oks : list bool),
  writer_inv w0 ->
  append_all E w0 rs = Ok (w, oks) -> Forall (eq true) oks ->
  exists bss,
    Forall2 (fun r bs => entry_of E (_magic w0) r = Ok bs) rs bss /\
    getvalue (_buffer w) = getvalue (_buffer w0) ++ List.concat bss /\
    writer_inv w /\ _magic w = _magic w0 /\
    _compression_type w = _compression_type w0.
Proof.
  induction rs as [|r rs IH]; intros w0 w oks Hinv H Hall.
  - cbn in H. injection H as <- <-. exists []. cbn. rewrite app_nil_r.
    repeat split; try constructor; apply Hinv.
  - cbn [append_all] in H.
    destruct (append E w0 (r_offset r) (r_timestamp r) (r_key r) (r_value r) None)
      as [[w1 ok]| |] eqn:Ha; cbn [bind] in H; try discriminate.
    destruct (append_all E w1 rs) as [[w2 oks']| |] eqn:Hrest;
      cbn [bind] in H; try discriminate.
    injection H as <- <-. inversion Hall as [|? ? Hok Hall']; subst.
    destruct (append_inv E w0 w1 _ _ _ _ _ _ Hinv Ha) as (Hinv1 & Hm1 & Hc1 & _).
    destruct (_is_full w0 (r_key r) (r_value r)) eqn:Hfull.
    { rewrite append_full in Ha by auto. discriminate. }
    rewrite append_not_full in Ha by auto.
    destruct (entry_of E (_magic w0) r) as [bs| |] eqn:Hbs;
      cbn [bind] in Ha; try discriminate.
    injection Ha as <-.
    destruct (IH _ _ _ Hinv1 Hrest Hall') as (bss & HF & Hval & Hinv2 & Hm2 & Hc2).
    exists (bs :: bss). cbn [with_buffer _magic _buffer getvalue] in *.
    split; [constructor; assumption|].
    split; [rewrite Hval; cbn [List.concat]; rewrite <- app_assoc; reflexivity|].
    repeat split; try apply Hinv2; assumption.
Qed.

(** The frames of the records as decoded elements. *)
Lemma entries_decoded (E : Env) (magic : Z) (rs : list record) (bss : list bytes) :
  Forall2 (fun r bs => entry_of E magic r = Ok bs) rs bss ->
  exists its,
    Forall2 (is_entry E) its bss /\
    Forall2 (fun r it => exists size body,
               it = (r_offset r, size, stored_message E magic r body)) rs its /\
    (rs <> [] -> magic = 0 \/ magic = 1).
Proof.
  induction 1 as [|r bs rs bss Hent _ (its & Hits & Hrs & _)].
  - exists []. repeat split; try constructor. congruence.
  - destruct (entry_of_is_entry E magic r bs Hent) as (Hmagic & body & He).
    exists ((r_offset r, len bs - 12, stored_message E magic r body) :: its).
    split; [constructor; assumption|].
    split; [constructor; [eauto|assumption]|]. auto.
Qed.





Lemma append_all_state (E : Env) (rs : list record) :
  forall (w0 w : t) (oks : list bool),
  writer_state E w0 -> append_all E w0 rs = Ok (w, oks) -> writer_state E w.
Proof.
  induction rs as [|r rs IH]; intros w0 w oks Hs H.
  - cbn in H. injection H as <- _. exact Hs.
  - cbn [append_all] in H. inv_bind H. destruct a as [w1 ok]. inv_bind H.
    destruct a as [w2 oks']. injection H as <- _.
    eapply IH; [|exact E1]. eapply writer_append; eassumption.
Qed.

End RoundTrip.

(* ===================================================================== *)
(** ** CRC validation                                                    *)
(* ===================================================================== *)

Section Crc.
Import Kafka LegacySpec LegacyRecordBatchReader.



End Crc.

(* ===================================================================== *)
(** ** The theorems at concrete inputs                                   *)
(* ===================================================================== *)

Section Examples.
Import Kafka LegacySpec Samples.

Lemma sample_writer_state (magic ct batch_size : Z) (rs : list record)
    (oks : list bool) :
  LegacyRecordBatchWriter.__init__ magic ct batch_size
    = Ok (writer_after toy_env magic ct batch_size []) ->
  append_all toy_env (writer_after toy_env magic ct batch_size []) rs
    = Ok (writer_after toy_env magic ct batch_size rs, oks) ->
  writer_state toy_env (writer_after toy_env magic ct batch_size rs).
Proof.
  intros Hi Ha. eapply append_all_state; [|exact Ha].
  eapply writer_new. exact Hi.
Defined.



Lemma C5_append_policy_witness :
  writer_state toy_env (writer_after toy_env 1 0 60 [first_short]) /\
  LegacyRecordBatchWriter.append toy_env
    (writer_after toy_env 1 0 60 [first_short])
    (r_offset second_short) (r_timestamp second_short)
    (r_key second_short) (r_value second_short) None
  = Ok (writer_after toy_env 1 0 60 [first_short], false).
Proof.
  assert (writer_state toy_env (writer_after toy_env 1 0 60 [first_short])) as Hs
    by (apply (sample_writer_state 1 0 60 [first_short] [true]);
        vm_compute; reflexivity).
  split; [exact Hs|].
  refine (proj1 (C5_append_policy toy_env _ second_short None Hs
                   (or_introl eq_refl)) _).
  split; vm_compute; reflexivity.
Defined.

Lemma C6_close_policy_witness :
  writer_state toy_env (writer_after toy_env 1 CODEC_GZIP 100000 long_records) /\
  exists w' buf m,
    LegacyRecordBatchWriter.close toy_env
      (writer_after toy_env 1 CODEC_GZIP 100000 long_records) = Ok (w', buf) /\
    tell buf = 0 /\
    MessageSet_decode toy_env buf None
      = Ok [Item 0 (22 + len (gzip_encode toy_env
                                (region (writer_after toy_env 1 CODEC_GZIP 100000
                                           long_records)))) m] /\
    value m = Some (gzip_encode toy_env
                      (region (writer_after toy_env 1 CODEC_GZIP 100000
                                 long_records))) /\
    attributes m = CODEC_GZIP.
Proof.
  assert (writer_state toy_env
            (writer_after toy_env 1 CODEC_GZIP 100000 long_records)) as Hs
    by (apply (sample_writer_state 1 CODEC_GZIP 100000 long_records [true; true]);
        vm_compute; reflexivity).
  split; [exact Hs|].
  destruct (LegacyRecordBatchWriter.close toy_env
              (writer_after toy_env 1 CODEC_GZIP 100000 long_records))
    as [[w' buf]| |] eqn:Hc.
  - destruct (C6_close_policy toy_env _ w' buf Hs Hc) as (Ht & _ & _ & Hwrap).
    destruct (Hwrap ltac:(vm_compute; discriminate))
      as (compressed & wrapper & encoded & Hcodec & _ & _ & _ & _ & _ & _
          & Hlen & Hkept & _).
    assert (LegacyRecordBatchWriter._compression_type
              (writer_after toy_env 1 CODEC_GZIP 100000 long_records) = CODEC_GZIP)
      as Hgz by (vm_compute; reflexivity).
    assert (LegacyRecordBatchWriter._magic
              (writer_after toy_env 1 CODEC_GZIP 100000 long_records) = 1)
      as Hm1 by (vm_compute; reflexivity).
    destruct Hcodec as [[_ Hg]|[[Hx _]|[Hx _]]];
      [|rewrite Hgz in Hx; discriminate Hx|rewrite Hgz in Hx; discriminate Hx].
    rewrite Hm1 in Hlen. cbn [Z.eqb Pos.eqb] in Hlen.
    destruct Hkept as (o & l & m & _ & _ & _ & Hd & Hv & Ha).
    { rewrite Hlen, Hg. vm_compute. reflexivity. }
    exists w', buf, m. split; [reflexivity|]. split; [exact Ht|].
    rewrite Hlen, Hg in Hd. rewrite Hg in Hv.
    split; [exact Hd|]. split; [exact Hv|exact Ha].
  - vm_compute in Hc. discriminate.
  - vm_compute in Hc. discriminate.
Defined.

Lemma C8_lz4_codec_selection_witness :
  writer_state toy_env (writer_after toy_env 0 CODEC_LZ4 100000 long_records) /\
  LegacyRecordBatchWriter.compress toy_env
    (writer_after toy_env 0 CODEC_LZ4 100000 long_records) [x00; x00]
  = Ok (lz4_encode_old_kafka toy_env [x00; x00]).
Proof.
  assert (writer_state toy_env
            (writer_after toy_env 0 CODEC_LZ4 100000 long_records)) as Hs
    by (apply (sample_writer_state 0 CODEC_LZ4 100000 long_records [true; true]);
        vm_compute; reflexivity).
  split; [exact Hs|].
  destruct (LegacyRecordBatchWriter.close toy_env
              (writer_after toy_env 0 CODEC_LZ4 100000 long_records))
    as [[w' buf]| |] eqn:Hc.
  - exact (proj1 (C8_lz4_codec_selection toy_env _ w' buf Hs eq_refl Hc)
             [x00; x00]).
  - vm_compute in Hc. discriminate.
  - vm_compute in Hc. discriminate.
Defined.

(** The writer's own compressed output at magic 1: the wrapper sits at
    offset 0 around inner offsets 0 and 1, so the base is -1, and the reader
    yields 0 and 1, not -1 and 0. *)
Lemma C7_negative_base_counterexample :
  magic (outer_message wrapped_reader) = 1 /\
  is_compressed (outer_message wrapped_reader) = true /\
  outer_offset wrapped_reader = 0 /\
  map (fun it : Z * Z * Message => fst (fst it))
      (inner_items toy_env wrapped_reader) = [0; 1] /\
  map LegacyRecord.offset
      (fst (LegacyRecordBatchReader.__iter__ toy_env wrapped_reader)) = [0; 1] /\
  map LegacyRecord.offset
      (fst (LegacyRecordBatchReader.__iter__ toy_env wrapped_reader))
  <> map (fun it : Z * Z * Message =>
            fst (fst it) + (outer_offset wrapped_reader - 1))
         (inner_items toy_env wrapped_reader).
Proof.
  repeat (split; [vm_compute; reflexivity|]).
  vm_compute. discriminate.
Qed.

Lemma C7_compressed_reconstruction_witness :
  LegacyRecordBatchReader._message wrapped_reader
    = Item (outer_offset wrapped_reader) (outer_size wrapped_reader)
           (outer_message wrapped_reader) /\
  is_compressed (outer_message wrapped_reader) = true /\
  decompress toy_env (outer_message wrapped_reader)
    = Ok (map to_item (inner_items toy_env wrapped_reader)) /\
  snd (LegacyRecordBatchReader.__iter__ toy_env wrapped_reader) = Ok tt.
Proof.
  assert (LegacyRecordBatchReader._message wrapped_reader
    = Item (outer_offset wrapped_reader) (outer_size wrapped_reader)
           (outer_message wrapped_reader)) as H1 by (vm_compute; reflexivity).
  assert (is_compressed (outer_message wrapped_reader) = true) as H2
    by (vm_compute; reflexivity).
  assert (decompress toy_env (outer_message wrapped_reader)
    = Ok (map to_item (inner_items toy_env wrapped_reader))) as H3
    by (vm_compute; reflexivity).
  split; [exact H1|]. split; [exact H2|]. split; [exact H3|].
  destruct (C7_compressed_reconstruction toy_env wrapped_reader _ _ _ _
              H1 H2 H3 ltac:(intros _; vm_compute; discriminate)) as [Hpos _].
  destruct (Hpos ltac:(vm_compute; reflexivity)) as [Hit _].
  rewrite Hit. reflexivity.
Defined.

(** C9: evaluated on a message set whose only message has a stored CRC (0)
    that is not the CRC of its bytes.  [ABCRecordBatchReader.__init__]
    declares the parameter [validate_crc]; the legacy reader's [__init__]
    does not, so constructing it with the flag, positionally or by keyword,
    fails with [TypeError] for every buffer.  Constructed from the buffer
    alone, [validate_crc()] answers false, and iteration still yields the
    record, with the stored CRC as checksum, and ends normally: it does not
    fail with [CrcCheckFailed] carrying the stored and the calculated value,
    as the claim requires.  [CrcCheckFailed] is a subclass of
    [CorruptRecordException]. *)
Theorem C9_validate_crc_flag_refused :
  In "validate_crc"%string Abc.ABCRecordBatchReader_init_parameters /\
  ~ In "validate_crc"%string LegacyRecordBatchReader.__init___parameters /\
  (forall (E : Env) (buffer : BytesIO) (flag : bool),
     (exists e, LegacyRecordBatchReader.call E buffer [flag] [] = Raise e /\
                exn_class e = TypeError) /\
     (exists e, LegacyRecordBatchReader.call E buffer []
                  [("validate_crc"%string, flag)] = Raise e /\
                exn_class e = TypeError)) /\
  (exists r msg,
     LegacyRecordBatchReader.call toy_env bad_crc_buffer [] [] = Ok r /\
     LegacyRecordBatchReader._message r = Item 0 14 msg /\
     Message_decode toy_env bad_crc_message = Ok msg /\
     crc msg = 0 /\ crc32 (skipn 4 bad_crc_message) <> 0 /\
     LegacyRecordBatchReader.validate_crc r = Ok false /\
     LegacyRecordBatchReader.__iter__ toy_env r
       = ([LegacyRecord.mk 0 None None None None 0], Ok tt) /\
     snd (LegacyRecordBatchReader.__iter__ toy_env r)
       <> Raise (Abc.CrcCheckFailed_init (crc msg)
                   (crc32 (skipn 4 bad_crc_message)))) /\
  issubclass CrcCheckFailed CorruptRecordException = true.
Proof.
  split; [right; left; reflexivity|].
  split; [intros [H|[]]; discriminate H|].
  split; [intros E buffer flag; split; eexists; split; reflexivity|].
  split; [|reflexivity].
  eexists _, _.
  split; [vm_compute; reflexivity|].
  split; [reflexivity|].
  split; [vm_compute; reflexivity|].
  split; [reflexivity|].
  split; [vm_compute; discriminate|].
  split; [vm_compute; reflexivity|].
  split; [vm_compute; reflexivity|].
  vm_compute. discriminate.
Qed.

End Examples.

(* ===================================================================== *)
(** ** Further properties of the batch iterator                          *)
(* ===================================================================== *)

Section MoreIterator.
Import MemoryRecords Spec Samples.

Lemma len_concat_last (bs : list bytes) :
  bs <> [] -> len (last bs []) <= len (List.concat bs).
Proof.
  intros Hne. destruct (exists_last Hne) as [l [x ->]].
  rewrite last_last, concat_app, len_app. cbn [List.concat].
  rewrite app_nil_r. pose proof (len_nonneg (List.concat l)). lia.
Qed.

Lemma remaining_after_last (bs : list bytes) :
  remaining_after bs [] 0 = len (last bs []).
Proof.
  unfold remaining_after. destruct bs; [reflexivity|].
  rewrite len_nil. lia.
Qed.

(** X1: in front of an incomplete tail, every whole batch becomes a slice,
    [remaining] is the length of the tail and [valid_bytes()] is the number
    of bytes that went into the slices. *)
Theorem X1_truncated_tail (bs : list bytes) (t : bytes) :
  Forall whole_batch bs -> incomplete_batch t ->
  exists mr,
    __init__ (List.concat bs ++ t) = Ok mr /\
    _slices mr = bs /\ _remaining mr = len t /\
    valid_bytes mr = len (List.concat (_slices mr)) /\
    size_in_bytes mr = valid_bytes mr + len t.
Proof.
  intros Hbs Ht. eexists. split; [apply init_incomplete; assumption|].
  unfold valid_bytes, size_in_bytes. cbn [_slices _remaining _buffer].
  rewrite len_app. repeat split; lia.
Qed.

Lemma X1_truncated_tail_witness :
  Forall whole_batch [tiny_batch x00] /\ incomplete_batch cut_batch /\
  exists mr,
    __init__ (List.concat [tiny_batch x00] ++ cut_batch) = Ok mr /\
    _slices mr = [tiny_batch x00] /\ _remaining mr = len cut_batch /\
    valid_bytes mr = len (List.concat (_slices mr)) /\
    size_in_bytes mr = valid_bytes mr + len cut_batch.
Proof.
  assert (Forall whole_batch [tiny_batch x00]) as H1
    by (repeat constructor; vm_compute; intro; discriminate).
  assert (incomplete_batch cut_batch) as H2.
  { split; [discriminate|]. right. split; vm_compute; [intro; discriminate|reflexivity]. }
  split; [exact H1|]. split; [exact H2|].
  exact (X1_truncated_tail [tiny_batch x00] cut_batch H1 H2).
Defined.

(** X2: stitching.  Putting whole batches in front of a non-empty buffer
    puts them in front of its slices and changes nothing else: the slices of
    the second buffer and its [remaining] are what they are on their own,
    and if the second buffer is refused the joined one is refused with the
    same exception. *)
Theorem X2_whole_batches_in_front (bs : list bytes) (x : bytes) :
  Forall whole_batch bs -> x <> [] ->
  (forall mx, __init__ x = Ok mx ->
     __init__ (List.concat bs ++ x) =
     Ok (mk (List.concat bs ++ x) (bs ++ _slices mx) (_remaining mx) 0)) /\
  (forall e, __init__ x = Raise e -> __init__ (List.concat bs ++ x) = Raise e).
Proof.
  intros Hbs Hx.
  destruct (init_cases x) as [(bs' & t & Hb & Hbs' & Ht & rem & Hi & Hr1 & Hr2)
                             |(bs' & t & Hb & Hbs' & Ht & Hi)].
  - split; [|intros e He; congruence].
    intros mx Hmx. rewrite Hi in Hmx. injection Hmx as <-.
    cbn [_slices _remaining].
    assert (Forall whole_batch (bs ++ bs')) as Hall
      by (apply Forall_app; split; assumption).
    assert (List.concat bs ++ x = List.concat (bs ++ bs') ++ t) as Hcat
      by (rewrite Hb, concat_app, app_assoc; reflexivity).
    destruct Ht as [->|Ht].
    + rewrite app_nil_r in Hb, Hcat. rewrite Hcat, init_whole by exact Hall.
      rewrite (Hr2 eq_refl).
      assert (bs' <> []) as Hne' by (intros ->; apply Hx; exact Hb).
      do 2 f_equal. rewrite !remaining_after_last.
      destruct (exists_last Hne') as [l [y ->]].
      rewrite app_assoc, !last_last. reflexivity.
    + rewrite Hcat at 1. rewrite init_incomplete by assumption.
      rewrite (Hr1 Ht), <- Hcat. reflexivity.
  - split; [intros mx Hmx; congruence|].
    intros e He. rewrite Hi in He. injection He as <-.
    rewrite Hb, app_assoc, <- concat_app.
    apply init_corrupt; [apply Forall_app; split; assumption|exact Ht].
Qed.

Lemma X2_whole_batches_in_front_witness :
  Forall whole_batch [tiny_batch x02] /\ tiny_batch x00 ++ cut_batch <> [] /\
  __init__ (List.concat [tiny_batch x02] ++ tiny_batch x00 ++ cut_batch) =
  Ok (mk (List.concat [tiny_batch x02] ++ tiny_batch x00 ++ cut_batch)
         ([tiny_batch x02] ++ [tiny_batch x00]) 20 0).
Proof.
  assert (Forall whole_batch [tiny_batch x02]) as H1
    by (repeat constructor; vm_compute; intro; discriminate).
  assert (tiny_batch x00 ++ cut_batch <> []) as H2 by discriminate.
  split; [exact H1|]. split; [exact H2|].
  exact (proj1 (X2_whole_batches_in_front _ _ H1 H2)
           (mk (tiny_batch x00 ++ cut_batch) [tiny_batch x00] 20 0)
           ltac:(vm_compute; reflexivity)).
Defined.

(** X3: every buffer the constructor accepts is its slices, in order,
    followed by a tail that is empty or an incomplete batch, and every slice
    is a whole batch; [remaining] lies between 0 and the buffer length, so
    [valid_bytes()] lies between 0 and [size_in_bytes()], and the bytes of
    the slices never exceed the buffer. *)
Theorem X3_valid_bytes_bounds (b : bytes) (mr : MemoryRecords.t) :
  __init__ b = Ok mr ->
  (exists tail,
     b = List.concat (_slices mr) ++ tail /\
     (tail = [] \/ incomplete_batch tail)) /\
  Forall whole_batch (_slices mr) /\
  0 <= _remaining mr <= len b /\
  0 <= valid_bytes mr <= size_in_bytes mr /\
  len (List.concat (_slices mr)) <= size_in_bytes mr.
Proof.
  intros Hinit.
  destruct (init_cases b) as [(bs & t & Hb & Hbs & Ht & rem & Hi & Hr1 & Hr2)
                             |(bs & t & _ & _ & _ & Hi)]; [|congruence].
  rewrite Hi in Hinit. injection Hinit as <-.
  unfold valid_bytes, size_in_bytes. cbn [_remaining _buffer _slices].
  split; [exists t; split; assumption|]. split; [exact Hbs|].
  pose proof (len_nonneg (List.concat bs)) as Hcb. pose proof (len_nonneg t) as Hlt.
  assert (len b = len (List.concat bs) + len t) as Hlen
    by (rewrite Hb, len_app; reflexivity).
  assert (0 <= rem <= len b) as Hrem.
  { destruct Ht as [->|Ht].
    - rewrite (Hr2 eq_refl), remaining_after_last.
      rewrite len_nil in Hlen.
      destruct bs as [|s bs'].
      + cbn [last]. rewrite len_nil. lia.
      + pose proof (len_concat_last (s :: bs') ltac:(discriminate)) as Hl.
        pose proof (len_nonneg (last (s :: bs') [])). lia.
    - rewrite (Hr1 Ht). lia. }
  split; [exact Hrem|]. split; lia.
Qed.

Lemma X3_valid_bytes_bounds_witness :
  __init__ (tiny_batch x00 ++ cut_batch) =
    Ok (mk (tiny_batch x00 ++ cut_batch) [tiny_batch x00] 20 0) /\
  0 <= 20 <= len (tiny_batch x00 ++ cut_batch).
Proof.
  assert (__init__ (tiny_batch x00 ++ cut_batch) =
    Ok (mk (tiny_batch x00 ++ cut_batch) [tiny_batch x00] 20 0))
    as H by (vm_compute; reflexivity).
  split; [exact H|].
  exact (proj1 (proj2 (proj2 (X3_valid_bytes_bounds _ _ H)))).
Defined.

End MoreIterator.

(* ===================================================================== *)
(** ** Further properties of the legacy writer                           *)
(* ===================================================================== *)

Section MoreWriter.
Import Kafka LegacySpec Samples More.
Import LegacyRecordBatchWriter.

(** The frame written for a record has exactly [frame_size] bytes. *)
Lemma entry_len (E : Env) (magic : Z) (r : record) (bs : bytes) :
  entry_of E magic r = Ok bs ->
  (magic = 0 \/ magic = 1) /\
  len bs = frame_size magic (r_key r) (r_value r).
Proof.
  intros H. destruct (entry_of_is_entry E magic r bs H) as (Hmagic & _).
  split; [exact Hmagic|].
  unfold entry_of in H.
  inv_bind H. inv_bind H. inv_bind H. inv_bind H. injection H as <-.
  rename a into msg, a0 into encoded, a1 into o, a2 into l.
  destruct (Message_encode_inv _ _ E1) as (c & body & Hb & _ & _ & Hlen).
  destruct (encode_fields_inv _ _ Hb)
    as (Hm & mg & at_ & ts & k & v & Hmg & Hat & Hts1 & Hts0 & Hk & Hv & ->).
  assert (Kafka.magic msg = magic /\ key msg = r_key r /\ value msg = r_value r)
    as (Hmm & Hkk & Hvv).
  { unfold message_of in E0.
    destruct (magic =? 0);
      destruct (Message_init_fields _ _ _ _ _ _ _ _ E0) as (? & ? & ? & _);
      auto. }
  rewrite Hkk in Hk. rewrite Hvv in Hv.
  apply Bytes_encode_len in Hk, Hv.
  destruct (unpack_pack _ _ _ Hmg) as (Hlmg & _).
  destruct (unpack_pack _ _ _ Hat) as (Hlat & _).
  destruct (unpack_pack _ _ _ E2) as (Hlo & _).
  destruct (unpack_pack _ _ _ E3) as (Hll & _).
  cbn [fmt_size] in *.
  assert (len ts = if magic =? 1 then 8 else 0) as Hlts.
  { rewrite Hmm in *. destruct Hmagic as [->| ->]; cbn [Z.eqb Pos.eqb].
    - rewrite (Hts0 eq_refl). reflexivity.
    - destruct (Hts1 eq_refl) as (t & _ & Ht).
      destruct (unpack_pack _ _ _ Ht) as (Hl & _). exact Hl. }
  unfold frame_size. rewrite !len_app in *. lia.
Qed.

(** An append that returned true wrote the frame of its record. *)
Lemma append_accepted (E : Env) (w w' : t) (r : record)
    (headers : option (list header)) :
  writer_inv w -> headers = None \/ headers = Some [] ->
  append E w (r_offset r) (r_timestamp r) (r_key r) (r_value r) headers
    = Ok (w', true) ->
  _is_full w (r_key r) (r_value r) = false /\
  exists bs,
    entry_of E (_magic w) r = Ok bs /\
    w' = with_buffer w (mkBytesIO (getvalue (_buffer w) ++ bs)
                                  (tell (_buffer w) + len bs)) false.
Proof.
  intros Hinv Hh Ha.
  destruct (_is_full w (r_key r) (r_value r)) eqn:Hfull.
  { rewrite append_full in Ha by auto. discriminate. }
  split; [reflexivity|].
  rewrite append_not_full in Ha by auto.
  inv_bind Ha. injection Ha as <-. exists a. auto.
Qed.

(** X4: an accepted [append] (empty headers, a writer reached by appends)
    leaves what was in the buffer in place and adds exactly
    26 + len(key) + len(value) bytes at magic 0 and 34 + len(key) +
    len(value) at magic 1 (a null key or value counting 0); this is never
    more than the 34 + len(key) + len(value) that [_is_full] charges. *)
Theorem X4_append_grows_by_frame (E : Env) (w w' : t) (r : record)
    (headers : option (list header)) :
  writer_state E w -> headers = None \/ headers = Some [] ->
  append E w (r_offset r) (r_timestamp r) (r_key r) (r_value r) headers
    = Ok (w', true) ->
  (_magic w = 0 \/ _magic w = 1) /\
  len (getvalue (_buffer w')) =
    len (getvalue (_buffer w))
    + 26 + (if _magic w =? 1 then 8 else 0) + olen (r_key r) + olen (r_value r) /\
  firstn (List.length (getvalue (_buffer w))) (getvalue (_buffer w'))
    = getvalue (_buffer w) /\
  len (getvalue (_buffer w')) - len (getvalue (_buffer w))
    <= worst_case_size (r_key r) (r_value r) /\
  _first_message w' = false.
Proof.
  intros Hw Hh Ha. pose proof (writer_state_inv E w Hw) as Hinv.
  destruct (append_accepted E w w' r headers Hinv Hh Ha) as (_ & bs & Hbs & ->).
  destruct (entry_len E _ r bs Hbs) as (Hmagic & Hlen).
  unfold frame_size in Hlen.
  cbn [with_buffer _buffer getvalue _first_message].
  split; [exact Hmagic|]. rewrite len_app, Hlen.
  split; [lia|].
  split; [rewrite firstn_app, firstn_all, Nat.sub_diag; cbn; apply app_nil_r|].
  split; [|reflexivity].
  unfold worst_case_size, MessageSet_HEADER_SIZE, Message_HEADER_SIZE.
  destruct (_magic w =? 1); lia.
Qed.

Lemma X4_append_grows_by_frame_witness :
  writer_state toy_env (writer_after toy_env 1 0 100000 [first_short]) /\
  len (getvalue (_buffer (writer_after toy_env 1 0 100000 short_records))) =
  len (getvalue (_buffer (writer_after toy_env 1 0 100000 [first_short])))
  + 26 + 8 + 4 + 5.
Proof.
  assert (writer_state toy_env (writer_after toy_env 1 0 100000 [first_short]))
    as Hs by (apply (sample_writer_state 1 0 100000 [first_short] [true]);
              vm_compute; reflexivity).
  split; [exact Hs|].
  exact (proj1 (proj2 (X4_append_grows_by_frame toy_env _
                         (writer_after toy_env 1 0 100000 short_records)
                         second_short None Hs (or_introl eq_refl)
                         ltac:(vm_compute; reflexivity)))).
Defined.

(** X5: when a record other than the first is accepted, the buffer still
    fits the batch size afterwards. *)
Theorem X5_accepted_fits_batch_size (E : Env) (w w' : t) (r : record)
    (headers : option (list header)) :
  writer_state E w -> headers = None \/ headers = Some [] ->
  _first_message w = false ->
  append E w (r_offset r) (r_timestamp r) (r_key r) (r_value r) headers
    = Ok (w', true) ->
  len (getvalue (_buffer w')) <= _batch_size w' /\
  _batch_size w' = _batch_size w.
Proof.
  intros Hw Hh Hfirst Ha. pose proof (writer_state_inv E w Hw) as Hinv.
  destruct (append_accepted E w w' r headers Hinv Hh Ha) as (Hnf & bs & Hbs & ->).
  destruct (entry_len E _ r bs Hbs) as (Hmagic & Hlen).
  cbn [with_buffer _buffer getvalue _batch_size]. split; [|reflexivity].
  rewrite len_app, Hlen. unfold frame_size.
  assert (~ (_first_message w = false /\
             tell (_buffer w) + worst_case_size (r_key r) (r_value r)
               > _batch_size w)) as Hroom
    by (rewrite <- is_full_spec; congruence).
  destruct Hinv as [Ht _]. rewrite Ht in Hroom.
  unfold worst_case_size, MessageSet_HEADER_SIZE, Message_HEADER_SIZE in Hroom.
  assert (len (getvalue (_buffer w)) + (12 + 22 + olen (r_key r) + olen (r_value r))
          <= _batch_size w) as Hle
    by (destruct (Z_le_gt_dec
                    (len (getvalue (_buffer w))
                     + (12 + 22 + olen (r_key r) + olen (r_value r)))
                    (_batch_size w)) as [|Hgt];
        [assumption|exfalso; apply Hroom; split; assumption]).
  destruct (_magic w =? 1); lia.
Qed.

Lemma X5_accepted_fits_batch_size_witness :
  writer_state toy_env (writer_after toy_env 1 0 100 [first_short]) /\
  len (getvalue (_buffer (writer_after toy_env 1 0 100 short_records))) <= 100.
Proof.
  assert (writer_state toy_env (writer_after toy_env 1 0 100 [first_short]))
    as Hs by (apply (sample_writer_state 1 0 100 [first_short] [true]);
              vm_compute; reflexivity).
  split; [exact Hs|].
  exact (proj1 (X5_accepted_fits_batch_size toy_env _
                  (writer_after toy_env 1 0 100 short_records)
                  second_short None Hs (or_introl eq_refl)
                  ltac:(vm_compute; reflexivity)
                  ltac:(vm_compute; reflexivity))).
Defined.

(** X8: compression is best effort: the buffer [close] returns is never
    longer than the writer's buffer was; it is strictly shorter when the
    compression wrapper was kept and of the same length otherwise. *)
Theorem X8_close_never_longer (E : Env) (w w' : t) (buf : BytesIO) :
  writer_state E w -> close E w = Ok (w', buf) ->
  len (getvalue buf) <= len (getvalue (_buffer w)) /\
  (wrapped E w -> len (getvalue buf) < len (getvalue (_buffer w))) /\
  (~ wrapped E w -> len (getvalue buf) = len (getvalue (_buffer w))).
Proof.
  intros Hw Hc. pose proof (writer_state_inv E w Hw) as Hinv.
  destruct (close_spec E w w' buf Hinv Hc) as (size & payload & Hs & -> & Hcases).
  destruct (unpack_pack _ _ _ Hs) as (Hl & _). cbn [fmt_size] in Hl.
  assert (len (getvalue (_buffer w)) = 4 + len (region w)) as Hreg.
  { destruct Hinv as [_ H4]. unfold region, len in *. rewrite length_skipn. lia. }
  cbn [getvalue]. rewrite len_app, Hl, Hreg.
  destruct Hcases as [[H0 ->]
    | (Hn0 & compressed & wrapper & encoded & Hwr
         & [(Hlt & l & Hle & ->) | (Hge & ->)])].
  - split; [lia|]. split; [intros [Hx _]; contradiction|intros; lia].
  - destruct (unpack_pack _ _ _ Hle) as (Hll & _). cbn [fmt_size] in Hll.
    rewrite !len_app, len_be_bytes, Hll.
    split; [lia|]. split; [intros; lia|].
    intros Hnw. exfalso. apply Hnw. split; [exact Hn0|]. eauto.
  - split; [lia|]. split; [|intros; lia].
    intros (_ & c2 & wr2 & enc2 & Hwr2 & Hlt2).
    rewrite Hwr in Hwr2. injection Hwr2 as <- <- <-. lia.
Qed.

Lemma X8_close_never_longer_witness :
  writer_state toy_env (writer_after toy_env 1 CODEC_GZIP 100000 long_records) /\
  exists w' buf,
    close toy_env (writer_after toy_env 1 CODEC_GZIP 100000 long_records)
      = Ok (w', buf) /\
    len (getvalue buf)
      <= len (getvalue (_buffer (writer_after toy_env 1 CODEC_GZIP 100000
                                   long_records))).
Proof.
  assert (writer_state toy_env
            (writer_after toy_env 1 CODEC_GZIP 100000 long_records)) as Hs
    by (apply (sample_writer_state 1 CODEC_GZIP 100000 long_records [true; true]);
        vm_compute; reflexivity).
  split; [exact Hs|].
  destruct (close toy_env (writer_after toy_env 1 CODEC_GZIP 100000 long_records))
    as [[w' buf]| |] eqn:Hc.
  - exists w', buf. split; [reflexivity|].
    exact (proj1 (X8_close_never_longer toy_env _ w' buf Hs Hc)).
  - vm_compute in Hc. discriminate.
  - vm_compute in Hc. discriminate.
Defined.

(** X12: a writer configured with a compression type other than 0, 1, 2
    or 3 cannot be closed: [close] (and [_maybe_compress]) raise
    [UnboundLocalError], whatever was appended. *)
Theorem X12_unknown_compression_type (E : Env) (w : t) :
  _compression_type w <> 0 -> _compression_type w <> CODEC_GZIP ->
  _compression_type w <> CODEC_SNAPPY -> _compression_type w <> CODEC_LZ4 ->
  (exists e, _maybe_compress E w = Raise e /\ exn_class e = UnboundLocalError) /\
  (exists e, close E w = Raise e /\ exn_class e = UnboundLocalError).
Proof.
  intros H0 H1 H2 H3.
  assert (exists e, _maybe_compress E w = Raise e /\
                    exn_class e = UnboundLocalError) as (e & He & Hc).
  { unfold _maybe_compress, compress.
    destruct (Z.eqb_spec (_compression_type w) 0); [contradiction|].
    destruct (Z.eqb_spec (_compression_type w) CODEC_GZIP); [contradiction|].
    destruct (Z.eqb_spec (_compression_type w) CODEC_SNAPPY); [contradiction|].
    destruct (Z.eqb_spec (_compression_type w) CODEC_LZ4); [contradiction|].
    cbn [negb bind raise]. eexists. split; reflexivity. }
  split; [exists e; auto|].
  exists e. split; [|exact Hc]. rewrite close_unfold, He. reflexivity.
Qed.

Lemma X12_unknown_compression_type_witness :
  exists e,
    close toy_env (writer_after toy_env 1 4 100000 short_records) = Raise e /\
    exn_class e = UnboundLocalError.
Proof.
  apply (X12_unknown_compression_type toy_env
           (writer_after toy_env 1 4 100000 short_records));
    vm_compute; discriminate.
Defined.

(** X13: [close] is not repeatable.  Closing an uncompressed writer a second
    time computes the size from the rewound position and overwrites the
    length prefix with -4, leaving the records as they are. *)
Theorem X13_second_close (E : Env) (w w' : t) (buf : BytesIO) :
  writer_state E w -> _compression_type w = 0 -> close E w = Ok (w', buf) ->
  exists w'' size,
    close E w' = Ok (w'', mkBytesIO (size ++ region w) 0) /\
    Int32_encode (-4) = Ok size /\
    skipn 4 (getvalue buf) = region w.
Proof.
  intros Hw H0 Hc. pose proof (writer_state_inv E w Hw) as Hinv.
  rewrite close_unfold, maybe_compress_none in Hc by exact H0.
  cbn [bind fst] in Hc. rewrite (close_finish w Hinv) in Hc.
  inv_bind Hc. injection Hc as <- <-.
  destruct (unpack_pack _ _ _ E0) as (Hl & _). cbn [fmt_size] in Hl.
  assert (skipn 4 (a ++ region w) = region w) as Hskip.
  { rewrite skipn_app, skipn_all2 by (unfold len in Hl; lia).
    replace (4 - _)%nat with 0%nat by (unfold len in Hl; lia). reflexivity. }
  eexists _, (be_bytes 4 (-4)).
  split; [|split; [apply Int32_encode_ok; lia|exact Hskip]].
  rewrite close_unfold, maybe_compress_none by exact H0.
  cbn [bind fst]. unfold write_size.
  cbn [with_buffer _buffer tell getvalue _first_message].
  change (0 - 4) with (-4). rewrite (Int32_encode_ok (-4)) by lia.
  cbn [bind]. rewrite write_at_start.
  2:{ rewrite len_be_bytes, len_app, Hl. pose proof (len_nonneg (region w)). lia. }
  rewrite length_be_bytes, Hskip. unfold seek. cbn [getvalue]. reflexivity.
Qed.

Lemma X13_second_close_witness :
  writer_state toy_env (writer_after toy_env 0 0 100000 short_records) /\
  exists w' buf w'' size,
    close toy_env (writer_after toy_env 0 0 100000 short_records) = Ok (w', buf) /\
    close toy_env w'
      = Ok (w'', mkBytesIO (size ++ region (writer_after toy_env 0 0 100000
                                              short_records)) 0) /\
    Int32_encode (-4) = Ok size.
Proof.
  assert (writer_state toy_env (writer_after toy_env 0 0 100000 short_records))
    as Hs by (apply (sample_writer_state 0 0 100000 short_records [true; true]);
              vm_compute; reflexivity).
  split; [exact Hs|].
  destruct (close toy_env (writer_after toy_env 0 0 100000 short_records))
    as [[w' buf]| |] eqn:Hc.
  - destruct (X13_second_close toy_env _ w' buf Hs eq_refl Hc)
      as (w'' & size & H2 & Hsz & _).
    exists w', buf, w'', size. auto.
  - vm_compute in Hc. discriminate.
  - vm_compute in Hc. discriminate.
Defined.

End MoreWriter.

(* ===================================================================== *)
(** ** Further properties of what the writer writes                      *)
(* ===================================================================== *)

Section MoreRoundTrip.
Import Kafka LegacySpec Samples More.
Import LegacyRecordBatchWriter.

(** After a run of accepted appends on a fresh writer the records region is
    the run of the frames of the records. *)
Lemma written_region (E : Env) (magic ct batch_size : Z) (rs : list record)
    (w0 w : t) (oks : list bool) :
  __init__ magic ct batch_size = Ok w0 ->
  append_all E w0 rs = Ok (w, oks) -> Forall (eq true) oks ->
  writer_inv w /\ _magic w = magic /\ _compression_type w = ct /\
  exists bss its,
    region w = List.concat bss /\
    Forall2 (fun r bs => entry_of E magic r = Ok bs) rs bss /\
    Forall2 (is_entry E) its bss /\
    Forall2 (fun r it => exists size body,
               it = (r_offset r, size, stored_message E magic r body)) rs its.
Proof.
  intros Hinit Happ Hall.
  destruct (init_inv _ _ _ _ Hinit) as (Hinv0 & Hm0 & Hc0 & _ & _ & Hreg0).
  destruct (append_all_accepted E rs w0 w oks Hinv0 Happ Hall)
    as (bss & HF & Hval & Hinv & Hm & Hc).
  rewrite Hm0 in *. rewrite Hc0 in *.
  split; [exact Hinv|]. split; [exact Hm|]. split; [exact Hc|].
  destruct (entries_decoded E magic rs bss HF) as (its & Hits & Hrs & _).
  exists bss, its. split; [|auto].
  unfold region in *. rewrite Hval.
  destruct Hinv0 as [_ H4].
  assert (List.length (getvalue (_buffer w0)) = 4%nat) as Hl4.
  { apply (f_equal (@List.length byte)) in Hreg0.
    rewrite length_skipn in Hreg0. cbn in Hreg0. unfold len in H4. lia. }
  rewrite skipn_app, skipn_all2, Hl4 by lia. reflexivity.
Qed.

(** X6: when [close] keeps the records uncompressed, the returned buffer is
    a message set that holds every appended record: decoding it gives one
    message per record, in order, with the appended offset, key and value
    and the timestamp stored at this magic, and each message's CRC field is
    the CRC of its bytes. *)
Theorem X6_uncompressed_message_set (E : Env) (magic ct batch_size : Z)
    (rs : list record) (w0 w w' : t) (oks : list bool) (buf : BytesIO) :
  __init__ magic ct batch_size = Ok w0 ->
  append_all E w0 rs = Ok (w, oks) -> Forall (eq true) oks ->
  close E w = Ok (w', buf) -> ~ wrapped E w ->
  exists its,
    MessageSet_decode E buf None = Ok (map to_item its) /\
    map item_fields its = map (read_back_plain E magic) rs /\
    Forall (fun it : Z * Z * Message => validate_crc (snd it) = Ok true) its.
Proof.
  intros Hinit Happ Hall Hclose Hnw.
  destruct (written_region E magic ct batch_size rs w0 w oks Hinit Happ Hall)
    as (Hinv & Hm & Hc & bss & its & Hreg & _ & Hits & Hrs).
  destruct (close_spec E w w' buf Hinv Hclose)
    as (size & payload & Hsize & -> & Hcases).
  assert (payload = region w) as ->.
  { destruct Hcases as [[_ ->]
      | (Hn0 & compressed & wrapper & encoded & Hwr
           & [(Hlt & l & Hl & ->) | (Hge & ->)])]; try reflexivity.
    exfalso. apply Hnw. split; [exact Hn0|]. eauto. }
  rewrite Hreg in Hsize |- *.
  exists its. split.
  - apply (MessageSet_decode_stream E its bss size _ []); auto;
      cbn; try lia. rewrite app_nil_r. reflexivity.
  - split.
    + clear - Hrs.
      induction Hrs as [|r it rs' its' (sz & body & ->) _ IH]; [reflexivity|].
      cbn [map]. rewrite IH. reflexivity.
    + clear - Hrs.
      induction Hrs as [|r it rs' its' (sz & body & ->) _ IH]; constructor;
        [|exact IH].
      unfold validate_crc, stored_message. cbn. rewrite Z.eqb_refl. reflexivity.
Qed.

Lemma X6_uncompressed_message_set_witness :
  exists w0 w w' oks buf its,
    __init__ 1 0 100000 = Ok w0 /\
    append_all toy_env w0 short_records = Ok (w, oks) /\
    Forall (eq true) oks /\
    close toy_env w = Ok (w', buf) /\ ~ wrapped toy_env w /\
    MessageSet_decode toy_env buf None = Ok (map to_item its) /\
    map item_fields its = map (read_back_plain toy_env 1) short_records.
Proof.
  eexists _, _, _, _, _.
  match goal with
  | |- exists its, ?A /\ ?B /\ ?C /\ ?D /\ ?N /\ _ =>
      assert A as HA by (vm_compute; reflexivity);
      assert B as HB by (vm_compute; reflexivity);
      assert C as HC by (repeat constructor);
      assert D as HD by (vm_compute; reflexivity);
      assert N as HN by (intros [Hx _]; apply Hx; reflexivity)
  end.
  destruct (X6_uncompressed_message_set toy_env 1 0 100000 short_records
              _ _ _ _ _ HA HB HC HD HN) as (its & H1 & H2 & _).
  exists its. auto 10.
Defined.

(** The wrapper built by [close] decodes to itself with the computed CRC. *)
Lemma wrapper_decodes (E : Env) (w : t) (compressed : bytes)
    (wrapper : Message) (encoded : bytes) :
  wrapper_of E w = Ok (compressed, wrapper, encoded) ->
  exists body, Message_decode E encoded = Ok (decoded wrapper body).
Proof.
  unfold wrapper_of. intros H.
  inv_bind H. inv_bind H. inv_bind H. injection H as _ <- <-.
  destruct (Message_encode_inv _ _ E2) as (c & body & Hb & _).
  exists body. apply Message_decode_encode; assumption.
Qed.

(** X7: whatever the writer closed reads back with a valid CRC: the reader
    built on the returned buffer answers [validate_crc()] with true, for the
    compression wrapper as for a plain first message. *)
Theorem X7_written_crc_validates (E : Env) (magic ct batch_size : Z)
    (rs : list record) (w0 w w' : t) (oks : list bool) (buf : BytesIO) :
  rs <> [] ->
  __init__ magic ct batch_size = Ok w0 ->
  append_all E w0 rs = Ok (w, oks) -> Forall (eq true) oks ->
  close E w = Ok (w', buf) ->
  exists r,
    LegacyRecordBatchReader.__init__ E buf = Ok r /\
    LegacyRecordBatchReader.validate_crc r = Ok true.
Proof.
  intros Hne Hinit Happ Hall Hclose.
  destruct (written_region E magic ct batch_size rs w0 w oks Hinit Happ Hall)
    as (Hinv & Hm & Hc & bss & its & Hreg & _ & Hits & Hrs).
  destruct (close_spec E w w' buf Hinv Hclose)
    as (size & payload & Hsize & -> & Hcases).
  assert (forall size : bytes,
            Int32_encode (len (List.concat bss)) = Ok size ->
            exists r,
              LegacyRecordBatchReader.__init__ E
                (mkBytesIO (size ++ List.concat bss) 0) = Ok r /\
              LegacyRecordBatchReader.validate_crc r = Ok true) as Hplain.
  { intros sz Hsz. unfold LegacyRecordBatchReader.__init__.
    rewrite (MessageSet_decode_stream E its bss sz _ [] Hits Hsz)
      by (cbn; try lia; rewrite app_nil_r; reflexivity).
    cbn [bind].
    destruct Hrs as [|r1 it1 rs' its' (s1 & body & ->) _]; [congruence|].
    cbn [map to_item]. eexists. split; [reflexivity|].
    unfold LegacyRecordBatchReader.validate_crc, validate_crc, stored_message.
    cbn. rewrite Z.eqb_refl. reflexivity. }
  destruct Hcases as [[_ ->]
    | (Hn0 & compressed & wrapper & encoded & Hwr
         & [(Hlt & l & Hl & ->) | (Hge & ->)])].
  - rewrite Hreg in Hsize |- *. apply Hplain. exact Hsize.
  - destruct (wrapper_decodes E w _ _ _ Hwr) as (body & Hdec).
    unfold LegacyRecordBatchReader.__init__.
    rewrite (MessageSet_decode_stream E [(0, len encoded, decoded wrapper body)]
               [be_bytes 8 0 ++ l ++ encoded] size _ []).
    + cbn [bind map to_item]. eexists. split; [reflexivity|].
      unfold LegacyRecordBatchReader.validate_crc, validate_crc, decoded.
      cbn. rewrite Z.eqb_refl. reflexivity.
    + repeat constructor. exists (be_bytes 8 0), l, encoded.
      split; [reflexivity|]. split; [reflexivity|].
      split; [apply Int64_encode_ok; lia|]. split; [exact Hl|exact Hdec].
    + cbn [List.concat]. rewrite app_nil_r. exact Hsize.
    + cbn; lia.
    + cbn [List.concat]. rewrite !app_nil_r. reflexivity.
  - rewrite Hreg in Hsize |- *. apply Hplain. exact Hsize.
Qed.

Lemma X7_written_crc_validates_witness :
  exists w0 w w' oks buf r,
    long_records <> [] /\
    __init__ 1 CODEC_GZIP 100000 = Ok w0 /\
    append_all toy_env w0 long_records = Ok (w, oks) /\
    Forall (eq true) oks /\
    close toy_env w = Ok (w', buf) /\
    LegacyRecordBatchReader.__init__ toy_env buf = Ok r /\
    LegacyRecordBatchReader.validate_crc r = Ok true.
Proof.
  eexists _, _, _, _, _.
  match goal with
  | |- exists r, ?N /\ ?A /\ ?B /\ ?C /\ ?D /\ _ =>
      assert N as HN by discriminate;
      assert A as HA by (vm_compute; reflexivity);
      assert B as HB by (vm_compute; reflexivity);
      assert C as HC by (repeat constructor);
      assert D as HD by (vm_compute; reflexivity)
  end.
  destruct (X7_written_crc_validates toy_env 1 CODEC_GZIP 100000 long_records
              _ _ _ _ _ HN HA HB HC HD) as (r & H1 & H2).
  exists r. auto 10.
Defined.

End MoreRoundTrip.

(* ===================================================================== *)
(** ** The batch iterator over what the writer writes                    *)
(* ===================================================================== *)

Section MoreFrames.
Import Kafka LegacySpec Samples More.

(** The frame of a record is a whole batch for the iterator, with the
    writer's magic at the Magic offset. *)
Lemma entry_whole_batch (E : Env) (magic : Z) (r : record) (bs : bytes) :
  entry_of E magic r = Ok bs ->
  Spec.whole_batch bs /\ Spec.magic_byte bs = magic.
Proof.
  intros H. destruct (entry_len E magic r bs H) as (Hmagic & Hlen).
  unfold entry_of in H.
  inv_bind H. inv_bind H. inv_bind H. inv_bind H. injection H as <-.
  rename a into msg, a0 into encoded, a1 into o, a2 into l.
  destruct (Message_encode_inv _ _ E1) as (c & body & Hb & Hc & -> & _).
  destruct (encode_fields_inv _ _ Hb)
    as (_ & mg & at_ & ts & k & v & Hmg & _ & _ & _ & _ & _ & ->).
  assert (Kafka.magic msg = magic) as Hmm.
  { unfold message_of in E0.
    destruct (magic =? 0);
      destruct (Message_init_fields _ _ _ _ _ _ _ _ E0) as (_ & _ & ? & _);
      assumption. }
  rewrite Hmm in Hmg.
  destruct (unpack_pack _ _ _ E2) as (Hlo & _).
  destruct (unpack_pack _ _ _ E3) as (Hll & Hul & _).
  destruct (unpack_pack _ _ _ Hc) as (Hlc & _).
  destruct (unpack_pack _ _ _ Hmg) as (Hlmg & Humg & _).
  cbn [fmt_size] in *.
  unfold _unpack in Hul, Humg. rewrite Hll in Hul. rewrite Hlmg in Humg.
  cbn [fmt_size Z.eqb Pos.eqb] in Hul, Humg.
  injection Hul as Hul. injection Humg as Humg.
  pose proof (olen_nonneg (r_key r)). pose proof (olen_nonneg (r_value r)).
  unfold frame_size in Hlen.
  assert (0 <= (if magic =? 1 then 8 else 0)) by (destruct (magic =? 1); lia).
  set (encoded := c ++ mg ++ at_ ++ ts ++ k ++ v) in *.
  assert (len (o ++ l ++ encoded) = 12 + len encoded) as Hframe
    by (rewrite !len_app; lia).
  split.
  - unfold Spec.whole_batch, Spec.declared_length.
    rewrite (slice_app_at o l encoded) by lia.
    rewrite Hul. lia.
  - unfold Spec.magic_byte. subst encoded.
    replace (o ++ l ++ c ++ mg ++ at_ ++ ts ++ k ++ v)
      with ((o ++ l ++ c) ++ mg ++ at_ ++ ts ++ k ++ v)
      by (rewrite <- !app_assoc; reflexivity).
    rewrite (slice_app_at (o ++ l ++ c) mg) by (rewrite !len_app; lia).
    exact Humg.
Qed.

(** X11: the records region a writer has built is a run of whole batches
    for [MemoryRecords]: constructed on it, the iterator has exactly one
    slice per appended record, each the frame of its record (26 or 34 bytes
    plus key and value), and [next_batch] hands them out in order as
    [LegacyRecordBatch] objects carrying the writer's magic. *)
Theorem X11_iterator_over_written_frames (E : Env) (magic ct batch_size : Z)
    (rs : list record) (w0 w : LegacyRecordBatchWriter.t) (oks : list bool) :
  LegacyRecordBatchWriter.__init__ magic ct batch_size = Ok w0 ->
  append_all E w0 rs = Ok (w, oks) -> Forall (eq true) oks ->
  exists frames mr,
    region w = List.concat frames /\
    Forall2 (fun r f => len f = frame_size magic (r_key r) (r_value r))
            rs frames /\
    MemoryRecords.__init__ (region w) = Ok mr /\
    MemoryRecords._slices mr = frames /\
    Spec.drain (S (List.length frames)) mr =
      Ok (map (fun f => MemoryRecords.LegacyRecordBatch f magic) frames).
Proof.
  intros Hinit Happ Hall.
  destruct (written_region E magic ct batch_size rs w0 w oks Hinit Happ Hall)
    as (_ & _ & _ & bss & its & Hreg & HF & _ & _).
  assert (Forall Spec.whole_batch bss /\
          Forall (fun f => Spec.batch_of f = MemoryRecords.LegacyRecordBatch f magic) bss /\
          Forall2 (fun r f => len f = frame_size magic (r_key r) (r_value r)) rs bss)
    as (Hwhole & Hbatch & Hsizes).
  { clear - HF. induction HF as [|r bs rs' bss' Hent _ (IH1 & IH2 & IH3)].
    - repeat split; constructor.
    - destruct (entry_whole_batch E magic r bs Hent) as (Hw & Hmb).
      destruct (entry_len E magic r bs Hent) as (Hmagic & Hlen).
      split; [constructor; assumption|]. split; [|constructor; assumption].
      constructor; [|exact IH2].
      unfold Spec.batch_of. rewrite Hmb.
      destruct Hmagic as [->| ->]; reflexivity. }
  exists bss. eexists. split; [exact Hreg|]. split; [exact Hsizes|].
  rewrite Hreg. split; [apply init_whole; exact Hwhole|].
  cbn [MemoryRecords._slices]. split; [reflexivity|].
  assert (map (fun f => MemoryRecords.LegacyRecordBatch f magic) bss
          = map Spec.batch_of bss) as ->.
  { clear - Hbatch. induction Hbatch as [|f fs Hf _ IH]; [reflexivity|].
    cbn [map]. rewrite Hf, IH. reflexivity. }
  set (mr := MemoryRecords.mk _ _ _ _).
  rewrite <- (at_cursor_same mr) at 1.
  apply (drain_from mr Hwhole (List.length bss) 0). reflexivity.
Qed.

Lemma X11_iterator_over_written_frames_witness :
  exists w0 w oks mr,
    LegacyRecordBatchWriter.__init__ 1 0 100000 = Ok w0 /\
    append_all toy_env w0 short_records = Ok (w, oks) /\
    Forall (eq true) oks /\
    MemoryRecords.__init__ (region w) = Ok mr /\
    List.length (MemoryRecords._slices mr) = 2%nat.
Proof.
  eexists _, _, _.
  match goal with
  | |- exists mr, ?A /\ ?B /\ ?C /\ _ =>
      assert A as HA by (vm_compute; reflexivity);
      assert B as HB by (vm_compute; reflexivity);
      assert C as HC by (repeat constructor)
  end.
  destruct (X11_iterator_over_written_frames toy_env 1 0 100000 short_records
              _ _ _ HA HB HC) as (frames & mr & _ & Hsz & Hi & Hsl & _).
  exists mr. split; [exact HA|]. split; [exact HB|]. split; [exact HC|].
  split; [exact Hi|]. rewrite Hsl.
  symmetry. exact (Forall2_length Hsz).
Defined.

End MoreFrames.

(* ===================================================================== *)
(** ** Further properties of the legacy reader                           *)
(* ===================================================================== *)

Section MoreReader.
Import Kafka LegacySpec Samples More.
Import LegacyRecordBatchReader.

Lemma len_unread (s : BytesIO) :
  0 <= tell s <= len (getvalue s) -> len (unread s) = len (getvalue s) - tell s.
Proof. intros H. unfold unread, len in *. rewrite length_skipn. lia. Qed.

(** The bytes [read] returns are a prefix of the unread ones. *)
Lemma len_read (s : BytesIO) (n : Z) :
  0 <= tell s -> len (fst (read s n)) <= len (unread s) /\
  (0 <= n -> len (fst (read s n)) <= n).
Proof.
  intros Ht. unfold read, slice, unread. cbn [fst].
  destruct (Z.ltb_spec n 0).
  - split; lia.
  - unfold len. rewrite length_firstn. lia.
Qed.

(** A fixed-size field cannot be read from fewer bytes than it has. *)
Lemma decode_int_short (c : fmt_char) (s : BytesIO) :
  0 <= tell s -> len (unread s) < fmt_size c ->
  exists e, decode_int c s = Raise e /\ exn_class e = ValueError.
Proof.
  intros Ht Hl. unfold decode_int.
  destruct (len_read s (fmt_size c) Ht) as [Hle _].
  destruct (read s (fmt_size c)) as [got s1]. cbn [fst] in Hle.
  unfold _unpack. destruct (Z.eqb_spec (len got) (fmt_size c)); [lia|].
  cbn [bind raise]. eexists. split; reflexivity.
Qed.

Lemma decode_int_raises (c : fmt_char) (s : BytesIO) (e : exn) :
  decode_int c s = Raise e -> exn_class e = ValueError.
Proof.
  unfold decode_int, _unpack. destruct (read s (fmt_size c)) as [got s1].
  destruct (len got =? fmt_size c); cbn [bind raise]; [discriminate|].
  intros [= <-]. reflexivity.
Qed.

(** A frame cannot be decoded from fewer than 12 bytes. *)
Lemma decode_item_short (E : Env) (raw : BytesIO) (n : Z) :
  0 <= tell raw <= len (getvalue raw) ->
  len (getvalue raw) - tell raw < 12 ->
  exists e, decode_item E raw n = Raise e /\ exn_class e = ValueError.
Proof.
  intros Ht Hl. unfold decode_item, Int64_decode.
  pose proof (decode_int_finishes fmt_q raw) as Hfin.
  destruct (decode_int fmt_q raw) as [[offset s1]|e|] eqn:Hd; [| |congruence].
  - destruct (decode_int_tell _ _ _ _ Hd Ht) as (Hg & Htl & Hle).
    cbn [fmt_size bind] in *.
    destruct (decode_int_short fmt_i s1) as (e & He & Hc).
    + lia.
    + rewrite len_unread by (rewrite Hg; lia). rewrite Hg. cbn [fmt_size]. lia.
    + unfold Bytes_decode, Int32_decode. rewrite He. cbn [bind].
      exists e. auto.
  - cbn [bind]. exists e. split; [reflexivity|].
    eapply decode_int_raises; eassumption.
Qed.

(** X9: the reader cannot be built on a message set without a message: a
    buffer that starts with the length prefix 0 is refused with an
    [AssertionError], and one with fewer than four bytes to read with a
    [ValueError]. *)
Theorem X9_reader_needs_a_message (E : Env) (buffer : BytesIO) :
  0 <= tell buffer ->
  (forall rest, unread buffer = [x00; x00; x00; x00] ++ rest ->
     exists e, __init__ E buffer = Raise e /\ exn_class e = AssertionError) /\
  (len (unread buffer) < 4 ->
     exists e, __init__ E buffer = Raise e /\ exn_class e = ValueError).
Proof.
  intros Ht. split.
  - intros rest Hu. unfold __init__, MessageSet_decode, Int32_decode.
    destruct (decode_int_ok fmt_i 0 [x00; x00; x00; x00] buffer rest
                ltac:(vm_compute; reflexivity) Ht Hu) as (s1 & Hd & _ & _).
    rewrite Hd. cbn [bind decode_loop Z.eqb raise].
    eexists. split; reflexivity.
  - intros Hl. unfold __init__, MessageSet_decode, Int32_decode.
    destruct (decode_int_short fmt_i buffer Ht Hl) as (e & He & Hc).
    rewrite He. cbn [bind]. exists e. auto.
Qed.

Lemma X9_reader_needs_a_message_witness :
  0 <= tell empty_set_buffer /\
  exists e, __init__ toy_env empty_set_buffer = Raise e /\
            exn_class e = AssertionError.
Proof.
  assert (0 <= tell empty_set_buffer) as H by (vm_compute; discriminate).
  split; [exact H|].
  exact (proj1 (X9_reader_needs_a_message toy_env empty_set_buffer H) []
           eq_refl).
Defined.

(** X10: a message set cut short inside its first frame (a non-zero declared
    size with fewer than 12 bytes behind the prefix) is accepted by the
    constructor, which keeps the partial-message marker; iterating the
    reader then yields no record and fails with [AttributeError], and so
    does [validate_crc()]. *)
Theorem X10_truncated_first_frame (E : Env) (buffer : BytesIO) (n : Z)
    (size rest : bytes) :
  0 <= tell buffer -> Int32_encode n = Ok size -> n <> 0 ->
  unread buffer = size ++ rest -> len rest < 12 ->
  __init__ E buffer = Ok (mk Partial) /\
  fst (__iter__ E (mk Partial)) = [] /\
  (exists e, snd (__iter__ E (mk Partial)) = Raise e /\
             exn_class e = AttributeError) /\
  (exists e, validate_crc (mk Partial) = Raise e /\
             exn_class e = AttributeError).
Proof.
  intros Ht Hs Hn Hu Hl.
  split; [|split; [reflexivity|split; eexists; split; reflexivity]].
  unfold __init__, MessageSet_decode, Int32_decode.
  destruct (decode_int_ok fmt_i n size buffer rest Hs Ht Hu)
    as (s1 & Hd & Ht1 & Hu1).
  rewrite Hd. cbn [bind].
  destruct (len_read s1 n Ht1) as [Hle _]. rewrite Hu1 in Hle.
  set (d := fst (read s1 n)) in *. clearbody d.
  cbn [decode_loop BytesIO_new getvalue].
  destruct (Z.eqb_spec n 0); [contradiction|].
  destruct (decode_item_short E (mkBytesIO d 0) n) as (e & He & Hc).
  - cbn [tell getvalue]. pose proof (len_nonneg d). lia.
  - cbn [tell getvalue]. lia.
  - unfold BytesIO_new. rewrite He, Hc. reflexivity.
Qed.

Lemma X10_truncated_first_frame_witness :
  0 <= tell cut_set_buffer /\
  Int32_encode 5 = Ok [x00; x00; x00; x05] /\
  __init__ toy_env cut_set_buffer = Ok (mk Partial).
Proof.
  assert (0 <= tell cut_set_buffer) as H by (vm_compute; discriminate).
  assert (Int32_encode 5 = Ok [x00; x00; x00; x05]) as H5
    by (vm_compute; reflexivity).
  split; [exact H|]. split; [exact H5|].
  exact (proj1 (X10_truncated_first_frame toy_env cut_set_buffer 5
                  [x00; x00; x00; x05] [x01; x02; x03] H H5
                  ltac:(discriminate) eq_refl ltac:(vm_compute; reflexivity))).
Defined.

(** X14: absolute offsets.  For a compressed wrapper at magic above 0 whose
    offset is not below the last inner offset, every inner record is yielded
    with its inner offset shifted by the same base, and the last record
    yielded carries the wrapper's own offset. *)
Theorem X14_last_record_has_wrapper_offset (E : Env) (r : t)
    (offset size : Z) (msg : Message) (its : list (Z * Z * Message)) :
  _message r = Item offset size msg -> is_compressed msg = true ->
  decompress E msg = Ok (map to_item its) -> its <> [] ->
  magic msg > 0 -> fst (fst (last its (0, 0, msg))) <= offset ->
  map LegacyRecord.offset (fst (__iter__ E r)) =
    map (fun it : Z * Z * Message =>
           fst (fst it) + (offset - fst (fst (last its (0, 0, msg))))) its /\
  LegacyRecord.offset
    (last (fst (__iter__ E r)) (LegacyRecord.mk 0 None None None None 0))
  = offset /\
  snd (__iter__ E r) = Ok tt.
Proof.
  intros Hm Hc Hd Hne Hmagic Hbase.
  rewrite (iter_compressed E r offset size msg its Hm Hc Hd (fun _ => Hne)).
  cbn [fst snd]. unfold base_of.
  destruct (Z.gtb_spec (magic msg) 0) as [_|]; [|lia].
  set (base := offset - fst (fst (last its (0, 0, msg)))) in *.
  assert (forall it : Z * Z * Message,
            LegacyRecord.offset (inner_record_of msg base it)
            = fst (fst it) + base) as Hoff.
  { intros [[io sz] im]. unfold inner_record_of. cbn [LegacyRecord.offset fst].
    destruct (Z.geb_spec base 0); [reflexivity|]. unfold base in *. lia. }
  split; [|split; [|reflexivity]].
  - rewrite map_map. apply map_ext. exact Hoff.
  - destruct (exists_last Hne) as [l [x Hl]].
    assert (last its (0, 0, msg) = x) as Hx by (rewrite Hl; apply last_last).
    rewrite Hl at 1. rewrite map_app. cbn [map]. rewrite last_last, Hoff.
    unfold base. rewrite Hx. lia.
Qed.

Lemma X14_last_record_has_wrapper_offset_witness :
  _message broker_reader
    = Item 5 (outer_size broker_reader) (outer_message broker_reader) /\
  map LegacyRecord.offset (fst (__iter__ toy_env broker_reader)) = [4; 5].
Proof.
  assert (_message broker_reader
    = Item 5 (outer_size broker_reader) (outer_message broker_reader)) as H1
    by (vm_compute; reflexivity).
  split; [exact H1|].
  rewrite (proj1 (X14_last_record_has_wrapper_offset toy_env broker_reader
                    5 _ _ (inner_items toy_env broker_reader) H1
                    ltac:(vm_compute; reflexivity)
                    ltac:(vm_compute; reflexivity)
                    ltac:(vm_compute; discriminate)
                    ltac:(vm_compute; reflexivity)
                    ltac:(vm_compute; discriminate))).
  vm_compute. reflexivity.
Defined.

Lemma inner_loop_app (msg : Message) (base : Z) (its : list (Z * Z * Message))
    (rest : list item) :
  inner_loop msg base (map to_item its ++ rest) =
  (map (inner_record_of msg base) its ++ fst (inner_loop msg base rest),
   snd (inner_loop msg base rest)).
Proof.
  induction its as [|it its IH].
  - cbn [map app]. destruct (inner_loop msg base rest); reflexivity.
  - cbn [map app inner_loop]. rewrite inner_record_item, IH. reflexivity.
Qed.

(** X15: a compressed wrapper whose value decompresses to an empty message
    set: at magic above 0 iteration fails with [IndexError] before any
    record (there is no last inner message to take the offset from); at
    magic 0 it ends normally without a record. *)
Theorem X15_empty_inner_set (E : Env) (r : t) (offset size : Z) (msg : Message) :
  _message r = Item offset size msg -> is_compressed msg = true ->
  decompress E msg = Ok [] ->
  (magic msg > 0 ->
   fst (__iter__ E r) = [] /\
   exists e, snd (__iter__ E r) = Raise e /\ exn_class e = IndexError) /\
  (magic msg <= 0 -> __iter__ E r = ([], Ok tt)).
Proof.
  intros Hm Hc Hd. unfold __iter__, base_offset. rewrite Hm, Hc, Hd.
  cbn [bind]. split; intros Hmagic.
  - destruct (Z.gtb_spec (magic msg) 0); [|lia].
    cbn. split; [reflexivity|]. eexists. split; reflexivity.
  - destruct (Z.gtb_spec (magic msg) 0); [lia|]. reflexivity.
Qed.

Lemma X15_empty_inner_set_witness :
  is_compressed hollow_wrapper = true /\
  decompress toy_env hollow_wrapper = Ok [] /\
  fst (__iter__ toy_env (mk (Item 0 0 hollow_wrapper))) = [].
Proof.
  assert (is_compressed hollow_wrapper = true) as H1 by reflexivity.
  assert (decompress toy_env hollow_wrapper = Ok []) as H2
    by (vm_compute; reflexivity).
  split; [exact H1|]. split; [exact H2|].
  exact (proj1 (proj1 (X15_empty_inner_set toy_env (mk (Item 0 0 hollow_wrapper))
                         0 0 hollow_wrapper eq_refl H1 H2)
                  ltac:(vm_compute; reflexivity))).
Defined.

(** X16: a compressed wrapper whose inner message set is cut short (whole
    inner messages followed by the partial-message marker).  At magic 0 the
    whole inner messages are yielded first, with their inner offsets, and
    iteration then fails with [AttributeError]; at magic above 0 it fails
    with [TypeError] before any record, when the base offset is computed
    from the marker. *)
Theorem X16_cut_inner_set (E : Env) (r : t) (offset size : Z) (msg : Message)
    (its : list (Z * Z * Message)) :
  _message r = Item offset size msg -> is_compressed msg = true ->
  decompress E msg = Ok (map to_item its ++ [Partial]) ->
  (magic msg <= 0 ->
   map LegacyRecord.offset (fst (__iter__ E r))
     = map (fun it : Z * Z * Message => fst (fst it)) its /\
   List.length (fst (__iter__ E r)) = List.length its /\
   exists e, snd (__iter__ E r) = Raise e /\ exn_class e = AttributeError) /\
  (magic msg > 0 ->
   fst (__iter__ E r) = [] /\
   exists e, snd (__iter__ E r) = Raise e /\ exn_class e = TypeError).
Proof.
  intros Hm Hc Hd. unfold __iter__, base_offset. rewrite Hm, Hc, Hd.
  cbn [bind]. split; intros Hmagic.
  - destruct (Z.gtb_spec (magic msg) 0) as [|_]; [lia|]. cbn [bind].
    rewrite inner_loop_app.
    assert (inner_loop msg (-1) [Partial] = ([], Raise (no_attribute "key")))
      as -> by (cbn [inner_loop]; unfold inner_record;
                destruct (Z.gtb_spec (magic msg) 0); [lia|reflexivity]).
    cbn [fst snd]. rewrite app_nil_r.
    split; [|split; [apply length_map|eexists; split; reflexivity]].
    rewrite map_map. apply map_ext. intros [[io sz] im]. reflexivity.
  - destruct (Z.gtb_spec (magic msg) 0) as [_|]; [|lia].
    rewrite (getitem_last _ Partial)
      by (intros H; apply app_eq_nil in H as [_ H]; discriminate).
    rewrite last_last. cbn. split; [reflexivity|].
    eexists. split; reflexivity.
Qed.

Lemma X16_cut_inner_set_witness :
  is_compressed cut_wrapper = true /\
  decompress toy_env cut_wrapper
    = Ok (map to_item
            (items_of (get [] (decompress toy_env cut_wrapper))) ++ [Partial]) /\
  map LegacyRecord.offset (fst (__iter__ toy_env (mk (Item 0 0 cut_wrapper))))
    = [0; 1] /\
  fst (__iter__ toy_env (mk (Item 0 0 cut_wrapper_v1))) = [].
Proof.
  assert (is_compressed cut_wrapper = true) as H1 by reflexivity.
  assert (decompress toy_env cut_wrapper
    = Ok (map to_item
            (items_of (get [] (decompress toy_env cut_wrapper))) ++ [Partial]))
    as H2 by (vm_compute; reflexivity).
  assert (decompress toy_env cut_wrapper_v1
    = Ok (map to_item
            (items_of (get [] (decompress toy_env cut_wrapper_v1))) ++ [Partial]))
    as H3 by (vm_compute; reflexivity).
  split; [exact H1|]. split; [exact H2|]. split.
  - rewrite (proj1 (proj1 (X16_cut_inner_set toy_env (mk (Item 0 0 cut_wrapper))
                             0 0 cut_wrapper _ eq_refl H1 H2)
                      ltac:(vm_compute; discriminate))).
    vm_compute. reflexivity.
  - exact (proj1 (proj2 (X16_cut_inner_set toy_env (mk (Item 0 0 cut_wrapper_v1))
                           0 0 cut_wrapper_v1 _ eq_refl eq_refl H3)
                    ltac:(vm_compute; reflexivity))).
Defined.

End MoreReader.

(* ===================================================================== *)
(** ** CRC checks of the legacy reader                                   *)
(* ===================================================================== *)

Section MoreCrc.
Import Kafka LegacySpec Samples More.
Import LegacyRecordBatchReader.



End MoreCrc.

(* ===================================================================== *)
(** ** Invariants of the writer's buffer                                 *)
(* ===================================================================== *)

Section MoreInvariants.
Import Kafka LegacySpec Samples More.
Import LegacyRecordBatchWriter.

(** What holds of the buffer in every state the writer reaches by
    [__init__] and calls of [append], those that raised included. *)
Lemma writer_state_frames (E : Env) (w : t) :
  writer_state E w ->
  firstn 4 (getvalue (_buffer w)) = [x00; x00; x00; x00] /\
  (_first_message w = true -> region w = []) /\
  (exists its frames,
     region w = List.concat frames /\
     Forall2 (is_entry E) its frames /\
     Forall (fun f => Spec.whole_batch f /\ Spec.magic_byte f = _magic w) frames) /\
  (region w = [] \/ (exists it, is_entry E it (region w)) \/
   len (getvalue (_buffer w)) <= _batch_size w).
Proof.
  induction 1 as [mg ct bsz w Hi
                 | w offset timestamp key value headers w' ok Hw IH Ha
                 | w offset timestamp key value headers w' e Hw IH Ha].
  - destruct (init_inv _ _ _ _ Hi) as (_ & _ & _ & _ & Hf & Hr).
    split.
    { unfold __init__ in Hi. vm_compute in Hi. injection Hi as <-. reflexivity. }
    split; [intros _; exact Hr|].
    split; [|left; exact Hr].
    exists [], []. rewrite Hr. repeat split; constructor.
  - pose proof (writer_state_inv E w Hw) as Hinv.
    assert (headers = None \/ headers = Some []) as Hh
      by (destruct headers as [[|h hs]|]; [right; reflexivity|discriminate Ha
                                          |left; reflexivity]).
    destruct (_is_full w key value) eqn:Hfull.
    { rewrite append_full in Ha by auto. injection Ha as <- <-. exact IH. }
    rewrite (append_not_full E w (mkRecord offset timestamp key value)) in Ha
      by auto.
    inv_bind Ha. injection Ha as <- <-. rename a into bs, E0 into Hbs.
    destruct IH as (Hz & Hflag & (its & frames & Hreg & HF & HW) & Hsz).
    destruct (entry_of_is_entry E _ _ bs Hbs) as (_ & body & Hent).
    destruct (entry_whole_batch E _ _ bs Hbs) as (Hwhole & Hmb).
    destruct (entry_len E _ _ bs Hbs) as (Hmagic & Hlen).
    pose proof (proj1 (is_entry_len E _ bs Hent)) as H12.
    destruct Hinv as [Ht H4]. unfold len in H4.
    assert (region (with_buffer w
                      (mkBytesIO (getvalue (_buffer w) ++ bs)
                                 (tell (_buffer w) + len bs)) false)
            = region w ++ bs) as Hreg'.
    { unfold region. cbn [with_buffer _buffer getvalue].
      rewrite skipn_app.
      replace (4 - List.length (getvalue (_buffer w)))%nat with 0%nat by lia.
      reflexivity. }
    rewrite Hreg'. cbn [with_buffer _buffer getvalue _first_message _magic
                        _batch_size].
    split.
    { rewrite firstn_app.
      replace (4 - List.length (getvalue (_buffer w)))%nat with 0%nat by lia.
      cbn [firstn]. rewrite app_nil_r. exact Hz. }
    split; [discriminate|].
    split.
    { exists (its ++ [(offset, len bs - 12,
                       stored_message E (_magic w)
                         (mkRecord offset timestamp key value) body)]),
             (frames ++ [bs]).
      rewrite concat_app, Hreg. cbn [List.concat]. rewrite app_nil_r.
      split; [reflexivity|].
      split; [apply Forall2_app; [exact HF|constructor; [exact Hent|constructor]]|].
      apply Forall_app. split; [exact HW|].
      constructor; [split; assumption|constructor]. }
    destruct (_first_message w) eqn:Hfirst.
    + right. left. rewrite (Hflag eq_refl). cbn [app].
      eexists. exact Hent.
    + right. right.
      assert (~ (false = false /\
                 tell (_buffer w) + worst_case_size key value > _batch_size w))
        as Hroom.
      { intros Hc. rewrite <- Hfirst in Hc at 1.
        apply is_full_spec in Hc. congruence. }
      rewrite Ht in Hroom.
      unfold worst_case_size, MessageSet_HEADER_SIZE, Message_HEADER_SIZE in Hroom.
      pose proof (olen_nonneg key). pose proof (olen_nonneg value).
      unfold frame_size in Hlen. cbn [r_key r_value] in Hlen.
      rewrite len_app, Hlen.
      destruct (Z_le_gt_dec
                  (len (getvalue (_buffer w)) + (12 + 22 + olen key + olen value))
                  (_batch_size w)) as [Hle|Hgt];
        [|exfalso; apply Hroom; split; [reflexivity|exact Hgt]].
      destruct (_magic w =? 1); lia.
  - destruct (append_self_raised E w w' _ _ _ _ _ e Ha)
      as (Hb & Hm & _ & Hbs & Hf).
    destruct IH as (Hz & Hflag & Hframes & Hsz).
    unfold region in *. rewrite Hb, Hm, Hbs.
    split; [exact Hz|]. split; [|split; [exact Hframes|exact Hsz]].
    destruct Hf as [->|Hf]; [exact Hflag|]. rewrite Hf. discriminate.
Qed.

(** X17: in every state the writer reaches by [__init__] and calls of
    [append], including calls that raised, the four bytes of the length
    prefix are still zero, the first-message flag is set only while no
    record has been written, and the records region is a run of well-formed
    frames: each decodes to a message, is a whole batch for [MemoryRecords]
    and carries the writer's magic. *)
Theorem X17_buffer_is_run_of_frames (E : Env) (w : t) :
  writer_state E w ->
  firstn 4 (getvalue (_buffer w)) = [x00; x00; x00; x00] /\
  (_first_message w = true -> region w = []) /\
  exists its frames,
    region w = List.concat frames /\
    Forall2 (is_entry E) its frames /\
    Forall (fun f => Spec.whole_batch f /\ Spec.magic_byte f = _magic w) frames.
Proof.
  intros Hw. destruct (writer_state_frames E w Hw) as (H1 & H2 & H3 & _).
  auto.
Qed.

(** At the writer left by a first [append] that raised (an offset that does
    not fit Int64): the flag is cleared although no record was written. *)
Lemma X17_buffer_is_run_of_frames_witness :
  writer_state toy_env raised_writer /\
  _first_message raised_writer = false /\ region raised_writer = [] /\
  firstn 4 (getvalue (_buffer raised_writer)) = [x00; x00; x00; x00].
Proof.
  assert (writer_state toy_env raised_writer) as Hs.
  { apply (writer_raised toy_env (writer_after toy_env 1 0 100000 [])
             (2 ^ 63) None None None None raised_writer
             (mkExn ValueError
                "Error encountered when attempting to convert value")).
    - apply (sample_writer_state 1 0 100000 [] []); vm_compute; reflexivity.
    - vm_compute. reflexivity. }
  split; [exact Hs|]. split; [reflexivity|]. split; [reflexivity|].
  exact (proj1 (X17_buffer_is_run_of_frames toy_env _ Hs)).
Defined.

(** X18: the batch size is a soft limit that only the first record may
    break: in every state the writer reaches, the buffer holds no record,
    or exactly one frame, or at most [batch_size] bytes. *)
Theorem X18_only_first_record_exceeds (E : Env) (w : t) :
  writer_state E w ->
  region w = [] \/ (exists it, is_entry E it (region w)) \/
  len (getvalue (_buffer w)) <= _batch_size w.
Proof.
  intros Hw. destruct (writer_state_frames E w Hw) as (_ & _ & _ & H).
  exact H.
Qed.

Lemma X18_only_first_record_exceeds_witness :
  writer_state toy_env (writer_after toy_env 1 0 10 short_records) /\
  region (writer_after toy_env 1 0 10 short_records) <> [] /\
  ~ len (getvalue (_buffer (writer_after toy_env 1 0 10 short_records))) <= 10 /\
  exists it, is_entry toy_env it (region (writer_after toy_env 1 0 10 short_records)).
Proof.
  assert (writer_state toy_env (writer_after toy_env 1 0 10 short_records))
    as Hs by (apply (sample_writer_state 1 0 10 short_records [true; false]);
              vm_compute; reflexivity).
  assert (region (writer_after toy_env 1 0 10 short_records) <> []) as Hne
    by (vm_compute; discriminate).
  assert (~ len (getvalue (_buffer (writer_after toy_env 1 0 10 short_records)))
            <= 10) as Hbig by (vm_compute; intros H; apply H; reflexivity).
  split; [exact Hs|]. split; [exact Hne|]. split; [exact Hbig|].
  destruct (X18_only_first_record_exceeds toy_env _ Hs) as [H|[H|H]];
    [contradiction|exact H|contradiction].
Defined.

End MoreInvariants.
